(** * go-polyline: the Encoded Polyline codec of [polyline.go]

    A shallow embedding of the package's scalar, coordinate, sequence and
    flat-array codecs, followed by the properties of its specification.

    Conventions of the embedding:
    - Go's [int] and [uint] are 64 bits wide; both are carried by [Z], and
      every operation writes its wrap-around out ([to_int], [to_uint]).
    - [[]byte] is [list byte]; a [nil] slice and an empty slice are both [[]].
    - A Go result [(v, rest, err)] is an [outcome]: [Ok (v, rest)] when [err]
      is [nil], [Err e] otherwise (every error return of the package carries
      zero values only), and [Panic p] for a run-time panic.
    - [float64] arithmetic is IEEE-754 binary64 ([float]), behind the class
      [Float64Ops] of the operations the package uses: what is proved for
      every instance of the class does not depend on how they round. *)

From Stdlib Require Import ZArith QArith Qabs Lia Floats.
From Stdlib.Strings Require Import Byte String.
From stdpp Require Import base list.

Local Open Scope Z_scope.

(** ** Machine integers *)

Module MachineInt.

Definition uint_bits : Z := 64.
Definition uint_modulus : Z := 2 ^ uint_bits.
Definition min_int : Z := - 2 ^ (uint_bits - 1).
Definition max_int : Z := 2 ^ (uint_bits - 1) - 1.

(** [uint(x)]: the value reduced modulo [2^64]. *)
Definition to_uint (z : Z) : Z := z mod uint_modulus.

(** [int(x)]: the value reduced into [[-2^63, 2^63)]. *)
Definition to_int (z : Z) : Z := (z - min_int) mod uint_modulus + min_int.

Definition is_uint (z : Z) : Prop := 0 <= z < uint_modulus.
Definition is_int (z : Z) : Prop := min_int <= z <= max_int.

Definition uint_add (x y : Z) : Z := to_uint (x + y).
Definition uint_sub (x y : Z) : Z := to_uint (x - y).

(** [x << s] on [uint]: bits shifted out are lost, and a count of 64 or
    more gives 0. *)
Definition uint_shl (x s : Z) : Z :=
  if s <? uint_bits then to_uint (Z.shiftl x s) else 0.

Definition int_add (x y : Z) : Z := to_int (x + y).
Definition int_sub (x y : Z) : Z := to_int (x - y).
Definition int_neg (x : Z) : Z := to_int (- x).
Definition int_shl (x s : Z) : Z :=
  if s <? uint_bits then to_int (Z.shiftl x s) else 0.

(** [byte(x)] keeps the low eight bits. *)
Definition byte_of (z : Z) : byte :=
  match Byte.of_N (Z.to_N (z mod 256)) with
  | Some b => b
  | None => x00
  end.

Definition byte_val (b : byte) : Z := Z.of_N (Byte.to_N b).

End MachineInt.
Export MachineInt.

(** ** Errors and outcomes *)

Inductive error : Set :=
| errDimensionalMismatch
| errInvalidByte
| errUnterminatedSequence.

Inductive panic : Set :=
| IndexOutOfRange
| NegativeLen
| DivideByZero.

Inductive outcome (A : Type) : Type :=
| Ok (a : A)
| Err (e : error)
| Panic (p : panic).
Arguments Ok {A} a.
Arguments Err {A} e.
Arguments Panic {A} p.

Definition obind {A B} (m : outcome A) (k : A -> outcome B) : outcome B :=
  match m with
  | Ok a => k a
  | Err e => Err e
  | Panic p => Panic p
  end.

#[global] Instance outcome_bind : MBind outcome :=
  fun A B k m => obind m k.

(** ** Scalar integer codec *)

(** The [for i, b := range buf] loop of [DecodeUint], with the loop variables
    [u] and [shift] as arguments; [rest] is [buf[i+1:]]. *)
Fixpoint DecodeUint_loop (u shift : Z) (buf : list byte)
  : outcome (Z * list byte) :=
  match buf with
  | [] => Err errUnterminatedSequence
  | b :: rest =>
      let v := byte_val b in
      if (63 <=? v) && (v <? 95) then
        Ok (uint_add u (uint_shl (uint_sub v 63) shift), rest)
      else if (95 <=? v) && (v <? 127) then
        DecodeUint_loop (uint_add u (uint_shl (uint_sub v 95) shift))
                        (uint_add shift 5) rest
      else Err errInvalidByte
  end.

Definition DecodeUint (buf : list byte) : outcome (Z * list byte) :=
  DecodeUint_loop 0 0 buf.

Definition DecodeInt (buf : list byte) : outcome (Z * list byte) :=
  match DecodeUint buf with
  | Ok (u, buf') =>
      if Z.land u 1 =? 0 then Ok (to_int (Z.shiftr u 1), buf')
      else Ok (int_neg (to_int (Z.shiftr (uint_add u 1) 1)), buf')
  | Err e => Err e
  | Panic p => Panic p
  end.

(** The [for u >= 32] loop of [EncodeUint], unrolled at most [n] times; it
    returns the loop state [(buf, u)] it stopped in.  [EncodeUint_loop_exit]
    shows that the guard is false in that state for the [n] that
    [EncodeUint] passes, so the loop has run to its end. *)
Fixpoint EncodeUint_loop (n : nat) (buf : list byte) (u : Z)
  : list byte * Z :=
  match n with
  | O => (buf, u)
  | S n' =>
      if 32 <=? u then
        EncodeUint_loop n' (buf ++ [byte_of (Z.land u 31 + 95)]) (Z.shiftr u 5)
      else (buf, u)
  end.

Definition EncodeUint (buf : list byte) (u : Z) : list byte :=
  let '(buf', u') := EncodeUint_loop (Z.to_nat (Z.log2 u)) buf u in
  buf' ++ [byte_of (u' + 63)].

(** The unsigned value [EncodeInt] hands to [EncodeUint]. *)
Definition zigzag (i : Z) : Z :=
  if i <? 0 then to_uint (Z.lnot (int_shl i 1)) else to_uint (int_shl i 1).

Definition EncodeInt (buf : list byte) (i : Z) : list byte :=
  EncodeUint buf (zigzag i).

(** ** The scalar codec as the specification words it *)

Definition is_continuation (b : byte) : bool :=
  (95 <=? byte_val b) && (byte_val b <? 127).

Definition is_terminal (b : byte) : bool :=
  (63 <=? byte_val b) && (byte_val b <? 95).

(** The leading run of continuation bytes, and what follows it. *)
Fixpoint split_run (buf : list byte) : list byte * list byte :=
  match buf with
  | [] => ([], [])
  | b :: rest =>
      if is_continuation b then
        let '(cs, tl) := split_run rest in (b :: cs, tl)
      else ([], buf)
  end.

(** The [k]-th byte of a run is shifted by [5 * k] (a [uint], like the
    accumulator): continuation bytes contribute [(byte - 95) << shift], the
    terminal byte [(byte - 63) << shift]. *)
Fixpoint run_value (k : nat) (cs : list byte) (t : byte) : Z :=
  match cs with
  | [] => uint_shl (byte_val t - 63) (to_uint (5 * Z.of_nat k))
  | b :: cs' =>
      uint_shl (byte_val b - 95) (to_uint (5 * Z.of_nat k))
      + run_value (S k) cs' t
  end.

Definition DecodeUint_spec (buf : list byte) : outcome (Z * list byte) :=
  match split_run buf with
  | (_, []) => Err errUnterminatedSequence
  | (cs, t :: rest) =>
      if is_terminal t then Ok (to_uint (run_value 0 cs t), rest)
      else Err errInvalidByte
  end.

(** The zigzag map on mathematical integers. *)
Definition zigzag_spec (v : Z) : Z :=
  if v <? 0 then Z.lnot (v * 2) else v * 2.

Definition unzigzag_spec (u : Z) : Z :=
  if Z.even u then Z.shiftr u 1 else - Z.shiftr (uint_add u 1) 1.

(** ** Floating-point operations the codec uses *)

(** What [polyline.go] asks of [float64]: the constant [0.5], [+], unary [-],
    [*], [/], the test [x < 0], [math.Floor], and the conversions [int(x)]
    and [float64(j)]. *)
Class Float64Ops (F : Type) : Type := {
  f_half : F;
  f_add : F -> F -> F;
  f_neg : F -> F;
  f_mul : F -> F -> F;
  f_div : F -> F -> F;
  f_ltz : F -> bool;
  f_floor : F -> F;
  f_to_int : F -> Z;
  f_of_int : Z -> F
}.

(** *** IEEE-754 binary64 *)

Module Binary64.

(** [float64(j)]: the integer rounded to the nearest binary64 value. *)
Definition of_int (j : Z) : float :=
  SF2Prim (binary_normalize prec emax j 0 false).

Definition signed_mantissa (s : bool) (m : positive) : Z :=
  if s then Z.neg m else Z.pos m.

(** [math.Floor]: special values are returned as they are; a finite
    [m * 2^e] becomes [floor (m * 2^e)], which [Z.shiftl] computes for
    either sign of [e]. *)
Definition floor (x : float) : float :=
  match Prim2SF x with
  | S754_finite s m e => of_int (Z.shiftl (signed_mantissa s m) e)
  | _ => x
  end.

(** [int(x)]: truncation towards zero.  Go leaves the result for NaN, the
    infinities and values outside [int] to the implementation; amd64 gives
    the smallest [int], which is what is modelled. *)
Definition to_int (x : float) : Z :=
  match Prim2SF x with
  | S754_zero _ => 0
  | S754_finite s m e =>
      let z := Z.quot (Z.shiftl (signed_mantissa s m) (Z.max e 0))
                      (2 ^ Z.max (- e) 0) in
      if (min_int <=? z) && (z <=? max_int) then z else min_int
  | _ => min_int
  end.

(** The rational number a finite binary64 value stands for, in lowest
    terms; nothing for NaN and the infinities. *)
Definition to_Q (x : float) : option Q :=
  match Prim2SF x with
  | S754_zero _ => Some 0%Q
  | S754_finite s m e =>
      let z := signed_mantissa s m in
      Some (Qred (if 0 <=? e then inject_Z (z * 2 ^ e)
                  else Qmake z (Z.to_pos (2 ^ (- e)))))
  | _ => None
  end.

(** [|x' - x| <= bound], on the numbers the two values stand for. *)
Definition within (bound : Q) (x' x : float) : bool :=
  match to_Q x', to_Q x with
  | Some p, Some q => Qle_bool (Qabs (p - q)) bound
  | _, _ => false
  end.

#[global] Instance binary64_ops : Float64Ops float := {
  f_half := 0.5%float;
  f_add := PrimFloat.add;
  f_neg := PrimFloat.opp;
  f_mul := PrimFloat.mul;
  f_div := PrimFloat.div;
  f_ltz := fun x => PrimFloat.ltb x 0%float;
  f_floor := floor;
  f_to_int := to_int;
  f_of_int := of_int
}.

End Binary64.

(** ** The codec *)

Section Codec.

Context {F : Type} `{Float64Ops F}.

Definition round (x : F) : Z :=
  if f_ltz x then f_to_int (f_neg (f_floor (f_add (f_neg x) f_half)))
  else f_to_int (f_floor (f_add x f_half)).

Record Codec : Type := {
  Dim : Z;
  Scale : F
}.

(** [len(s)] as a Go [int]. *)
Definition len {A} (s : list A) : Z := Z.of_nat (length s).

(** [make([]T, n)] for a zero value [z]: it panics on a negative length. *)
Definition make {A} (z : A) (n : Z) : outcome (list A) :=
  if n <? 0 then Panic NegativeLen else Ok (replicate (Z.to_nat n) z).

(** *** Decoding *)

(** The loop of [DecodeCoord] over the [n] remaining slots of [coord]; the
    slots are written once each, in order, so the coordinate is built
    front to back. *)
Fixpoint DecodeCoord_loop (c : Codec) (n : nat) (buf : list byte)
  : outcome (list F * list byte) :=
  match n with
  | O => Ok ([], buf)
  | S n' =>
      '(j, buf1) ← DecodeInt buf;
      '(coord, buf2) ← DecodeCoord_loop c n' buf1;
      Ok (f_div (f_of_int j) (Scale c) :: coord, buf2)
  end.

Definition DecodeCoord (c : Codec) (buf : list byte)
  : outcome (list F * list byte) :=
  if Dim c <? 0 then Panic NegativeLen
  else DecodeCoord_loop c (Z.to_nat (Dim c)) buf.

(** [for j := range coord { coord[j] += prev[j] }], from index [j] on. *)
Fixpoint add_previous (prev : list F) (j : nat) (coord : list F)
  : outcome (list F) :=
  match coord with
  | [] => Ok []
  | x :: xs =>
      match prev !! j with
      | Some p =>
          rest ← add_previous prev (S j) xs;
          Ok (f_add x p :: rest)
      | None => Panic IndexOutOfRange
      end
  end.

(** The [for i := 1; len(buf) > 0; i++] loop of [DecodeCoords]; [None]
    when [fuel] iterations did not reach its end. *)
Fixpoint DecodeCoords_loop (fuel : nat) (c : Codec) (i : nat)
         (coords : list (list F)) (buf : list byte)
  : option (outcome (list (list F) * list byte)) :=
  match buf with
  | [] => Some (Ok (coords, []))
  | _ :: _ =>
      match fuel with
      | O => None
      | S fuel' =>
          match DecodeCoord c buf with
          | Ok (coord, buf') =>
              match coords !! (i - 1)%nat with
              | Some prev =>
                  match add_previous prev 0 coord with
                  | Ok coord' =>
                      DecodeCoords_loop fuel' c (S i) (coords ++ [coord']) buf'
                  | Err e => Some (Err e)
                  | Panic p => Some (Panic p)
                  end
              | None =>
                  match coord with
                  | [] => DecodeCoords_loop fuel' c (S i) (coords ++ [coord]) buf'
                  | _ :: _ => Some (Panic IndexOutOfRange)
                  end
              end
          | Err e => Some (Err e)
          | Panic p => Some (Panic p)
          end
      end
  end.

Definition DecodeCoords_fuel (fuel : nat) (c : Codec) (buf : list byte)
  : option (outcome (list (list F) * list byte)) :=
  match DecodeCoord c buf with
  | Ok (coord, buf') => DecodeCoords_loop fuel c 1 [coord] buf'
  | Err e => Some (Err e)
  | Panic p => Some (Panic p)
  end.

(** Every iteration of the loop takes at least one byte when [Dim >= 1]
    ([DecodeCoords_terminates]), so [length buf] iterations are enough. *)
Definition DecodeCoords (c : Codec) (buf : list byte)
  : option (outcome (list (list F) * list byte)) :=
  DecodeCoords_fuel (length buf) c buf.

(** The [for j := 0; j < c.Dim; j++] loop of [DecodeFlatCoords], with [n]
    iterations to go. *)
Fixpoint DecodeFlat_inner (c : Codec) (n j : nat) (last : list Z)
         (fcs : list F) (buf : list byte)
  : outcome (list Z * list F * list byte) :=
  match n with
  | O => Ok (last, fcs, buf)
  | S n' =>
      '(k, buf') ← DecodeInt buf;
      match last !! j with
      | Some l =>
          let l' := int_add l k in
          DecodeFlat_inner c n' (S j) (<[j := l']> last)
                           (fcs ++ [f_div (f_of_int l') (Scale c)]) buf'
      | None => Panic IndexOutOfRange
      end
  end.

(** The [for len(buf) > 0] loop of [DecodeFlatCoords]. *)
Fixpoint DecodeFlat_loop (fuel : nat) (c : Codec) (last : list Z)
         (fcs : list F) (buf : list byte)
  : option (outcome (list F * list byte)) :=
  match buf with
  | [] => Some (Ok (fcs, []))
  | _ :: _ =>
      match fuel with
      | O => None
      | S fuel' =>
          match DecodeFlat_inner c (Z.to_nat (Dim c)) 0 last fcs buf with
          | Ok (last', fcs', buf') => DecodeFlat_loop fuel' c last' fcs' buf'
          | Err e => Some (Err e)
          | Panic p => Some (Panic p)
          end
      end
  end.

Definition DecodeFlatCoords_fuel (fuel : nat) (c : Codec) (fcs : list F)
           (buf : list byte) : option (outcome (list F * list byte)) :=
  if Dim c =? 0 then Some (Panic DivideByZero)
  else if negb (Z.rem (len fcs) (Dim c) =? 0) then
    Some (Err errDimensionalMismatch)
  else
    match make 0 (Dim c) with
    | Ok last => DecodeFlat_loop fuel c last fcs buf
    | Err e => Some (Err e)
    | Panic p => Some (Panic p)
    end.

Definition DecodeFlatCoords (c : Codec) (fcs : list F) (buf : list byte)
  : option (outcome (list F * list byte)) :=
  DecodeFlatCoords_fuel (length buf) c fcs buf.

(** *** Encoding *)

Definition EncodeCoord (c : Codec) (buf : list byte) (coord : list F)
  : list byte :=
  fold_left (fun buf x => EncodeInt buf (round (f_mul (Scale c) x)))
            coord buf.

(** [for i, x := range coord] of [EncodeCoords], from index [i] on, over
    the state [(buf, last)]. *)
Fixpoint EncodeCoords_inner (c : Codec) (i : nat) (coord : list F)
         (buf : list byte) (last : list Z)
  : outcome (list byte * list Z) :=
  match coord with
  | [] => Ok (buf, last)
  | x :: xs =>
      let ex := round (f_mul (Scale c) x) in
      match last !! i with
      | Some l =>
          EncodeCoords_inner c (S i) xs (EncodeInt buf (int_sub ex l))
                             (<[i := ex]> last)
      | None => Panic IndexOutOfRange
      end
  end.

Fixpoint EncodeCoords_loop (c : Codec) (coords : list (list F))
         (buf : list byte) (last : list Z) : outcome (list byte) :=
  match coords with
  | [] => Ok buf
  | coord :: rest =>
      '(buf', last') ← EncodeCoords_inner c 0 coord buf last;
      EncodeCoords_loop c rest buf' last'
  end.

Definition EncodeCoords (c : Codec) (buf : list byte)
           (coords : list (list F)) : outcome (list byte) :=
  last ← make 0 (Dim c);
  EncodeCoords_loop c coords buf last.

(** [for i, x := range fcs] of [EncodeFlatCoords], from index [i] on. *)
Fixpoint EncodeFlat_loop (c : Codec) (i : nat) (fcs : list F)
         (buf : list byte) (last : list Z) : outcome (list byte) :=
  match fcs with
  | [] => Ok buf
  | x :: xs =>
      let ex := round (f_mul (Scale c) x) in
      let j := Z.to_nat (Z.rem (Z.of_nat i) (Dim c)) in
      match last !! j with
      | Some l =>
          EncodeFlat_loop c (S i) xs (EncodeInt buf (int_sub ex l))
                          (<[j := ex]> last)
      | None => Panic IndexOutOfRange
      end
  end.

Definition EncodeFlatCoords (c : Codec) (buf : list byte) (fcs : list F)
  : outcome (list byte) :=
  if Dim c =? 0 then Panic DivideByZero
  else if negb (Z.rem (len fcs) (Dim c) =? 0) then
    Err errDimensionalMismatch
  else
    last ← make 0 (Dim c);
    EncodeFlat_loop c 0 fcs buf last.

End Codec.

Arguments Codec F : clear implicits.

Definition defaultCodec : Codec float := {| Dim := 2; Scale := 1e5%float |}.


Set Warnings "-inexact-float".

(** The test vector of the polyline algorithm's documentation. *)
Definition two_points : list (list float) :=
  [[38.5; -120.2]; [40.7; -120.95]]%float.

Definition three_points : list (list float) :=
  [[38.5; -120.2]; [40.7; -120.95]; [43.252; -126.453]]%float.

Definition published : list byte :=
  list_byte_of_string "_p~iF~ps|U_ulLnnqC_mqNvxq`@".

(** ** The wire format as rows of integers *)

(** Both decoders read the buffer as groups of [Dim] signed integers, and
    differ only in what they accumulate; both encoders write such groups.
    The definitions below name the groups and the two accumulations, so that
    the loops of the codec can be compared through them. *)

(** [n] consecutive signed integers off the front of [buf]. *)
Fixpoint DecodeInts (n : nat) (buf : list byte)
  : outcome (list Z * list byte) :=
  match n with
  | O => Ok ([], buf)
  | S n' =>
      match DecodeInt buf with
      | Ok (j, buf1) =>
          match DecodeInts n' buf1 with
          | Ok (js, buf2) => Ok (j :: js, buf2)
          | Err e => Err e
          | Panic p => Panic p
          end
      | Err e => Err e
      | Panic p => Panic p
      end
  end.

(** Rows of [n] integers until the buffer is empty. *)
Fixpoint DecodeRows (fuel n : nat) (buf : list byte)
  : option (outcome (list (list Z))) :=
  match buf with
  | [] => Some (Ok [])
  | _ :: _ =>
      match fuel with
      | O => None
      | S fuel' =>
          match DecodeInts n buf with
          | Ok (row, buf') =>
              match DecodeRows fuel' n buf' with
              | Some (Ok rows) => Some (Ok (row :: rows))
              | other => other
              end
          | Err e => Some (Err e)
          | Panic p => Some (Panic p)
          end
      end
  end.

(** The integers of a list, encoded one after the other. *)
Definition EncodeInts (js : list Z) : list byte :=
  concat (map (EncodeInt []) js).

(** Delta rows: each row minus the one before it, [last] before the first. *)
Fixpoint delta_rows (last : list Z) (rows : list (list Z)) : list (list Z) :=
  match rows with
  | [] => []
  | row :: rest => zip_with int_sub row last :: delta_rows row rest
  end.

(** The accumulation of [DecodeFlatCoords]: running [int] sums. *)
Fixpoint int_sums (last : list Z) (rows : list (list Z)) : list (list Z) :=
  match rows with
  | [] => []
  | row :: rest =>
      let cur := zip_with int_add last row in
      cur :: int_sums cur rest
  end.

Section Accumulations.

Context {F : Type} `{Float64Ops F}.

(** [float64(j) / c.Scale]. *)
Definition unscale (c : Codec F) (j : Z) : F := f_div (f_of_int j) (Scale c).

(** [round(c.Scale * x)] for each component. *)
Definition scaled (c : Codec F) (coord : list F) : list Z :=
  map (fun x => round (f_mul (Scale c) x)) coord.

(** The accumulation of [DecodeCoords]: running sums of unscaled deltas. *)
Fixpoint float_sums (c : Codec F) (prev : list F) (rows : list (list Z))
  : list (list F) :=
  match rows with
  | [] => []
  | row :: rest =>
      let cur := zip_with f_add (map (unscale c) row) prev in
      cur :: float_sums c cur rest
  end.

End Accumulations.

(** ** Components within the codec's precision *)

(** The largest magnitude of a scaled component for which the difference of
    any two scaled components is an [int] other than the smallest. *)
Definition max_scaled : Z := 2 ^ 62 - 1.

(** A delta the signed codec carries faithfully: any [int] but the smallest,
    which [DecodeInt] reads back as 0. *)
Definition valid_delta (d : Z) : Prop := is_int d /\ d <> min_int.

(** A scaled component small enough for every delta to be carried. *)
Definition small (e : Z) : Prop := - max_scaled <= e <= max_scaled.

(** A buffer on which the two accumulations differ in binary64: the deltas
    [(1, 0)] and [(2, 0)]. *)
Definition small_steps : list byte := list_byte_of_string "A?C?".

(** A buffer on which the [int] accumulator of [DecodeFlatCoords] wraps
    around: the deltas [(max_int, 0)] and [(1, 0)]. *)
Definition wrap_steps : list byte := EncodeInts [max_int; 0; 1; 0].

(** ** The package-level functions *)

(** [DecodeCoord], [DecodeCoords], [EncodeCoord] and [EncodeCoords] of the
    package are the methods of [defaultCodec]; the encoders start from a
    [nil] buffer. *)
Module Package.

Definition DecodeCoord (buf : list byte)
  : outcome (list float * list byte) :=
  DecodeCoord defaultCodec buf.

Definition DecodeCoords (buf : list byte)
  : option (outcome (list (list float) * list byte)) :=
  DecodeCoords defaultCodec buf.

Definition EncodeCoord (coord : list float) : list byte :=
  EncodeCoord defaultCodec [] coord.

Definition EncodeCoords (coords : list (list float))
  : outcome (list byte) :=
  EncodeCoords defaultCodec [] coords.

End Package.

(** ** Test data on binary64 *)

(** A relation that holds between two lists place by place. *)
Fixpoint all2 {A B} (p : A -> B -> bool) (l : list A) (k : list B) : bool :=
  match l, k with
  | [], [] => true
  | x :: l', y :: k' => p x y && all2 p l' k'
  | _, _ => false
  end.

(** The rounding bound of the specification for the default codec,
    [1 / (2 * Scale)]. *)
Definition default_bound : Q := 1 / (2 * 100000).

(** One coordinate whose first component is next to a tie of the fifth
    decimal. *)
Definition near_tie : list (list float) := [[38.500005; 0]]%float.

(** 400 coordinates [((10^14 + k) / 1e5, 0)], [k = 0 .. 399]: every first
    component is the binary64 value nearest to a number of five decimals. *)
Definition far_points : list (list float) :=
  map (fun k => [PrimFloat.div (Binary64.of_int (100000000000000 + Z.of_nat k))
                               1e5%float; 0%float])
      (seq 0 400).

(** What the encoder sees of [far_points]: the integers [10^14 + k]. *)
Definition far_scaled : list (list Z) :=
  map (fun k => [100000000000000 + Z.of_nat k; 0]) (seq 0 400).

(** The bytes [EncodeCoords] writes for [far_points], and what the two
    decoders return for them. *)
Definition far_bytes : list byte :=
  match EncodeCoords defaultCodec [] far_points with
  | Ok bytes => bytes
  | _ => []
  end.

Definition values_of {A} (r : option (outcome (list A * list byte)))
  : list A :=
  match r with
  | Some (Ok (values, _)) => values
  | _ => []
  end.

Definition far_decoded : list (list float) :=
  values_of (DecodeCoords defaultCodec far_bytes).

Definition far_flat : list float :=
  values_of (DecodeFlatCoords defaultCodec [] far_bytes).

(** ** Bytes of a buffer *)

(** A byte of neither range of the [switch] in [DecodeUint]. *)
Definition invalid_byte (b : byte) : Prop :=
  is_continuation b = false /\ is_terminal b = false.

(** The number of bytes of a buffer that end a value. *)
Fixpoint terminals (buf : list byte) : nat :=
  match buf with
  | [] => 0
  | b :: rest => (if is_terminal b then 1 else 0) + terminals rest
  end.

(** The last byte of a buffer ends a value. *)
Definition ends_terminal (buf : list byte) : Prop :=
  exists pre t, buf = pre ++ [t] /\ is_terminal t = true.

(** A buffer the decoders of a codec of dimension [dim] cannot go through to
    its end, although every byte is valid: the values are not a multiple of
    [dim], or the last byte does not end a value. *)
Definition cut_short (dim : Z) (buf : list byte) : Prop :=
  Z.rem (Z.of_nat (terminals buf)) dim <> 0
  \/ exists pre b, buf = pre ++ [b] /\ is_terminal b = false.

(** * Properties *)

(** ** Machine arithmetic *)

Section MachineFacts.

Lemma uint_modulus_eq : uint_modulus = 18446744073709551616.
Proof. reflexivity. Qed.

Lemma min_int_eq : min_int = -9223372036854775808.
Proof. reflexivity. Qed.

Lemma max_int_eq : max_int = 9223372036854775807.
Proof. reflexivity. Qed.

Lemma to_uint_range z : is_uint (to_uint z).
Proof.
  unfold is_uint, to_uint. rewrite uint_modulus_eq.
  apply Z.mod_pos_bound. lia.
Qed.

Lemma to_uint_small z : is_uint z -> to_uint z = z.
Proof. unfold is_uint, to_uint. intros Hz. apply Z.mod_small. exact Hz. Qed.

Lemma to_uint_add_l a b : to_uint (to_uint a + b) = to_uint (a + b).
Proof. unfold to_uint. apply Zplus_mod_idemp_l. Qed.

Lemma to_int_range z : is_int (to_int z).
Proof.
  unfold is_int, to_int.
  pose proof (Z.mod_pos_bound (z - min_int) uint_modulus) as Hb.
  rewrite uint_modulus_eq, min_int_eq, max_int_eq in *. lia.
Qed.

Lemma to_int_small z : is_int z -> to_int z = z.
Proof.
  unfold is_int, to_int. rewrite min_int_eq, max_int_eq, uint_modulus_eq.
  intros Hz. rewrite Z.mod_small; lia.
Qed.

(** Two integers that agree modulo [2^64] have the same [int] value. *)
Lemma to_int_congr a b k : a = b + k * uint_modulus -> to_int a = to_int b.
Proof.
  intros ->. unfold to_int.
  replace (b + k * uint_modulus - min_int)
    with (b - min_int + k * uint_modulus) by lia.
  rewrite Z.mod_add; [reflexivity | rewrite uint_modulus_eq; lia].
Qed.

Lemma to_int_eq_mod z : exists k, to_int z = z + k * uint_modulus.
Proof.
  unfold to_int. exists (- ((z - min_int) / uint_modulus)).
  pose proof (Z.div_mod (z - min_int) uint_modulus) as Hd.
  rewrite uint_modulus_eq in *. lia.
Qed.

Lemma byte_val_range b : 0 <= byte_val b < 256.
Proof.
  unfold byte_val. pose proof (Byte.to_N_bounded b). lia.
Qed.

Lemma byte_val_byte_of z : 0 <= z < 256 -> byte_val (byte_of z) = z.
Proof.
  intros Hz. unfold byte_val, byte_of. rewrite Z.mod_small by lia.
  destruct (Byte.of_N (Z.to_N z)) as [b|] eqn:Hb.
  - apply Byte.to_of_N in Hb. rewrite Hb. lia.
  - apply Byte.of_N_None_iff in Hb. lia.
Qed.

Lemma uint_shl_exact x s :
  0 <= x -> 0 <= s -> x * 2 ^ s < uint_modulus -> uint_shl x s = x * 2 ^ s.
Proof.
  intros Hx Hs Hlt. unfold uint_shl, uint_bits.
  destruct (s <? 64) eqn:Hs64.
  - rewrite Z.shiftl_mul_pow2 by lia. apply to_uint_small.
    split; [apply Z.mul_nonneg_nonneg; [lia | apply Z.pow_nonneg; lia] | lia].
  - apply Z.ltb_ge in Hs64.
    assert (2 ^ 64 <= 2 ^ s) by (apply Z.pow_le_mono_r; lia).
    rewrite uint_modulus_eq in Hlt.
    change (2 ^ 64) with 18446744073709551616 in *.
    assert (x = 0) as -> by nia. lia.
Qed.

Lemma uint_shl_range x s : is_uint (uint_shl x s).
Proof.
  unfold uint_shl. destruct (s <? uint_bits).
  - apply to_uint_range.
  - unfold is_uint. rewrite uint_modulus_eq. lia.
Qed.

End MachineFacts.

(** ** Scalar integer codec *)

Section Scalar.

Lemma byte_classes b :
  let v := byte_val b in
  ((63 <=? v) && (v <? 95) = is_terminal b)
  /\ ((95 <=? v) && (v <? 127) = is_continuation b)
  /\ (is_terminal b = true -> is_continuation b = false).
Proof.
  unfold is_terminal, is_continuation. cbv zeta. repeat split.
  intros Ht. apply andb_true_iff in Ht as [_ Hlt%Z.ltb_lt].
  apply andb_false_iff. left. apply Z.leb_gt. lia.
Qed.

(** The loop of [DecodeUint], started in any state, against the run it
    finds at the front of the buffer. *)
Lemma DecodeUint_loop_spec buf : forall (k : nat) (u : Z),
  DecodeUint_loop (to_uint u) (to_uint (5 * Z.of_nat k)) buf =
  match split_run buf with
  | (_, []) => Err errUnterminatedSequence
  | (cs, t :: rest) =>
      if is_terminal t then Ok (to_uint (u + run_value k cs t), rest)
      else Err errInvalidByte
  end.
Proof.
  induction buf as [|b rest IH]; intros k u; [reflexivity|].
  cbn [DecodeUint_loop split_run]. cbv zeta.
  destruct (byte_classes b) as (Ht & Hc & Hexcl). cbv zeta in Ht, Hc.
  rewrite Ht, Hc. pose proof (byte_val_range b) as Hb.
  destruct (is_terminal b) eqn:Et.
  - rewrite (Hexcl eq_refl), Et. cbn [run_value].
    unfold uint_add. rewrite to_uint_add_l.
    unfold uint_sub. rewrite (to_uint_small (byte_val b - 63)); [reflexivity|].
    unfold is_terminal in Et. apply andb_true_iff in Et as [H1%Z.leb_le _].
    unfold is_uint. rewrite uint_modulus_eq. lia.
  - destruct (is_continuation b) eqn:Ec.
    + unfold uint_add at 1 2. rewrite !to_uint_add_l.
      replace (5 * Z.of_nat k + 5) with (5 * Z.of_nat (S k)) by lia.
      rewrite IH. destruct (split_run rest) as [cs [|t tl]]; [reflexivity|].
      cbn [run_value]. unfold uint_sub.
      rewrite (to_uint_small (byte_val b - 95)).
      * rewrite Z.add_assoc. reflexivity.
      * unfold is_continuation in Ec.
        apply andb_true_iff in Ec as [H1%Z.leb_le _].
        unfold is_uint. rewrite uint_modulus_eq. lia.
    + rewrite Et. reflexivity.
Qed.

Lemma DecodeUint_eq_spec buf : DecodeUint buf = DecodeUint_spec buf.
Proof.
  pose proof (DecodeUint_loop_spec buf 0 0) as H.
  change (to_uint (5 * Z.of_nat 0)) with 0 in H.
  change (to_uint 0) with 0 in H. exact H.
Qed.

Lemma DecodeUint_is_uint buf u rest :
  DecodeUint buf = Ok (u, rest) -> is_uint u.
Proof.
  rewrite DecodeUint_eq_spec. unfold DecodeUint_spec.
  destruct (split_run buf) as [cs [|t tl]]; [discriminate|].
  destruct (is_terminal t); [|discriminate].
  intros [= <- _]. apply to_uint_range.
Qed.

(** *** The encoder's loop *)

Lemma EncodeUint_loop_app n : forall buf u,
  EncodeUint_loop n buf u =
  (buf ++ fst (EncodeUint_loop n [] u), snd (EncodeUint_loop n [] u)).
Proof.
  induction n as [|n IH]; intros buf u; cbn [EncodeUint_loop].
  - rewrite app_nil_r. reflexivity.
  - destruct (32 <=? u).
    + rewrite (IH (buf ++ _)), (IH ([] ++ _)). cbn [fst snd].
      rewrite app_nil_l, app_assoc. reflexivity.
    + rewrite app_nil_r. reflexivity.
Qed.

Lemma EncodeUint_app buf u : EncodeUint buf u = buf ++ EncodeUint [] u.
Proof.
  unfold EncodeUint. rewrite (EncodeUint_loop_app _ buf).
  destruct (EncodeUint_loop _ [] u) as [b' u']. cbn [fst snd].
  rewrite app_assoc. reflexivity.
Qed.

Lemma fuel_enough u :
  0 <= u -> u < 2 ^ (Z.of_nat (Z.to_nat (Z.log2 u)) + 5).
Proof.
  intros Hu. pose proof (Z.log2_nonneg u) as Hl. rewrite Z2Nat.id by exact Hl.
  destruct (Z.eq_dec u 0) as [-> | Hne]; [reflexivity|].
  destruct (Z.log2_spec u) as [_ Hlt]; [lia|].
  eapply Z.lt_le_trans; [exact Hlt|]. apply Z.pow_le_mono_r; lia.
Qed.

Lemma shiftr5_bound u n :
  0 <= u < 2 ^ (Z.of_nat (S n) + 5) -> 0 <= Z.shiftr u 5 < 2 ^ (Z.of_nat n + 5).
Proof.
  intros [H0 Hlt]. rewrite Z.shiftr_div_pow2 by lia.
  replace (Z.of_nat (S n) + 5) with (Z.of_nat n + 1 + 5) in Hlt by lia.
  rewrite Z.pow_add_r in Hlt by lia.
  assert (2 ^ (Z.of_nat n + 1) <= 2 ^ (Z.of_nat n + 5))
    by (apply Z.pow_le_mono_r; lia).
  split; [apply Z.div_pos; lia|].
  eapply Z.lt_le_trans; [|eassumption].
  apply Z.div_lt_upper_bound; lia.
Qed.

(** With the fuel [EncodeUint] passes, the loop stops because its guard
    [u >= 32] is false. *)
Lemma EncodeUint_loop_exit n : forall buf u,
  0 <= u < 2 ^ (Z.of_nat n + 5) ->
  0 <= snd (EncodeUint_loop n buf u) < 32.
Proof.
  induction n as [|n IH]; intros buf u Hu; cbn [EncodeUint_loop].
  - cbn [snd]. change (2 ^ (Z.of_nat 0 + 5)) with 32 in Hu. exact Hu.
  - destruct (32 <=? u) eqn:E.
    + apply IH. apply shiftr5_bound. exact Hu.
    + apply Z.leb_gt in E. cbn [snd]. lia.
Qed.

Lemma EncodeUint_exit buf u :
  0 <= u -> 0 <= snd (EncodeUint_loop (Z.to_nat (Z.log2 u)) buf u) < 32.
Proof.
  intros Hu. apply EncodeUint_loop_exit. split; [lia | apply fuel_enough; lia].
Qed.

(** Decoding what the encoder's loop and final append wrote, from the
    decoder state [(acc, shift)]. *)
Lemma DecodeUint_loop_EncodeUint_loop n : forall u acc shift rest,
  0 <= u < 2 ^ (Z.of_nat n + 5) -> 0 <= acc -> 0 <= shift ->
  acc + u * 2 ^ shift < uint_modulus ->
  DecodeUint_loop acc shift
    (fst (EncodeUint_loop n [] u)
     ++ byte_of (snd (EncodeUint_loop n [] u) + 63) :: rest)
  = Ok (acc + u * 2 ^ shift, rest).
Proof.
  assert (Hterm : forall u acc shift rest,
    0 <= u < 32 -> 0 <= acc -> 0 <= shift ->
    acc + u * 2 ^ shift < uint_modulus ->
    DecodeUint_loop acc shift (byte_of (u + 63) :: rest)
    = Ok (acc + u * 2 ^ shift, rest)).
  { intros u acc shift rest Hu Hacc Hs Hlt. cbn [DecodeUint_loop]. cbv zeta.
    rewrite byte_val_byte_of by lia.
    replace ((63 <=? u + 63) && (u + 63 <? 95)) with true
      by (symmetry; apply andb_true_iff; split;
          [apply Z.leb_le | apply Z.ltb_lt]; lia).
    unfold uint_sub. rewrite (to_uint_small (u + 63 - 63))
      by (unfold is_uint; rewrite uint_modulus_eq; lia).
    replace (u + 63 - 63) with u by lia.
    assert (0 <= u * 2 ^ shift)
      by (apply Z.mul_nonneg_nonneg; [lia | apply Z.pow_nonneg; lia]).
    rewrite uint_shl_exact by lia.
    unfold uint_add. rewrite to_uint_small; [reflexivity|].
    unfold is_uint. lia. }
  induction n as [|n IH]; intros u acc shift rest Hu Hacc Hs Hlt.
  - cbn [EncodeUint_loop fst snd]. rewrite app_nil_l.
    apply Hterm; assumption.
  - cbn [EncodeUint_loop]. destruct (32 <=? u) eqn:E.
    + apply Z.leb_le in E. rewrite EncodeUint_loop_app. cbn [fst snd].
      rewrite app_nil_l. cbn [app DecodeUint_loop]. cbv zeta.
      assert (Hm : 0 <= Z.land u 31 < 32).
      { change 31 with (Z.ones 5). rewrite Z.land_ones by lia.
        apply Z.mod_pos_bound. reflexivity. }
      rewrite byte_val_byte_of by lia.
      replace ((63 <=? Z.land u 31 + 95) && (Z.land u 31 + 95 <? 95))
        with false
        by (symmetry; apply andb_false_iff; right; apply Z.ltb_ge; lia).
      replace ((95 <=? Z.land u 31 + 95) && (Z.land u 31 + 95 <? 127))
        with true
        by (symmetry; apply andb_true_iff; split;
            [apply Z.leb_le | apply Z.ltb_lt]; lia).
      unfold uint_sub. rewrite (to_uint_small (Z.land u 31 + 95 - 95))
        by (unfold is_uint; rewrite uint_modulus_eq; lia).
      replace (Z.land u 31 + 95 - 95) with (Z.land u 31) by lia.
      assert (Hp : 0 < 2 ^ shift) by (apply Z.pow_pos_nonneg; lia).
      assert (Hdm : u = 32 * Z.shiftr u 5 + Z.land u 31).
      { change 31 with (Z.ones 5). rewrite Z.land_ones by lia.
        rewrite Z.shiftr_div_pow2 by lia. apply (Z.div_mod u 32). lia. }
      assert (Hq : 1 <= Z.shiftr u 5)
        by (rewrite Z.shiftr_div_pow2 by lia;
            apply Z.div_le_lower_bound; lia).
      assert (Hs59 : shift < 59).
      { destruct (Z.lt_ge_cases shift 59) as [|Hge]; [assumption|exfalso].
        assert (2 ^ 59 <= 2 ^ shift) by (apply Z.pow_le_mono_r; lia).
        rewrite uint_modulus_eq in Hlt.
        change (2 ^ 59) with 576460752303423488 in *. nia. }
      assert (Hlow : Z.land u 31 * 2 ^ shift <= u * 2 ^ shift) by nia.
      rewrite uint_shl_exact by nia.
      unfold uint_add.
      rewrite (to_uint_small (acc + _))
        by (unfold is_uint; nia).
      rewrite (to_uint_small (shift + 5))
        by (unfold is_uint; rewrite uint_modulus_eq; lia).
      rewrite IH.
      * f_equal. f_equal. rewrite Z.pow_add_r by lia.
        change (2 ^ 5) with 32. nia.
      * apply shiftr5_bound. exact Hu.
      * nia.
      * lia.
      * rewrite Z.pow_add_r by lia. change (2 ^ 5) with 32. nia.
    + apply Z.leb_gt in E. cbn [fst snd]. rewrite app_nil_l.
      apply Hterm; try assumption. lia.
Qed.

(** Scalar round trip, unsigned: every [uint] is recovered, and the bytes
    after its encoding are handed back untouched. *)
Lemma DecodeUint_EncodeUint u rest :
  is_uint u -> DecodeUint (EncodeUint [] u ++ rest) = Ok (u, rest).
Proof.
  intros [H0 Hlt]. unfold DecodeUint, EncodeUint.
  pose proof (DecodeUint_loop_EncodeUint_loop
                (Z.to_nat (Z.log2 u)) u 0 0 rest) as H.
  destruct (EncodeUint_loop (Z.to_nat (Z.log2 u)) [] u) as [b' u'] eqn:E.
  cbn [fst snd] in H. rewrite <- app_assoc. cbn [app]. rewrite H.
  - f_equal. f_equal. change (2 ^ 0) with 1. lia.
  - split; [lia | apply fuel_enough; lia].
  - lia.
  - lia.
  - change (2 ^ 0) with 1. lia.
Qed.

(** *** Zigzag *)

Lemma to_uint_congr a b k : a = b + k * uint_modulus -> to_uint a = to_uint b.
Proof.
  intros ->. unfold to_uint. apply Z.mod_add. rewrite uint_modulus_eq. lia.
Qed.

Lemma zigzag_spec_arith v :
  zigzag_spec v = if v <? 0 then - v * 2 - 1 else v * 2.
Proof. unfold zigzag_spec, Z.lnot. destruct (v <? 0); lia. Qed.

Lemma zigzag_eq v : is_int v -> zigzag v = zigzag_spec v.
Proof.
  intros Hv. rewrite zigzag_spec_arith. unfold zigzag, int_shl, uint_bits.
  change (1 <? 64) with true. cbv iota.
  rewrite Z.shiftl_mul_pow2 by lia. change (2 ^ 1) with 2.
  destruct (to_int_eq_mod (v * 2)) as [k Hk]. rewrite Hk.
  unfold is_int in Hv. rewrite min_int_eq, max_int_eq in Hv.
  destruct (v <? 0) eqn:E.
  - apply Z.ltb_lt in E. unfold Z.lnot.
    rewrite (to_uint_congr _ (- v * 2 - 1) (- k)) by lia.
    apply to_uint_small. unfold is_uint. rewrite uint_modulus_eq. lia.
  - apply Z.ltb_ge in E. rewrite (to_uint_congr _ (v * 2) k) by lia.
    apply to_uint_small. unfold is_uint. rewrite uint_modulus_eq. lia.
Qed.

Lemma zigzag_is_uint v : is_int v -> is_uint (zigzag v).
Proof.
  intros Hv. unfold zigzag. destruct (v <? 0); apply to_uint_range.
Qed.

Lemma land1_even u : (Z.land u 1 =? 0) = Z.even u.
Proof.
  change 1 with (Z.ones 1) at 1. rewrite Z.land_ones by lia.
  change (2 ^ 1) with 2. rewrite Zmod_even. destruct (Z.even u); reflexivity.
Qed.

(** What [DecodeInt] makes of a decoded [uint]. *)
Lemma DecodeInt_unzigzag buf :
  DecodeInt buf =
  match DecodeUint buf with
  | Ok (u, rest) => Ok (unzigzag_spec u, rest)
  | Err e => Err e
  | Panic p => Panic p
  end.
Proof.
  unfold DecodeInt. destruct (DecodeUint buf) as [[u rest]| |] eqn:E;
    try reflexivity.
  apply DecodeUint_is_uint in E. unfold is_uint in E.
  rewrite uint_modulus_eq in E.
  rewrite land1_even. unfold unzigzag_spec.
  assert (Hhalf : forall x, 0 <= x < 18446744073709551616 ->
                            is_int (Z.shiftr x 1)).
  { intros x Hx. rewrite Z.shiftr_div_pow2 by lia. change (2 ^ 1) with 2.
    unfold is_int. rewrite min_int_eq, max_int_eq.
    assert (x / 2 < 9223372036854775808)
      by (apply Z.div_lt_upper_bound; lia).
    assert (0 <= x / 2) by (apply Z.div_pos; lia). lia. }
  destruct (Z.even u).
  - rewrite to_int_small by (apply Hhalf; lia). reflexivity.
  - pose proof (to_uint_range (u + 1)) as Hr. unfold is_uint in Hr.
    rewrite uint_modulus_eq in Hr. unfold uint_add.
    pose proof (Hhalf _ Hr) as Hi.
    rewrite (to_int_small _ Hi). unfold int_neg.
    rewrite to_int_small; [reflexivity|].
    assert (0 <= Z.shiftr (to_uint (u + 1)) 1)
      by (apply Z.shiftr_nonneg; lia).
    unfold is_int in *. rewrite min_int_eq, max_int_eq in *. lia.
Qed.

Lemma unzigzag_zigzag v :
  is_int v -> v <> min_int -> unzigzag_spec (zigzag_spec v) = v.
Proof.
  intros Hv Hne. rewrite zigzag_spec_arith. unfold unzigzag_spec.
  unfold is_int in Hv. rewrite min_int_eq, max_int_eq in Hv.
  rewrite min_int_eq in Hne.
  destruct (v <? 0) eqn:E.
  - apply Z.ltb_lt in E.
    replace (- v * 2 - 1) with (1 + 2 * (- v - 1)) by lia.
    rewrite Z.even_add_mul_2. cbn [Z.even].
    unfold uint_add. rewrite to_uint_small
      by (unfold is_uint; rewrite uint_modulus_eq; lia).
    rewrite Z.shiftr_div_pow2 by lia. change (2 ^ 1) with 2.
    replace (1 + 2 * (- v - 1) + 1) with (- v * 2) by lia.
    rewrite Z.div_mul by lia. lia.
  - apply Z.ltb_ge in E.
    replace (v * 2) with (0 + 2 * v) by lia.
    rewrite Z.even_add_mul_2. cbn [Z.even].
    rewrite Z.shiftr_div_pow2 by lia. change (2 ^ 1) with 2.
    replace (0 + 2 * v) with (v * 2) by lia.
    apply Z.div_mul. lia.
Qed.

Lemma EncodeInt_app buf v : EncodeInt buf v = buf ++ EncodeInt [] v.
Proof. unfold EncodeInt. apply EncodeUint_app. Qed.

(** Scalar round trip, signed: every [int] but the smallest is recovered. *)
Lemma DecodeInt_EncodeInt v rest :
  is_int v -> v <> min_int ->
  DecodeInt (EncodeInt [] v ++ rest) = Ok (v, rest).
Proof.
  intros Hv Hne. rewrite DecodeInt_unzigzag. unfold EncodeInt.
  rewrite DecodeUint_EncodeUint by (apply zigzag_is_uint; exact Hv).
  rewrite zigzag_eq by exact Hv. rewrite unzigzag_zigzag by assumption.
  reflexivity.
Qed.

(** Every decoded integer is an [int]. *)
Lemma DecodeInt_is_int buf v rest :
  DecodeInt buf = Ok (v, rest) -> is_int v.
Proof.
  unfold DecodeInt. destruct (DecodeUint buf) as [[u r]| |]; try discriminate.
  destruct (Z.land u 1 =? 0); intros [= <- _];
    [apply to_int_range | unfold int_neg; apply to_int_range].
Qed.

(** The three cases of [DecodeUint], by the shape of the buffer. *)
Lemma split_run_continuation cs : forall tl,
  Forall (fun b => is_continuation b = true) cs ->
  match tl with [] => True | t :: _ => is_continuation t = false end ->
  split_run (cs ++ tl) = (cs, tl).
Proof.
  induction cs as [|b cs IH]; intros tl Hcs Htl; cbn [app split_run].
  - destruct tl as [|t tl]; [reflexivity|]. cbn [split_run].
    rewrite Htl. reflexivity.
  - apply Forall_cons_1 in Hcs as [Hb Hcs]. rewrite Hb, IH by assumption.
    reflexivity.
Qed.

Lemma DecodeUint_unterminated cs :
  Forall (fun b => is_continuation b = true) cs ->
  DecodeUint cs = Err errUnterminatedSequence.
Proof.
  intros Hcs. rewrite DecodeUint_eq_spec. unfold DecodeUint_spec.
  rewrite <- (app_nil_r cs), split_run_continuation by (exact Hcs || exact I).
  reflexivity.
Qed.

Lemma DecodeUint_invalid cs b rest :
  Forall (fun b => is_continuation b = true) cs ->
  is_continuation b = false -> is_terminal b = false ->
  DecodeUint (cs ++ b :: rest) = Err errInvalidByte.
Proof.
  intros Hcs Hc Ht. rewrite DecodeUint_eq_spec. unfold DecodeUint_spec.
  rewrite split_run_continuation by assumption. rewrite Ht. reflexivity.
Qed.

Lemma DecodeUint_terminated cs t rest :
  Forall (fun b => is_continuation b = true) cs ->
  is_terminal t = true ->
  DecodeUint (cs ++ t :: rest) = Ok (to_uint (run_value 0 cs t), rest).
Proof.
  intros Hcs Ht. rewrite DecodeUint_eq_spec. unfold DecodeUint_spec.
  rewrite split_run_continuation.
  - rewrite Ht. reflexivity.
  - exact Hcs.
  - apply (byte_classes t). exact Ht.
Qed.

(** C5. On every buffer [DecodeUint] does what the specification says: with
    the leading run of continuation bytes (in [95,127)) split off, it fails
    with [errUnterminatedSequence] when nothing follows the run, fails with
    [errInvalidByte] when the byte after the run lies outside [63,127),
    and otherwise returns the sum of [(byte - 95) << shift] over the run and
    [(byte - 63) << shift] for the terminal byte, [shift] growing by 5 per
    byte, together with the bytes after the terminal byte. *)
Theorem DecodeUint_meets_spec (buf : list byte) :
  DecodeUint buf = DecodeUint_spec buf.
Proof. apply DecodeUint_eq_spec. Qed.

(** The zigzag maps as the code computes them.  [EncodeInt] hands
    [EncodeUint] the zigzag value of its argument: [v * 2] for a non-negative
    [v], the bitwise complement of [v * 2], which is [- v * 2 - 1], for a
    negative one.  [DecodeInt] maps an even decoded [u] to [u >> 1] and an
    odd one to [- ((u + 1) >> 1)] with the sum taken in [uint], where it
    wraps, and passes a decode error on unchanged; this reverses the map of
    [EncodeInt] for every [v] but the smallest [int]
    ([DecodeInt_odd_branch_wraps]). *)
Theorem zigzag_codec (buf : list byte) (v : Z) (Hv : is_int v) :
  EncodeInt buf v = EncodeUint buf (zigzag_spec v)
  /\ zigzag_spec v = (if v <? 0 then Z.lnot (v * 2) else v * 2)
  /\ Z.lnot (v * 2) = - v * 2 - 1
  /\ DecodeInt buf =
     match DecodeUint buf with
     | Ok (u, rest) =>
         Ok (if Z.even u then Z.shiftr u 1
             else - Z.shiftr (uint_add u 1) 1, rest)
     | Err e => Err e
     | Panic p => Panic p
     end
  /\ (v <> min_int ->
      forall rest, DecodeInt (EncodeInt [] v ++ rest) = Ok (v, rest)).
Proof.
  repeat split.
  - unfold EncodeInt. rewrite zigzag_eq by exact Hv. reflexivity.
  - unfold Z.lnot. lia.
  - apply DecodeInt_unzigzag.
  - intros Hne rest. apply DecodeInt_EncodeInt; assumption.
Qed.

Lemma zigzag_codec_witness :
  is_int (-3)
  /\ EncodeInt [] (-3) = EncodeUint [] (zigzag_spec (-3))
  /\ zigzag_spec (-3) = 5
  /\ DecodeInt (EncodeInt [] (-3)) = Ok (-3, []).
Proof.
  assert (Hv : is_int (-3)).
  { unfold is_int. rewrite min_int_eq, max_int_eq. lia. }
  split; [exact Hv|].
  destruct (zigzag_codec [] (-3) Hv) as (He & Hz & _ & _ & Hrt).
  split; [exact He|]. split; [reflexivity|].
  rewrite <- (app_nil_r (EncodeInt [] (-3))). apply Hrt.
  rewrite min_int_eq. lia.
Defined.

(** C2, the smallest [int]: [EncodeInt] writes it as the largest [uint], and
    [DecodeInt] reads that back as 0, because [u + 1] wraps to 0. *)
Theorem DecodeInt_EncodeInt_min_int :
  is_int min_int
  /\ zigzag min_int = uint_modulus - 1
  /\ DecodeInt (EncodeInt [] min_int) = Ok (0, []).
Proof.
  split; [unfold is_int; rewrite min_int_eq, max_int_eq; lia|].
  split; vm_compute; reflexivity.
Qed.

End Scalar.

(** ** Progress of the decoders *)

Ltac unbind := unfold mbind, outcome_bind, obind in *.

(** Closed comparisons and equations, by evaluation. *)
Ltac by_compute :=
  vm_compute; first [reflexivity | discriminate | intro; discriminate].

Section Progress.

Context {F : Type} `{Float64Ops F}.

Lemma DecodeUint_loop_consumes buf : forall u shift v rest,
  DecodeUint_loop u shift buf = Ok (v, rest) ->
  (length rest < length buf)%nat.
Proof.
  induction buf as [|b tl IH]; intros u shift v rest; cbn [DecodeUint_loop].
  - discriminate.
  - cbv zeta. destruct ((63 <=? byte_val b) && (byte_val b <? 95)).
    + intros [= _ <-]. cbn [length]. lia.
    + destruct ((95 <=? byte_val b) && (byte_val b <? 127)); [|discriminate].
      intros Hd. apply IH in Hd. cbn [length]. lia.
Qed.

Lemma DecodeInt_consumes buf v rest :
  DecodeInt buf = Ok (v, rest) -> (length rest < length buf)%nat.
Proof.
  unfold DecodeInt, DecodeUint.
  destruct (DecodeUint_loop 0 0 buf) as [[u r]| |] eqn:E; try discriminate.
  apply DecodeUint_loop_consumes in E.
  destruct (Z.land u 1 =? 0); intros [= _ <-]; exact E.
Qed.

Lemma DecodeInt_nil : DecodeInt [] = Err errUnterminatedSequence.
Proof. reflexivity. Qed.

Lemma DecodeUint_loop_not_panic buf : forall u sh p,
  DecodeUint_loop u sh buf <> Panic p.
Proof.
  induction buf as [|b tl IH]; intros u sh p; cbn [DecodeUint_loop].
  - discriminate.
  - cbv zeta. destruct (_ && _); [discriminate|].
    destruct (_ && _); [apply IH | discriminate].
Qed.

Lemma DecodeInt_not_panic buf p : DecodeInt buf <> Panic p.
Proof.
  rewrite DecodeInt_unzigzag. unfold DecodeUint.
  destruct (DecodeUint_loop 0 0 buf) as [[u r]| |] eqn:E; try discriminate.
  exfalso. exact (DecodeUint_loop_not_panic _ _ _ _ E).
Qed.

(** A decoded coordinate has [n] components and took at least [n] bytes. *)
Lemma DecodeCoord_loop_consumes (c : Codec F) n : forall buf coord rest,
  DecodeCoord_loop c n buf = Ok (coord, rest) ->
  length coord = n /\ (length rest + n <= length buf)%nat.
Proof.
  induction n as [|n IH]; intros buf coord rest; cbn [DecodeCoord_loop].
  - intros [= <- <-]. cbn [length]. lia.
  - unbind. destruct (DecodeInt buf) as [[j b1]| |] eqn:Ej; try discriminate.
    destruct (DecodeCoord_loop c n b1) as [[co b2]| |] eqn:Ec;
      try discriminate.
    intros [= <- <-]. apply DecodeInt_consumes in Ej.
    apply IH in Ec as [Hl Hr]. cbn [length]. lia.
Qed.

Lemma DecodeCoord_loop_not_panic (c : Codec F) n : forall buf p,
  DecodeCoord_loop c n buf <> Panic p.
Proof.
  induction n as [|n IH]; intros buf p; cbn [DecodeCoord_loop].
  - discriminate.
  - unbind. destruct (DecodeInt buf) as [[j b1]| |] eqn:Ej.
    + destruct (DecodeCoord_loop c n b1) as [[co b2]| |] eqn:Ec;
        try discriminate.
      exfalso. exact (IH _ _ Ec).
    + discriminate.
    + exfalso. exact (DecodeInt_not_panic _ _ Ej).
Qed.

Lemma DecodeCoord_consumes (c : Codec F) buf coord rest :
  0 <= Dim c ->
  DecodeCoord c buf = Ok (coord, rest) ->
  len coord = Dim c /\ len rest + Dim c <= len buf.
Proof.
  intros Hd. unfold DecodeCoord, len.
  destruct (Dim c <? 0) eqn:E; [discriminate|].
  intros Hc. apply DecodeCoord_loop_consumes in Hc as [Hl Hr]. lia.
Qed.

Lemma add_previous_length prev : forall coord j out,
  add_previous prev j coord = Ok out -> length out = length coord.
Proof.
  induction coord as [|x xs IH]; intros j out; cbn [add_previous].
  - intros [= <-]. reflexivity.
  - destruct (prev !! j) as [p|]; [|discriminate]. unbind.
    destruct (add_previous prev (S j) xs) as [r| |] eqn:E; try discriminate.
    intros [= <-]. cbn [length]. f_equal. exact (IH _ _ E).
Qed.

Lemma add_previous_ok prev : forall coord j,
  (j + length coord <= length prev)%nat ->
  exists out, add_previous prev j coord = Ok out.
Proof.
  induction coord as [|x xs IH]; intros j Hl; cbn [add_previous].
  - eexists. reflexivity.
  - cbn [length] in Hl.
    destruct (lookup_lt_is_Some_2 prev j) as [p Hp]; [lia|]. rewrite Hp.
    destruct (IH (S j)) as [r Hr]; [lia|]. unbind. rewrite Hr.
    eexists. reflexivity.
Qed.

End Progress.

(** ** Termination of the decoding loops *)

Section Termination.

Context {F : Type} `{Float64Ops F}.
Variable c : Codec F.

Lemma DecodeCoords_loop_terminates fuel : forall buf i coords,
  1 <= Dim c -> (length buf <= fuel)%nat ->
  exists r, DecodeCoords_loop fuel c i coords buf = Some r.
Proof.
  induction fuel as [|fuel IH]; intros buf i coords Hd Hf.
  - destruct buf; [eexists; reflexivity | cbn [length] in Hf; lia].
  - destruct buf as [|b tl]; [eexists; reflexivity|].
    cbn [DecodeCoords_loop].
    destruct (DecodeCoord c (b :: tl)) as [[coord buf']| |] eqn:Ec;
      try (eexists; reflexivity).
    apply DecodeCoord_consumes in Ec as [_ Hr]; [|lia].
    unfold len in Hr. cbn [length] in Hr, Hf.
    assert (Hf' : (length buf' <= fuel)%nat) by lia.
    destruct (coords !! (i - 1)%nat) as [prev|].
    + destruct (add_previous prev 0 coord); try (eexists; reflexivity).
      apply IH; assumption.
    + destruct coord; [apply IH; assumption | eexists; reflexivity].
Qed.

(** More fuel does not change a result. *)
Lemma DecodeCoords_loop_mono fuel : forall fuel' buf i coords r,
  (fuel <= fuel')%nat ->
  DecodeCoords_loop fuel c i coords buf = Some r ->
  DecodeCoords_loop fuel' c i coords buf = Some r.
Proof.
  induction fuel as [|fuel IH]; intros fuel' buf i coords r Hle.
  - destruct buf; [|discriminate]. destruct fuel'; exact id.
  - destruct fuel' as [|fuel']; [lia|].
    destruct buf as [|b tl]; [exact id|]. cbn [DecodeCoords_loop].
    destruct (DecodeCoord c (b :: tl)) as [[coord buf']| |]; try exact id.
    destruct (coords !! (i - 1)%nat) as [prev|].
    + destruct (add_previous prev 0 coord); try exact id.
      apply IH. lia.
    + destruct coord; [apply IH; lia | exact id].
Qed.

Lemma DecodeCoords_fuel_terminates buf :
  1 <= Dim c ->
  exists r, DecodeCoords c buf = Some r
            /\ forall fuel, (length buf <= fuel)%nat ->
                            DecodeCoords_fuel fuel c buf = Some r.
Proof.
  intros Hd. unfold DecodeCoords, DecodeCoords_fuel.
  destruct (DecodeCoord c buf) as [[coord buf']| |] eqn:Ec;
    try (eexists; split; [reflexivity | intros; reflexivity]).
  apply DecodeCoord_consumes in Ec as [_ Hr]; [|lia]. unfold len in Hr.
  destruct (DecodeCoords_loop_terminates (length buf) buf' 1 [coord] Hd)
    as [r Hr']; [lia|].
  exists r. split; [exact Hr'|]. intros fuel Hf.
  destruct (DecodeCoords_loop_terminates (length buf') buf' 1 [coord] Hd)
    as [r0 Hr0]; [lia|].
  assert (Hle : (length buf' <= length buf)%nat) by lia.
  rewrite (DecodeCoords_loop_mono _ _ _ _ _ _ Hle Hr0) in Hr'.
  injection Hr' as <-.
  apply (DecodeCoords_loop_mono (length buf')); [lia | exact Hr0].
Qed.

(** With [Dim = 0] a coordinate takes no byte, and the loop over a
    non-empty buffer never reaches its end. *)
Lemma DecodeCoords_loop_diverges fuel : forall b buf i coords,
  Dim c = 0 -> DecodeCoords_loop fuel c i coords (b :: buf) = None.
Proof.
  induction fuel as [|fuel IH]; intros b buf i coords Hd; [reflexivity|].
  cbn [DecodeCoords_loop]. unfold DecodeCoord. rewrite Hd.
  cbn [Z.ltb Z.compare Z.to_nat DecodeCoord_loop].
  destruct (coords !! (i - 1)%nat); cbn [add_previous]; apply IH; exact Hd.
Qed.

Lemma DecodeFlat_inner_consumes n : forall j last fcs buf last' fcs' buf',
  DecodeFlat_inner c n j last fcs buf = Ok (last', fcs', buf') ->
  (length buf' + n <= length buf)%nat.
Proof.
  induction n as [|n IH]; intros j last fcs buf last' fcs' buf';
    cbn [DecodeFlat_inner].
  - intros [= _ _ <-]. lia.
  - unbind. destruct (DecodeInt buf) as [[k b1]| |] eqn:Ek; try discriminate.
    destruct (last !! j) as [l|]; [|discriminate].
    intros Hi. apply IH in Hi. apply DecodeInt_consumes in Ek. lia.
Qed.

Lemma DecodeFlat_loop_terminates fuel : forall buf last fcs,
  1 <= Dim c -> (length buf <= fuel)%nat ->
  exists r, DecodeFlat_loop fuel c last fcs buf = Some r.
Proof.
  induction fuel as [|fuel IH]; intros buf last fcs Hd Hf.
  - destruct buf; [eexists; reflexivity | cbn [length] in Hf; lia].
  - destruct buf as [|b tl]; [eexists; reflexivity|].
    cbn [DecodeFlat_loop].
    destruct (DecodeFlat_inner c (Z.to_nat (Dim c)) 0 last fcs (b :: tl))
      as [[[last' fcs'] buf']| |] eqn:Ei; try (eexists; reflexivity).
    apply DecodeFlat_inner_consumes in Ei. cbn [length] in Ei, Hf.
    apply IH; [assumption | lia].
Qed.

Lemma DecodeFlat_loop_mono fuel : forall fuel' buf last fcs r,
  (fuel <= fuel')%nat ->
  DecodeFlat_loop fuel c last fcs buf = Some r ->
  DecodeFlat_loop fuel' c last fcs buf = Some r.
Proof.
  induction fuel as [|fuel IH]; intros fuel' buf last fcs r Hle.
  - destruct buf; [|discriminate]. destruct fuel'; exact id.
  - destruct fuel' as [|fuel']; [lia|].
    destruct buf as [|b tl]; [exact id|]. cbn [DecodeFlat_loop].
    destruct (DecodeFlat_inner c (Z.to_nat (Dim c)) 0 last fcs (b :: tl))
      as [[[last' fcs'] buf']| |]; try exact id.
    apply IH. lia.
Qed.

Lemma DecodeFlatCoords_fuel_terminates fcs buf :
  1 <= Dim c ->
  exists r, DecodeFlatCoords c fcs buf = Some r
            /\ forall fuel, (length buf <= fuel)%nat ->
                            DecodeFlatCoords_fuel fuel c fcs buf = Some r.
Proof.
  intros Hd. unfold DecodeFlatCoords, DecodeFlatCoords_fuel.
  destruct (Dim c =? 0); [eexists; split; [reflexivity|intros; reflexivity]|].
  destruct (negb _); [eexists; split; [reflexivity|intros; reflexivity]|].
  destruct (make 0 (Dim c)) as [last| |];
    try (eexists; split; [reflexivity|intros; reflexivity]).
  destruct (DecodeFlat_loop_terminates (length buf) buf last fcs Hd)
    as [r Hr]; [lia|].
  exists r. split; [exact Hr|]. intros fuel Hf.
  apply (DecodeFlat_loop_mono (length buf)); assumption.
Qed.

End Termination.

(** C9. With [Dim >= 1], a coordinate that [DecodeCoord] decodes, and a
    group that the inner loop of [DecodeFlatCoords] decodes, take at least
    [Dim] bytes off the buffer, and [DecodeCoords] and
    [DecodeFlatCoords] both return: [length buf] iterations of their loops
    reach the end, and no larger bound changes the result.  The bound on [Dim]
    is needed: with [Dim = 0] the loop of [DecodeCoords] over a non-empty
    buffer has not ended after any number of iterations. *)
Theorem decoders_terminate {F : Type} `{Float64Ops F}
        (c : Codec F) (buf : list byte) (Hdim : 1 <= Dim c) :
  (forall coord rest,
      DecodeCoord c buf = Ok (coord, rest) ->
      len rest + Dim c <= len buf)
  /\ (forall last fcs last' fcs' rest,
      DecodeFlat_inner c (Z.to_nat (Dim c)) 0 last fcs buf
      = Ok (last', fcs', rest) ->
      len rest + Dim c <= len buf)
  /\ (exists r, DecodeCoords c buf = Some r
                /\ forall fuel, (length buf <= fuel)%nat ->
                                DecodeCoords_fuel fuel c buf = Some r)
  /\ (forall fcs,
      exists r, DecodeFlatCoords c fcs buf = Some r
                /\ forall fuel, (length buf <= fuel)%nat ->
                                DecodeFlatCoords_fuel fuel c fcs buf = Some r)
  /\ (forall (c0 : Codec F) b tl fuel,
      Dim c0 = 0 -> DecodeCoords_fuel fuel c0 (b :: tl) = None).
Proof.
  split; [|split; [|split; [|split]]].
  - intros coord rest Hc. apply DecodeCoord_consumes in Hc; lia.
  - intros last fcs last' fcs' rest Hi.
    apply DecodeFlat_inner_consumes in Hi. unfold len. lia.
  - apply DecodeCoords_fuel_terminates. exact Hdim.
  - intros fcs. apply DecodeFlatCoords_fuel_terminates. exact Hdim.
  - intros c0 b tl fuel Hd. unfold DecodeCoords_fuel, DecodeCoord.
    rewrite Hd. cbn [Z.ltb Z.compare Z.to_nat DecodeCoord_loop].
    apply DecodeCoords_loop_diverges. exact Hd.
Qed.

(** ** Empty input and dimensional mismatch *)

Section Guards.

Context {F : Type} `{Float64Ops F}.

Lemma make_ok {A} (z : A) n :
  0 <= n -> make z n = Ok (replicate (Z.to_nat n) z).
Proof.
  intros Hn. unfold make. destruct (n <? 0) eqn:E; [|reflexivity].
  apply Z.ltb_lt in E. lia.
Qed.

Lemma DecodeCoord_nil (c : Codec F) :
  1 <= Dim c -> DecodeCoord c [] = Err errUnterminatedSequence.
Proof.
  intros Hd. unfold DecodeCoord.
  destruct (Dim c <? 0) eqn:E; [apply Z.ltb_lt in E; lia|].
  destruct (Z.to_nat (Dim c)) as [|n] eqn:En; [lia|]. reflexivity.
Qed.

End Guards.

(** C7. On an empty buffer [DecodeCoords] returns an error (the first
    coordinate cannot be decoded: [errUnterminatedSequence]), while
    [DecodeFlatCoords], given a destination whose length is a multiple of
    [Dim], returns that destination unchanged and no error. *)
Theorem empty_buffer_asymmetry {F : Type} `{Float64Ops F}
        (c : Codec F) (Hdim : 1 <= Dim c) :
  DecodeCoords c [] = Some (Err errUnterminatedSequence)
  /\ forall fcs, Z.rem (len fcs) (Dim c) = 0 ->
                 DecodeFlatCoords c fcs [] = Some (Ok (fcs, [])).
Proof.
  split.
  - unfold DecodeCoords, DecodeCoords_fuel. rewrite DecodeCoord_nil by exact Hdim.
    reflexivity.
  - intros fcs Hrem. unfold DecodeFlatCoords, DecodeFlatCoords_fuel.
    destruct (Dim c =? 0) eqn:E0; [apply Z.eqb_eq in E0; lia|].
    rewrite Hrem. cbn [Z.eqb negb]. rewrite make_ok by lia. reflexivity.
Qed.

(** C8. When the length of the flat input is not divisible by [Dim],
    [EncodeFlatCoords] fails with [errDimensionalMismatch]; when the length of
    the destination is not divisible by [Dim], so does [DecodeFlatCoords].
    Either way the outcome is the error alone: no buffer, no coordinates. *)
Theorem dimensional_mismatch {F : Type} `{Float64Ops F}
        (c : Codec F) (Hdim : Dim c <> 0) :
  (forall buf flat,
      Z.rem (len flat) (Dim c) <> 0 ->
      EncodeFlatCoords c buf flat = Err errDimensionalMismatch)
  /\ (forall dest buf,
      Z.rem (len dest) (Dim c) <> 0 ->
      DecodeFlatCoords c dest buf = Some (Err errDimensionalMismatch)).
Proof.
  apply Z.eqb_neq in Hdim.
  split; intros a b Hrem; apply Z.eqb_neq in Hrem.
  - unfold EncodeFlatCoords. rewrite Hdim, Hrem. reflexivity.
  - unfold DecodeFlatCoords, DecodeFlatCoords_fuel. rewrite Hdim, Hrem.
    reflexivity.
Qed.

(** ** Indexing of the accumulator in [EncodeCoords] *)

Section IndexSafety.

Context {F : Type} `{Float64Ops F}.
Variable c : Codec F.

Lemma EncodeCoords_inner_ok coord : forall i buf last,
  (i + length coord <= length last)%nat ->
  exists buf' last',
    EncodeCoords_inner c i coord buf last = Ok (buf', last')
    /\ length last' = length last.
Proof.
  induction coord as [|x xs IH]; intros i buf last Hl;
    cbn [EncodeCoords_inner length] in *.
  - eauto.
  - cbv zeta. destruct (lookup_lt_is_Some_2 last i) as [l Hlk]; [lia|].
    rewrite Hlk.
    destruct (IH (S i) (EncodeInt buf (int_sub (round (f_mul (Scale c) x)) l))
                 (<[i := round (f_mul (Scale c) x)]> last))
      as (b' & l' & He & Hlen); [rewrite length_insert; lia|].
    rewrite He. rewrite length_insert in Hlen. eauto.
Qed.

Lemma EncodeCoords_inner_panic coord : forall i buf last,
  (i <= length last)%nat -> (length last < i + length coord)%nat ->
  EncodeCoords_inner c i coord buf last = Panic IndexOutOfRange.
Proof.
  induction coord as [|x xs IH]; intros i buf last Hi Hl;
    cbn [EncodeCoords_inner length] in *.
  - lia.
  - cbv zeta. destruct (last !! i) as [l|] eqn:Hlk; [|reflexivity].
    apply lookup_lt_Some in Hlk.
    apply IH; rewrite length_insert; lia.
Qed.

Lemma EncodeCoords_loop_ok coords : forall buf last,
  Forall (fun coord => (length coord <= length last)%nat) coords ->
  exists out, EncodeCoords_loop c coords buf last = Ok out.
Proof.
  induction coords as [|coord rest IH]; intros buf last Hall;
    cbn [EncodeCoords_loop].
  - eauto.
  - inversion Hall as [|? ? Hc Hrest]; subst.
    destruct (EncodeCoords_inner_ok coord 0 buf last) as (b' & l' & He & Hlen);
      [lia|].
    unbind. rewrite He. apply IH. rewrite Hlen. exact Hrest.
Qed.

Lemma EncodeCoords_loop_panic coords : forall buf last,
  Exists (fun coord => (length last < length coord)%nat) coords ->
  EncodeCoords_loop c coords buf last = Panic IndexOutOfRange.
Proof.
  induction coords as [|coord rest IH]; intros buf last Hex;
    cbn [EncodeCoords_loop].
  - inversion Hex.
  - unbind. destruct (le_lt_dec (length coord) (length last)) as [Hle|Hgt].
    + destruct (EncodeCoords_inner_ok coord 0 buf last)
        as (b' & l' & He & Hlen); [lia|].
      rewrite He. apply IH. rewrite Hlen.
      inversion Hex as [? ? Hh|? ? Ht]; subst; [lia | exact Ht].
    + rewrite EncodeCoords_inner_panic; [reflexivity | lia | lia].
Qed.

End IndexSafety.

(** C10. With an accumulator of [Dim >= 0] slots, [EncodeCoords] on a sequence
    whose coordinates all have at most [Dim] components indexes the
    accumulator within bounds and returns the encoded buffer; it validates
    nothing, so one coordinate with more than [Dim] components makes it panic
    with an index out of range. *)
Theorem EncodeCoords_index_safety {F : Type} `{Float64Ops F}
        (c : Codec F) (buf : list byte) (coords : list (list F))
        (Hdim : 0 <= Dim c) :
  (Forall (fun coord => len coord <= Dim c) coords ->
   exists out, EncodeCoords c buf coords = Ok out)
  /\ (Exists (fun coord => Dim c < len coord) coords ->
      EncodeCoords c buf coords = Panic IndexOutOfRange).
Proof.
  unfold EncodeCoords. rewrite make_ok by exact Hdim. unbind.
  split; intros Hc.
  - apply EncodeCoords_loop_ok. rewrite length_replicate.
    eapply Forall_impl; [exact Hc|]. unfold len. intros coord Hl. cbv beta in *.
    lia.
  - apply EncodeCoords_loop_panic. rewrite length_replicate.
    eapply Exists_impl; [exact Hc|]. unfold len. intros coord Hl. cbv beta in *.
    lia.
Qed.

(** ** The default codec on binary64 *)

Section Binary64Examples.

Local Open Scope float_scope.

Example round_ties_away :
  round (F := float) 2.5 = 3%Z /\ round (F := float) (-2.5) = (-3)%Z
  /\ round (F := float) (-0.2) = 0%Z.
Proof. repeat split; vm_compute; reflexivity. Qed.

(** [floor (x + 0.5)] on binary64: the largest value below one half is
    rounded up, because [x + 0.5] is rounded to [1] before the floor. *)
Example round_below_half :
  round (F := float) 0.49999999999999994 = 1%Z.
Proof. vm_compute. reflexivity. Qed.

Example published_decodes :
  DecodeCoords defaultCodec published = Some (Ok (three_points, [])).
Proof. vm_compute. reflexivity. Qed.

Example published_decodes_flat :
  DecodeFlatCoords defaultCodec [] published
  = Some (Ok (concat three_points, [])).
Proof. vm_compute. reflexivity. Qed.

(** The two-point sequence is not encoded as the published string. *)
Lemma two_points_not_published :
  EncodeCoords defaultCodec [] two_points <> Ok published.
Proof. intros Heq. vm_compute in Heq. discriminate Heq. Qed.

(** C3, as the code has it.  The default codec encodes the two-point
    sequence [[38.5, -120.2], [40.7, -120.95]] as ["_p~iF~ps|U_ulLnnqC"];
    the published string ["_p~iF~ps|U_ulLnnqC_mqNvxq`@"] is the encoding of
    the three-point sequence that continues with [[43.252, -126.453]]. *)
Theorem EncodeCoords_published_example :
  EncodeCoords defaultCodec [] two_points
  = Ok (list_byte_of_string "_p~iF~ps|U_ulLnnqC")
  /\ EncodeCoords defaultCodec [] three_points = Ok published.
Proof. split; vm_compute; reflexivity. Qed.

Lemma default_dim : (1 <= Dim defaultCodec)%Z.
Proof. cbn. lia. Qed.

Lemma decoders_terminate_witness :
  (1 <= Dim defaultCodec)%Z
  /\ exists r, DecodeCoords defaultCodec published = Some r.
Proof.
  split; [exact default_dim|].
  destruct (decoders_terminate defaultCodec published default_dim)
    as (_ & _ & (r & Hr & _) & _).
  exists r. exact Hr.
Defined.

Lemma empty_buffer_asymmetry_witness :
  (1 <= Dim defaultCodec)%Z
  /\ DecodeCoords defaultCodec [] = Some (Err errUnterminatedSequence)
  /\ DecodeFlatCoords defaultCodec [38.5; -120.2] []
     = Some (Ok ([38.5; -120.2], [])).
Proof.
  split; [exact default_dim|].
  destruct (empty_buffer_asymmetry defaultCodec default_dim) as [Hc Hf].
  split; [exact Hc | apply Hf; reflexivity].
Defined.

Lemma dimensional_mismatch_witness :
  Dim defaultCodec <> 0%Z
  /\ EncodeFlatCoords defaultCodec [] [38.5; -120.2; 40.7]
     = Err errDimensionalMismatch
  /\ DecodeFlatCoords defaultCodec [38.5] published
     = Some (Err errDimensionalMismatch).
Proof.
  assert (Hd : Dim defaultCodec <> 0%Z) by (cbn; discriminate).
  split; [exact Hd|].
  destruct (dimensional_mismatch defaultCodec Hd) as [He Hf].
  split; [apply He | apply Hf]; cbn; discriminate.
Defined.

Lemma EncodeCoords_index_safety_witness :
  (0 <= Dim defaultCodec)%Z
  /\ (exists out, EncodeCoords defaultCodec [] two_points = Ok out)
  /\ EncodeCoords defaultCodec [] [[38.5; -120.2; 7]]
     = Panic IndexOutOfRange.
Proof.
  assert (Hd : (0 <= Dim defaultCodec)%Z) by (cbn; lia).
  split; [exact Hd|]. split.
  - apply (EncodeCoords_index_safety defaultCodec [] two_points Hd).
    unfold two_points.
    apply Forall_cons_2; [by_compute|]. apply Forall_cons_2; [by_compute|].
    apply Forall_nil_2.
  - apply (EncodeCoords_index_safety defaultCodec [] [[38.5; -120.2; 7]] Hd).
    apply Exists_cons_hd. by_compute.
Defined.

End Binary64Examples.

(** ** The decoders through the rows of integers they read *)

Section Rows.

Context {F : Type} `{Float64Ops F}.
Variable c : Codec F.

Lemma DecodeCoord_loop_ints n : forall buf,
  DecodeCoord_loop c n buf =
  match DecodeInts n buf with
  | Ok (js, rest) => Ok (map (unscale c) js, rest)
  | Err e => Err e
  | Panic p => Panic p
  end.
Proof.
  induction n as [|n IH]; intros buf; cbn [DecodeCoord_loop DecodeInts].
  - reflexivity.
  - unbind. destruct (DecodeInt buf) as [[j b1]| |]; try reflexivity.
    rewrite IH. destruct (DecodeInts n b1) as [[js b2]| |]; reflexivity.
Qed.

Lemma DecodeInts_length n : forall buf js rest,
  DecodeInts n buf = Ok (js, rest) -> length js = n.
Proof.
  induction n as [|n IH]; intros buf js rest; cbn [DecodeInts].
  - intros [= <- _]. reflexivity.
  - destruct (DecodeInt buf) as [[j b1]| |]; try discriminate.
    destruct (DecodeInts n b1) as [[js' b2]| |] eqn:E; try discriminate.
    intros [= <- _]. cbn [length]. f_equal. exact (IH _ _ _ E).
Qed.

Lemma DecodeInts_is_int n : forall buf js rest,
  DecodeInts n buf = Ok (js, rest) -> Forall is_int js.
Proof.
  induction n as [|n IH]; intros buf js rest; cbn [DecodeInts].
  - intros [= <- _]. apply Forall_nil_2.
  - destruct (DecodeInt buf) as [[j b1]| |] eqn:Ej; try discriminate.
    destruct (DecodeInts n b1) as [[js' b2]| |] eqn:E; try discriminate.
    intros [= <- _]. apply Forall_cons_2.
    + exact (DecodeInt_is_int _ _ _ Ej).
    + exact (IH _ _ _ E).
Qed.

Lemma add_previous_zip prev : forall coord j,
  (j + length coord <= length prev)%nat ->
  add_previous prev j coord = Ok (zip_with f_add coord (drop j prev)).
Proof.
  induction coord as [|x xs IH]; intros j Hl; cbn [add_previous length] in *.
  - reflexivity.
  - destruct (lookup_lt_is_Some_2 prev j) as [p Hp]; [lia|]. rewrite Hp.
    unbind. rewrite IH by lia. rewrite (drop_S _ _ _ Hp). reflexivity.
Qed.

Lemma DecodeCoord_ints buf :
  0 <= Dim c ->
  DecodeCoord c buf =
  match DecodeInts (Z.to_nat (Dim c)) buf with
  | Ok (js, rest) => Ok (map (unscale c) js, rest)
  | Err e => Err e
  | Panic p => Panic p
  end.
Proof.
  intros Hd. unfold DecodeCoord.
  destruct (Dim c <? 0) eqn:E; [apply Z.ltb_lt in E; lia|].
  apply DecodeCoord_loop_ints.
Qed.

(** The loop of [DecodeCoords], entered with [prev] as the last coordinate
    decoded, appends the running sums [float_sums] of the rows it reads. *)
Lemma DecodeCoords_loop_rows fuel : forall buf init prev,
  0 <= Dim c -> length prev = Z.to_nat (Dim c) ->
  DecodeCoords_loop fuel c (S (length init)) (init ++ [prev]) buf =
  match DecodeRows fuel (Z.to_nat (Dim c)) buf with
  | Some (Ok rows) => Some (Ok ((init ++ [prev]) ++ float_sums c prev rows, []))
  | Some (Err e) => Some (Err e)
  | Some (Panic p) => Some (Panic p)
  | None => None
  end.
Proof.
  induction fuel as [|fuel IH]; intros buf init prev Hd Hp.
  - destruct buf; cbn [DecodeCoords_loop DecodeRows float_sums].
    + rewrite app_nil_r. reflexivity.
    + reflexivity.
  - destruct buf as [|b tl]; cbn [DecodeCoords_loop DecodeRows float_sums].
    + rewrite app_nil_r. reflexivity.
    + rewrite DecodeCoord_ints by exact Hd.
      destruct (DecodeInts (Z.to_nat (Dim c)) (b :: tl)) as [[js buf']| |] eqn:Ej;
        try reflexivity.
      apply DecodeInts_length in Ej.
      replace (S (length init) - 1)%nat with (length init) by lia.
      rewrite list_lookup_middle by reflexivity.
      rewrite add_previous_zip by (rewrite length_map; cbn [Nat.add]; lia).
      rewrite drop_0.
      pose proof (IH buf' (init ++ [prev])
                     (zip_with f_add (map (unscale c) js) prev) Hd) as IH'.
      rewrite length_app in IH'. cbn [length] in IH'.
      replace (length init + 1)%nat with (S (length init)) in IH' by lia.
      rewrite IH' by (rewrite length_zip_with, length_map; lia).
      destruct (DecodeRows fuel (Z.to_nat (Dim c)) buf') as [[rows| |]|];
        try reflexivity.
      cbn [float_sums]. rewrite <- (app_assoc _ [_]). reflexivity.
Qed.

Lemma DecodeFlat_inner_ints n : forall j done todo fcs buf,
  length done = j -> length todo = n ->
  DecodeFlat_inner c n j (done ++ todo) fcs buf =
  match DecodeInts n buf with
  | Ok (js, rest) =>
      Ok (done ++ zip_with int_add todo js,
          fcs ++ map (unscale c) (zip_with int_add todo js), rest)
  | Err e => Err e
  | Panic p => Panic p
  end.
Proof.
  induction n as [|n IH]; intros j done todo fcs buf Hj Hn;
    cbn [DecodeFlat_inner DecodeInts].
  - destruct todo; [|discriminate]. cbn [zip_with map].
    rewrite !app_nil_r. reflexivity.
  - destruct todo as [|l todo]; [discriminate|]. cbn [length] in Hn.
    unbind. destruct (DecodeInt buf) as [[k b1]| |]; try reflexivity.
    rewrite list_lookup_middle by (symmetry; exact Hj).
    rewrite insert_app_r_alt by lia.
    replace (j - length done)%nat with 0%nat by lia. cbn [insert list_insert].
    rewrite (cons_middle (int_add l k) done todo), app_assoc.
    rewrite IH by (rewrite ?length_app; cbn [length]; lia).
    destruct (DecodeInts n b1) as [[js b2]| |]; try reflexivity.
    cbn [zip_with map]. rewrite <- !app_assoc. reflexivity.
Qed.

(** The loop of [DecodeFlatCoords] appends the unscaled running [int] sums
    [int_sums] of the rows it reads. *)
Lemma DecodeFlat_loop_rows fuel : forall buf last fcs,
  length last = Z.to_nat (Dim c) ->
  DecodeFlat_loop fuel c last fcs buf =
  match DecodeRows fuel (Z.to_nat (Dim c)) buf with
  | Some (Ok rows) =>
      Some (Ok (fcs ++ map (unscale c) (concat (int_sums last rows)), []))
  | Some (Err e) => Some (Err e)
  | Some (Panic p) => Some (Panic p)
  | None => None
  end.
Proof.
  induction fuel as [|fuel IH]; intros buf last fcs Hl.
  - destruct buf; cbn [DecodeFlat_loop DecodeRows int_sums concat map].
    + rewrite app_nil_r. reflexivity.
    + reflexivity.
  - destruct buf as [|b tl]; cbn [DecodeFlat_loop DecodeRows int_sums concat map].
    + rewrite app_nil_r. reflexivity.
    + rewrite (DecodeFlat_inner_ints _ 0 [] last) by (cbn [length]; lia).
      destruct (DecodeInts (Z.to_nat (Dim c)) (b :: tl)) as [[js buf']| |] eqn:Ej;
        try reflexivity.
      apply DecodeInts_length in Ej. rewrite app_nil_l.
      rewrite IH by (rewrite length_zip_with; lia).
      destruct (DecodeRows fuel (Z.to_nat (Dim c)) buf') as [[rows| |]|];
        try reflexivity.
      cbn [int_sums concat]. rewrite map_app, app_assoc. reflexivity.
Qed.

End Rows.

(** ** The sequence encoder, and decoding what it wrote *)

Section RoundTripRows.

Context {F : Type} `{Float64Ops F}.
Variable c : Codec F.

Lemma EncodeInts_cons d ds : EncodeInts (d :: ds) = EncodeInt [] d ++ EncodeInts ds.
Proof. reflexivity. Qed.

Lemma EncodeInts_app ds1 ds2 :
  EncodeInts (ds1 ++ ds2) = EncodeInts ds1 ++ EncodeInts ds2.
Proof. unfold EncodeInts. rewrite map_app, concat_app. reflexivity. Qed.

Lemma EncodeInt_length d : (1 <= length (EncodeInt [] d))%nat.
Proof.
  unfold EncodeInt, EncodeUint.
  destruct (EncodeUint_loop _ [] (zigzag d)) as [b u].
  rewrite length_app. cbn [length]. lia.
Qed.

Lemma EncodeCoords_inner_scaled coord : forall i done todo buf,
  length done = i -> length coord = length todo ->
  EncodeCoords_inner c i coord buf (done ++ todo) =
  Ok (buf ++ EncodeInts (zip_with int_sub (scaled c coord) todo),
      done ++ scaled c coord).
Proof.
  induction coord as [|x xs IH]; intros i done todo buf Hi Hl;
    cbn [EncodeCoords_inner scaled map length] in *.
  - destruct todo; [|discriminate]. cbn [zip_with]. unfold EncodeInts.
    cbn [map concat]. rewrite !app_nil_r. reflexivity.
  - destruct todo as [|l todo]; [discriminate|]. cbn [length] in Hl.
    cbv zeta. rewrite list_lookup_middle by (symmetry; exact Hi).
    rewrite insert_app_r_alt by lia.
    replace (i - length done)%nat with 0%nat by lia. cbn [insert list_insert].
    rewrite (cons_middle _ done todo), app_assoc.
    rewrite IH by (rewrite ?length_app; cbn [length]; lia).
    cbn [zip_with]. rewrite EncodeInts_cons, EncodeInt_app.
    rewrite <- !app_assoc. reflexivity.
Qed.

Lemma scaled_length coord : length (scaled c coord) = length coord.
Proof. unfold scaled. apply length_map. Qed.

(** [EncodeCoords] writes the delta rows of the scaled coordinates. *)
Lemma EncodeCoords_loop_rows coords : forall buf last,
  Forall (fun coord => length coord = length last) coords ->
  EncodeCoords_loop c coords buf last =
  Ok (buf ++ EncodeInts (concat (delta_rows last (map (scaled c) coords)))).
Proof.
  induction coords as [|coord rest IH]; intros buf last Hall;
    cbn [EncodeCoords_loop map delta_rows concat].
  - unfold EncodeInts. cbn [map concat]. rewrite app_nil_r. reflexivity.
  - inversion Hall as [|? ? Hc Hrest]; subst.
    rewrite (EncodeCoords_inner_scaled coord 0 [] last) by (cbn [length]; lia).
    unbind. rewrite app_nil_l, IH.
    + rewrite EncodeInts_app, app_assoc. reflexivity.
    + rewrite scaled_length. eapply Forall_impl; [exact Hrest|].
      cbv beta. intros x Hx. lia.
Qed.

Lemma delta_rows_length n rows : forall last,
  length last = n -> Forall (fun row => length row = n) rows ->
  Forall (fun row => length row = n) (delta_rows last rows).
Proof.
  induction rows as [|row rest IH]; intros last Hl Hall; cbn [delta_rows].
  - apply Forall_nil_2.
  - inversion Hall as [|? ? Hr Hrest]; subst. apply Forall_cons_2.
    + rewrite length_zip_with. lia.
    + apply IH; assumption.
Qed.

Lemma DecodeInts_EncodeInts ds : forall rest,
  Forall valid_delta ds ->
  DecodeInts (length ds) (EncodeInts ds ++ rest) = Ok (ds, rest).
Proof.
  induction ds as [|d ds IH]; intros rest Hv; cbn [length DecodeInts].
  - reflexivity.
  - inversion Hv as [|? ? [Hi Hne] Hv']; subst.
    rewrite EncodeInts_cons, <- app_assoc.
    rewrite DecodeInt_EncodeInt by assumption. rewrite IH by exact Hv'.
    reflexivity.
Qed.

Lemma EncodeInts_length ds : (length ds <= length (EncodeInts ds))%nat.
Proof.
  induction ds as [|d ds IH]; [cbn; lia|].
  rewrite EncodeInts_cons, length_app. pose proof (EncodeInt_length d).
  cbn [length]. lia.
Qed.

Lemma rows_bytes_length n rows :
  (1 <= n)%nat -> Forall (fun row => length row = n) rows ->
  (length rows <= length (EncodeInts (concat rows)))%nat.
Proof.
  intros Hn Hall. induction Hall as [|row rest Hr Hrest IH]; [cbn; lia|].
  cbn [concat length]. rewrite EncodeInts_app, length_app.
  pose proof (EncodeInts_length row). lia.
Qed.

Lemma DecodeRows_step fuel n buf :
  buf <> [] ->
  DecodeRows (S fuel) n buf =
  match DecodeInts n buf with
  | Ok (row, buf') =>
      match DecodeRows fuel n buf' with
      | Some (Ok rows) => Some (Ok (row :: rows))
      | other => other
      end
  | Err e => Some (Err e)
  | Panic p => Some (Panic p)
  end.
Proof. destruct buf; [congruence | reflexivity]. Qed.

(** Reading back the rows the encoder wrote. *)
Lemma DecodeRows_EncodeInts n rows : forall fuel,
  (1 <= n)%nat -> Forall (fun row => length row = n) rows ->
  Forall (Forall valid_delta) rows -> (length rows <= fuel)%nat ->
  DecodeRows fuel n (EncodeInts (concat rows)) = Some (Ok rows).
Proof.
  induction rows as [|row rest IH]; intros fuel Hn Hall Hv Hf.
  - destruct fuel; reflexivity.
  - inversion Hall as [|? ? Hr Hrest]; subst.
    inversion Hv as [|? ? Hvr Hvrest]; subst.
    cbn [concat length] in *. rewrite EncodeInts_app.
    destruct row as [|d ds]; [cbn [length] in Hn; lia|].
    destruct fuel as [|fuel]; [lia|].
    rewrite DecodeRows_step.
    + rewrite (DecodeInts_EncodeInts (d :: ds)) by exact Hvr.
      rewrite IH; [reflexivity | assumption | assumption | assumption | lia].
    + intros Heq. apply (f_equal length) in Heq.
      rewrite EncodeInts_cons, !length_app in Heq.
      pose proof (EncodeInt_length d). cbn [length] in Heq. lia.
Qed.

(** Round trip of a sequence, before any arithmetic on the values: when the
    deltas are ones the signed codec carries, the decoder reads every row
    back, returns the running sums of the unscaled deltas, and leaves no
    remainder. *)
Lemma DecodeCoords_EncodeCoords_rows seq first rest :
  1 <= Dim c ->
  Forall (fun coord => len coord = Dim c) seq ->
  delta_rows (replicate (Z.to_nat (Dim c)) 0) (map (scaled c) seq)
  = first :: rest ->
  Forall (Forall valid_delta) (first :: rest) ->
  exists bytes,
    EncodeCoords c [] seq = Ok bytes
    /\ DecodeCoords c bytes =
       Some (Ok (map (unscale c) first
                   :: float_sums c (map (unscale c) first) rest, [])).
Proof.
  intros Hd Hshape Hrows Hv.
  set (n := Z.to_nat (Dim c)) in *.
  assert (Hn : (1 <= n)%nat) by (unfold n; lia).
  assert (Hlen : Forall (fun row => length row = n) (first :: rest)).
  { rewrite <- Hrows. apply delta_rows_length.
    - apply length_replicate.
    - apply Forall_map. eapply Forall_impl; [exact Hshape|].
      cbv beta. intros x Hx. rewrite scaled_length. unfold len, n in *. lia. }
  inversion Hlen as [|? ? Hf Hr]; subst.
  inversion Hv as [|? ? Hvf Hvr]; subst.
  exists (EncodeInts (concat (first :: rest))). split.
  - unfold EncodeCoords. rewrite make_ok by lia. unbind.
    rewrite EncodeCoords_loop_rows.
    + fold n. rewrite Hrows, app_nil_l. reflexivity.
    + rewrite length_replicate. eapply Forall_impl; [exact Hshape|].
      cbv beta. intros x Hx. unfold len in Hx. lia.
  - unfold DecodeCoords, DecodeCoords_fuel. cbn [concat].
    rewrite EncodeInts_app. rewrite DecodeCoord_ints by lia.
    pose proof (DecodeInts_EncodeInts first (EncodeInts (concat rest)) Hvf)
      as Hdi.
    rewrite Hf in Hdi. fold n in Hdi |- *. rewrite Hdi.
    pose proof (DecodeCoords_loop_rows c
                  (length (EncodeInts first ++ EncodeInts (concat rest)))
                  (EncodeInts (concat rest)) [] (map (unscale c) first))
      as Hloop.
    cbn [length app] in Hloop. rewrite Hloop; [|lia|rewrite length_map; exact Hf].
    fold n. rewrite (DecodeRows_EncodeInts n rest); try assumption.
    + reflexivity.
    + rewrite length_app. pose proof (rows_bytes_length n rest Hn Hr). lia.
Qed.

End RoundTripRows.

(** ** Both decoders read the same rows *)

Section SameRows.

Context {F : Type} `{Float64Ops F}.
Variable c : Codec F.

Lemma DecodeInts_consumes n : forall buf js rest,
  DecodeInts n buf = Ok (js, rest) -> (length rest + n <= length buf)%nat.
Proof.
  induction n as [|n IH]; intros buf js rest; cbn [DecodeInts].
  - intros [= _ <-]. lia.
  - destruct (DecodeInt buf) as [[j b1]| |] eqn:Ej; try discriminate.
    destruct (DecodeInts n b1) as [[js' b2]| |] eqn:E; try discriminate.
    intros [= _ <-]. apply DecodeInt_consumes in Ej. apply IH in E. lia.
Qed.

(** Any fuel that covers the buffer gives the same rows. *)
Lemma DecodeRows_fuel n fuel1 : forall fuel2 buf,
  (1 <= n)%nat -> (length buf <= fuel1)%nat -> (length buf <= fuel2)%nat ->
  DecodeRows fuel1 n buf = DecodeRows fuel2 n buf.
Proof.
  induction fuel1 as [|fuel1 IH]; intros fuel2 buf Hn H1 H2.
  - destruct buf; [destruct fuel2; reflexivity | cbn [length] in H1; lia].
  - destruct buf as [|b tl]; [destruct fuel2; reflexivity|].
    destruct fuel2 as [|fuel2]; [cbn [length] in H2; lia|].
    cbn [DecodeRows].
    destruct (DecodeInts n (b :: tl)) as [[row buf']| |] eqn:E; try reflexivity.
    apply DecodeInts_consumes in E. cbn [length] in *.
    rewrite (IH fuel2) by lia. reflexivity.
Qed.

Lemma DecodeRows_rows fuel n : forall buf rows,
  DecodeRows fuel n buf = Some (Ok rows) ->
  Forall (fun row => length row = n /\ Forall is_int row) rows.
Proof.
  induction fuel as [|fuel IH]; intros buf rows.
  - destruct buf; [|discriminate]. intros [= <-]. apply Forall_nil_2.
  - destruct buf as [|b tl]; [intros [= <-]; apply Forall_nil_2|].
    cbn [DecodeRows].
    destruct (DecodeInts n (b :: tl)) as [[row buf']| |] eqn:E;
      try discriminate.
    destruct (DecodeRows fuel n buf') as [[rs| |]|] eqn:Er; try discriminate.
    intros [= <-]. apply Forall_cons_2.
    + split; [exact (DecodeInts_length _ _ _ _ E)
             | exact (DecodeInts_is_int _ _ _ _ E)].
    + exact (IH _ _ Er).
Qed.

Lemma zip_with_int_add_zeros row :
  Forall is_int row ->
  zip_with int_add (replicate (length row) 0) row = row.
Proof.
  induction 1 as [|j js Hj Hjs IH]; [reflexivity|].
  cbn [length replicate zip_with]. rewrite IH. f_equal.
  unfold int_add. apply to_int_small. exact Hj.
Qed.

(** When [DecodeCoords] succeeds, the buffer is a first row followed by
    further rows; [DecodeCoords] returns the first row unscaled and then the
    running sums of unscaled values, and [DecodeFlatCoords] returns the
    running [int] sums, unscaled. *)
Lemma decoders_read_same_rows buf coords rest :
  1 <= Dim c ->
  DecodeCoords c buf = Some (Ok (coords, rest)) ->
  exists row rows,
    Forall is_int row
    /\ coords = map (unscale c) row :: float_sums c (map (unscale c) row) rows
    /\ rest = []
    /\ DecodeFlatCoords c [] buf =
       Some (Ok (map (unscale c) (concat (row :: int_sums row rows)), [])).
Proof.
  intros Hd. unfold DecodeCoords, DecodeCoords_fuel.
  rewrite DecodeCoord_ints by lia.
  set (n := Z.to_nat (Dim c)).
  assert (Hn : (1 <= n)%nat) by (unfold n; lia).
  destruct (DecodeInts n buf) as [[row buf']| |] eqn:Ei; try discriminate.
  pose proof (DecodeInts_length _ _ _ _ Ei) as Hlen.
  pose proof (DecodeInts_is_int _ _ _ _ Ei) as Hint.
  pose proof (DecodeInts_consumes _ _ _ _ Ei) as Hcons.
  pose proof (DecodeCoords_loop_rows c (length buf) buf' []
                (map (unscale c) row)) as Hloop.
  cbn [length app] in Hloop. rewrite Hloop; [|lia|rewrite length_map; exact Hlen].
  fold n. destruct (DecodeRows (length buf) n buf') as [[rows| |]|] eqn:Er;
    try discriminate.
  intros [= <- <-]. exists row, rows.
  split; [exact Hint|]. split; [reflexivity|]. split; [reflexivity|].
  unfold DecodeFlatCoords, DecodeFlatCoords_fuel.
  destruct (Dim c =? 0) eqn:E0; [apply Z.eqb_eq in E0; lia|].
  unfold len. cbn [length Z.of_nat]. rewrite Z.rem_0_l by lia.
  cbn [Z.eqb negb]. rewrite make_ok by lia. fold n.
  rewrite DecodeFlat_loop_rows by apply length_replicate. fold n.
  destruct buf as [|b tl]; [cbn [length] in Hcons; lia|].
  cbn [length DecodeRows]. rewrite Ei.
  rewrite (DecodeRows_fuel n (length tl) (length (b :: tl)))
    by (cbn [length] in *; lia).
  rewrite Er. cbn [int_sums app]. cbv zeta.
  replace (replicate n 0) with (replicate (length row) 0)
    by (rewrite Hlen; reflexivity).
  rewrite zip_with_int_add_zeros by exact Hint. reflexivity.
Qed.

End SameRows.

(** ** Scaled components whose deltas are carried *)

Section SmallComponents.

Lemma small_is_int e : small e -> is_int e.
Proof.
  unfold small, is_int, max_scaled. rewrite min_int_eq, max_int_eq.
  change (2 ^ 62 - 1) with 4611686018427387903. lia.
Qed.

Lemma int_sub_small e l :
  small e -> small l -> int_sub e l = e - l /\ valid_delta (e - l).
Proof.
  unfold small, max_scaled, valid_delta, is_int, int_sub.
  rewrite min_int_eq, max_int_eq. change (2 ^ 62 - 1) with 4611686018427387903.
  intros He Hl. split; [|lia]. apply to_int_small. unfold is_int.
  rewrite min_int_eq, max_int_eq. lia.
Qed.

Lemma zip_with_int_sub_zeros es :
  Forall small es -> zip_with int_sub es (replicate (length es) 0) = es.
Proof.
  induction 1 as [|e es He Hes IH]; [reflexivity|].
  cbn [length replicate zip_with]. rewrite IH. f_equal.
  destruct (int_sub_small e 0 He) as [Hs _].
  - unfold small, max_scaled. change (2 ^ 62 - 1) with 4611686018427387903. lia.
  - rewrite Hs. lia.
Qed.

Lemma zip_with_int_sub_valid row : forall last,
  Forall small row -> Forall small last ->
  Forall valid_delta (zip_with int_sub row last).
Proof.
  induction row as [|e row IH]; intros last Hr Hl; cbn [zip_with].
  - apply Forall_nil_2.
  - destruct last as [|l last]; [apply Forall_nil_2|].
    inversion Hr; inversion Hl; subst. apply Forall_cons_2.
    + destruct (int_sub_small e l) as [-> Hv]; assumption.
    + apply IH; assumption.
Qed.

Lemma delta_rows_valid rows : forall last,
  Forall small last -> Forall (Forall small) rows ->
  Forall (Forall valid_delta) (delta_rows last rows).
Proof.
  induction rows as [|row rows IH]; intros last Hl Hr; cbn [delta_rows].
  - apply Forall_nil_2.
  - inversion Hr; subst. apply Forall_cons_2.
    + apply zip_with_int_sub_valid; assumption.
    + apply IH; assumption.
Qed.

End SmallComponents.

(** On binary64 the two accumulations differ already for the deltas
    [(1, 0)], [(2, 0)] at the default scale: [1/1e5 + 2/1e5] is not the
    binary64 value of [3/1e5]. *)
Lemma accumulators_differ_binary64 :
  exists coords flat,
    DecodeCoords defaultCodec small_steps = Some (Ok (coords, []))
    /\ DecodeFlatCoords defaultCodec [] small_steps = Some (Ok (flat, []))
    /\ length (concat coords) = length flat
    /\ concat coords <> flat.
Proof.
  eexists. eexists.
  split; [vm_compute; reflexivity|]. split; [vm_compute; reflexivity|].
  split; [reflexivity|].
  intros Heq.
  apply (f_equal (fun l => Prim2SF (nth 2 l 0%float))) in Heq.
  vm_compute in Heq. discriminate Heq.
Qed.

(** ** Round trip of a sequence on any arithmetic *)

Section RoundTripShape.

Context {F : Type} `{Float64Ops F}.
Variable c : Codec F.

Lemma float_sums_shape n rows : forall prev,
  length prev = n -> Forall (fun row => length row = n) rows ->
  length (float_sums c prev rows) = length rows
  /\ Forall (fun coord => length coord = n) (float_sums c prev rows).
Proof.
  induction rows as [|row rows IH]; intros prev Hp Hr; cbn [float_sums].
  - split; [reflexivity | apply Forall_nil_2].
  - apply Forall_cons_1 in Hr as [Hrow Hr]. cbv zeta.
    assert (Hcur : length (zip_with f_add (map (unscale c) row) prev) = n)
      by (rewrite length_zip_with, length_map; lia).
    destruct (IH _ Hcur Hr) as [Hl Hf]. split.
    + cbn [length]. rewrite Hl. reflexivity.
    + apply Forall_cons_2; assumption.
Qed.

Lemma delta_rows_count rows : forall last,
  length (delta_rows last rows) = length rows.
Proof.
  induction rows as [|row rows IH]; intros last; cbn [delta_rows length].
  - reflexivity.
  - rewrite IH. reflexivity.
Qed.

(** On any arithmetic, binary64 included: when every scaled component is
    [small], decoding what [EncodeCoords] wrote succeeds, leaves no
    remainder, and preserves the length of the sequence and of each
    coordinate. *)
Lemma sequence_round_trip_shape seq :
  1 <= Dim c -> seq <> [] ->
  Forall (fun coord => len coord = Dim c) seq ->
  Forall (fun coord => Forall small (scaled c coord)) seq ->
  exists bytes seq',
    EncodeCoords c [] seq = Ok bytes
    /\ DecodeCoords c bytes = Some (Ok (seq', []))
    /\ length seq' = length seq
    /\ Forall (fun coord' => len coord' = Dim c) seq'.
Proof.
  intros Hd Hne Hshape Hsmall.
  destruct seq as [|coord0 rest]; [congruence|].
  set (n := Z.to_nat (Dim c)).
  assert (Hrows : Forall (fun row => length row = n)
                         (map (scaled c) (coord0 :: rest))).
  { apply Forall_map. eapply Forall_impl; [exact Hshape|].
    cbv beta. intros x Hx. rewrite scaled_length. unfold len, n in *. lia. }
  assert (Hv : Forall (Forall valid_delta)
                 (delta_rows (replicate n 0) (map (scaled c) (coord0 :: rest)))).
  { apply delta_rows_valid.
    - apply Forall_replicate. unfold small, max_scaled.
      change (2 ^ 62 - 1) with 4611686018427387903. lia.
    - apply Forall_map. exact Hsmall. }
  pose proof (delta_rows_length n _ (replicate n 0)
                (length_replicate n 0) Hrows) as Hlen.
  cbn [map delta_rows] in Hv, Hlen.
  destruct (DecodeCoords_EncodeCoords_rows c (coord0 :: rest)
              (zip_with int_sub (scaled c coord0) (replicate n 0))
              (delta_rows (scaled c coord0) (map (scaled c) rest))
              Hd Hshape eq_refl Hv) as (bytes & Henc & Hdec).
  apply Forall_cons_1 in Hlen as [Hfirst Hrest].
  destruct (float_sums_shape n _ (map (unscale c)
              (zip_with int_sub (scaled c coord0) (replicate n 0)))
              ltac:(rewrite length_map; exact Hfirst) Hrest) as [Hl Hf].
  exists bytes,
    (map (unscale c) (zip_with int_sub (scaled c coord0) (replicate n 0))
       :: float_sums c
            (map (unscale c)
                 (zip_with int_sub (scaled c coord0) (replicate n 0)))
            (delta_rows (scaled c coord0) (map (scaled c) rest))).
  split; [exact Henc|]. split; [exact Hdec|]. split.
  - cbn [length]. rewrite Hl, delta_rows_count, length_map. reflexivity.
  - apply Forall_cons_2.
    + unfold len. rewrite length_map, Hfirst. unfold n. lia.
    + eapply Forall_impl; [exact Hf|]. cbv beta. intros x Hx.
      unfold len. rewrite Hx. unfold n. lia.
Qed.

End RoundTripShape.

Example two_points_round_trip :
  exists bytes,
    EncodeCoords defaultCodec [] two_points = Ok bytes
    /\ DecodeCoords defaultCodec bytes = Some (Ok (two_points, [])).
Proof.
  exists (list_byte_of_string "_p~iF~ps|U_ulLnnqC").
  split; vm_compute; reflexivity.
Qed.

(** * Further properties of the package *)

(** ** The scalar codec on the wire *)

Section ScalarWire.

Lemma EncodeUint_loop_continuation n : forall u,
  0 <= u -> Forall (fun b => is_continuation b = true)
                   (fst (EncodeUint_loop n [] u)).
Proof.
  induction n as [|n IH]; intros u Hu; cbn [EncodeUint_loop].
  - apply Forall_nil_2.
  - destruct (32 <=? u) eqn:E; [|apply Forall_nil_2].
    rewrite EncodeUint_loop_app. cbn [fst]. rewrite app_nil_l.
    apply Forall_cons_2.
    + assert (Hm : 0 <= Z.land u 31 < 32).
      { change 31 with (Z.ones 5). rewrite Z.land_ones by lia.
        apply Z.mod_pos_bound. reflexivity. }
      unfold is_continuation. rewrite byte_val_byte_of by lia.
      apply andb_true_iff. split; [apply Z.leb_le | apply Z.ltb_lt]; lia.
    + apply IH. apply Z.shiftr_nonneg. exact Hu.
Qed.

Lemma EncodeUint_loop_length n : forall u (k : nat),
  0 <= u < 2 ^ (5 * (Z.of_nat k + 1)) ->
  (length (fst (EncodeUint_loop n [] u)) <= k)%nat.
Proof.
  induction n as [|n IH]; intros u k Hu; cbn [EncodeUint_loop].
  - cbn [fst length]. lia.
  - destruct (32 <=? u) eqn:E; [|cbn [fst length]; lia].
    apply Z.leb_le in E. rewrite EncodeUint_loop_app. cbn [fst].
    rewrite app_nil_l. cbn [length].
    destruct k as [|k].
    + change (2 ^ (5 * (Z.of_nat 0 + 1))) with 32 in Hu. lia.
    + apply le_n_S. apply IH. rewrite Z.shiftr_div_pow2 by lia.
      replace (5 * (Z.of_nat (S k) + 1)) with (5 * (Z.of_nat k + 1) + 5) in Hu
        by lia.
      rewrite Z.pow_add_r in Hu by lia.
      split; [apply Z.div_pos; lia|].
      apply Z.div_lt_upper_bound; lia.
Qed.

Lemma EncodeUint_bytes u :
  is_uint u ->
  exists cs t,
    EncodeUint [] u = cs ++ [t]
    /\ Forall (fun b => is_continuation b = true) cs
    /\ is_terminal t = true
    /\ (length cs <= 12)%nat.
Proof.
  intros [H0 Hlt]. unfold EncodeUint.
  pose proof (EncodeUint_exit [] u H0) as Hex.
  pose proof (EncodeUint_loop_continuation (Z.to_nat (Z.log2 u)) u H0) as Hc.
  pose proof (EncodeUint_loop_length (Z.to_nat (Z.log2 u)) u 12) as Hl.
  destruct (EncodeUint_loop (Z.to_nat (Z.log2 u)) [] u) as [cs u'].
  cbn [fst snd] in *. exists cs, (byte_of (u' + 63)).
  split; [reflexivity|]. split; [exact Hc|]. split.
  - unfold is_terminal. rewrite byte_val_byte_of by lia.
    apply andb_true_iff. split; [apply Z.leb_le | apply Z.ltb_lt]; lia.
  - apply Hl. rewrite uint_modulus_eq in Hlt.
    change (2 ^ (5 * (Z.of_nat 12 + 1))) with 36893488147419103232. lia.
Qed.

Lemma DecodeUint_loop_prefix buf : forall u s v rest,
  DecodeUint_loop u s buf = Ok (v, rest) ->
  exists pre,
    pre <> [] /\ buf = pre ++ rest
    /\ forall tail, DecodeUint_loop u s (pre ++ tail) = Ok (v, tail).
Proof.
  induction buf as [|b tl IH]; intros u s v rest; cbn [DecodeUint_loop].
  - discriminate.
  - cbv zeta. destruct ((63 <=? byte_val b) && (byte_val b <? 95)) eqn:Et.
    + intros [= <- <-]. exists [b]. split; [discriminate|].
      split; [reflexivity|]. intros tail. cbn [app DecodeUint_loop]. cbv zeta.
      rewrite Et. reflexivity.
    + destruct ((95 <=? byte_val b) && (byte_val b <? 127)) eqn:Ec;
        [|discriminate].
      intros Hd. apply IH in Hd as (pre & Hne & -> & Hpre).
      exists (b :: pre). split; [discriminate|]. split; [reflexivity|].
      intros tail. cbn [app DecodeUint_loop]. cbv zeta. rewrite Et, Ec.
      apply Hpre.
Qed.

End ScalarWire.

(** X1. Round trip of an unsigned integer in front of other data: decoding
    the encoding of a [uint] followed by any bytes returns the integer and
    exactly those bytes. *)
Theorem uint_round_trip (u : Z) (rest : list byte) (Hu : is_uint u) :
  DecodeUint (EncodeUint [] u ++ rest) = Ok (u, rest).
Proof. apply DecodeUint_EncodeUint. exact Hu. Qed.

Lemma uint_round_trip_witness :
  is_uint 18446744073709551615
  /\ DecodeUint (EncodeUint [] 18446744073709551615 ++ published)
     = Ok (18446744073709551615, published).
Proof.
  assert (Hu : is_uint 18446744073709551615).
  { unfold is_uint. rewrite uint_modulus_eq. lia. }
  split; [exact Hu | exact (uint_round_trip _ published Hu)].
Defined.

(** X2. The encoders append: the buffer they are given is a prefix of the
    buffer they return, followed by what they write into an empty buffer. *)
Theorem scalar_encoders_append (buf : list byte) (u v : Z) :
  EncodeUint buf u = buf ++ EncodeUint [] u
  /\ EncodeInt buf v = buf ++ EncodeInt [] v.
Proof. split; [apply EncodeUint_app | apply EncodeInt_app]. Qed.

(** X3. What the scalar encoders write is printable: the encoding of a [uint]
    is at most twelve continuation bytes (in [95,127)) followed by one
    terminal byte (in [63,95)), and so is the encoding of any signed
    integer. *)
Theorem scalar_encoding_bytes (u : Z) (Hu : is_uint u) :
  (exists cs t,
      EncodeUint [] u = cs ++ [t]
      /\ Forall (fun b => is_continuation b = true) cs
      /\ is_terminal t = true
      /\ (length cs <= 12)%nat)
  /\ (forall v, exists cs t,
         EncodeInt [] v = cs ++ [t]
         /\ Forall (fun b => is_continuation b = true) cs
         /\ is_terminal t = true
         /\ (length cs <= 12)%nat).
Proof.
  split; [apply EncodeUint_bytes; exact Hu|].
  intros v. unfold EncodeInt. apply EncodeUint_bytes.
  unfold zigzag. destruct (v <? 0); apply to_uint_range.
Qed.

Lemma scalar_encoding_bytes_witness :
  is_uint 174
  /\ exists cs t, EncodeUint [] 174 = cs ++ [t] /\ (length cs <= 12)%nat.
Proof.
  assert (Hu : is_uint 174).
  { unfold is_uint. rewrite uint_modulus_eq. lia. }
  split; [exact Hu|].
  destruct (scalar_encoding_bytes 174 Hu) as [(cs & t & He & _ & _ & Hl) _].
  exists cs, t. split; [exact He | exact Hl].
Defined.

(** X4. A successful [DecodeInt] reads a non-empty prefix of the buffer and
    nothing else: the remainder it returns is the rest of the buffer, and the
    same prefix followed by any other bytes decodes to the same integer. *)
Theorem DecodeInt_reads_prefix (buf : list byte) (v : Z) (rest : list byte)
        (Hdec : DecodeInt buf = Ok (v, rest)) :
  exists pre,
    pre <> [] /\ buf = pre ++ rest
    /\ forall tail, DecodeInt (pre ++ tail) = Ok (v, tail).
Proof.
  unfold DecodeInt, DecodeUint in Hdec.
  destruct (DecodeUint_loop 0 0 buf) as [[u r]| |] eqn:E; try discriminate.
  apply DecodeUint_loop_prefix in E as (pre & Hne & -> & Hpre).
  assert (Hr : r = rest /\
               (if Z.land u 1 =? 0 then to_int (Z.shiftr u 1)
                else int_neg (to_int (Z.shiftr (uint_add u 1) 1))) = v).
  { destruct (Z.land u 1 =? 0); injection Hdec as <- <-; split; reflexivity. }
  destruct Hr as [-> Hv].
  exists pre. split; [exact Hne|]. split; [reflexivity|].
  intros tail. unfold DecodeInt, DecodeUint. rewrite Hpre.
  destruct (Z.land u 1 =? 0); rewrite <- Hv; reflexivity.
Qed.

Lemma DecodeInt_reads_prefix_witness :
  DecodeInt small_steps = Ok (1, list_byte_of_string "?C?")
  /\ exists pre, pre <> [] /\ small_steps = pre ++ list_byte_of_string "?C?".
Proof.
  assert (Hd : DecodeInt small_steps = Ok (1, list_byte_of_string "?C?"))
    by by_compute.
  split; [exact Hd|].
  destruct (DecodeInt_reads_prefix _ _ _ Hd) as (pre & Hne & Heq & _).
  exists pre. split; [exact Hne | exact Heq].
Defined.

(** ** One coordinate *)

Section OneCoordinate.

Context {F : Type} `{Float64Ops F}.
Variable c : Codec F.

Lemma EncodeCoord_ints coord : forall buf,
  EncodeCoord c buf coord = buf ++ EncodeInts (scaled c coord).
Proof.
  unfold EncodeCoord.
  induction coord as [|x xs IH]; intros buf; cbn [fold_left scaled map].
  - unfold EncodeInts. cbn [map concat]. rewrite app_nil_r. reflexivity.
  - rewrite IH, EncodeInts_cons, EncodeInt_app, <- app_assoc. reflexivity.
Qed.

Lemma zip_with_int_sub_zeros_int es :
  Forall is_int es -> zip_with int_sub es (replicate (length es) 0) = es.
Proof.
  induction 1 as [|e es He Hes IH]; [reflexivity|].
  cbn [length replicate zip_with]. rewrite IH. f_equal.
  unfold int_sub. rewrite Z.sub_0_r. apply to_int_small. exact He.
Qed.

Lemma zip_with_int_sub_self es :
  zip_with int_sub es es = replicate (length es) 0.
Proof.
  induction es as [|e es IH]; [reflexivity|].
  cbn [length replicate zip_with]. rewrite IH. f_equal.
  unfold int_sub. rewrite Z.sub_diag. reflexivity.
Qed.

Lemma EncodeInts_zeros k :
  EncodeInts (replicate k 0) = replicate k "?"%byte.
Proof.
  induction k as [|k IH]; [reflexivity|].
  cbn [replicate]. rewrite EncodeInts_cons, IH. reflexivity.
Qed.

Lemma delta_rows_repeat k row :
  concat (delta_rows row (replicate k row))
  = replicate (k * length row) 0.
Proof.
  induction k as [|k IH]; [reflexivity|].
  cbn [replicate delta_rows concat]. rewrite IH, zip_with_int_sub_self.
  rewrite <- replicate_add. reflexivity.
Qed.

Lemma EncodeCoords_inner_prefix coord : forall i buf last,
  EncodeCoords_inner c i coord buf last =
  match EncodeCoords_inner c i coord [] last with
  | Ok (b, l) => Ok (buf ++ b, l)
  | Err e => Err e
  | Panic p => Panic p
  end.
Proof.
  induction coord as [|x xs IH]; intros i buf last; cbn [EncodeCoords_inner].
  - rewrite app_nil_r. reflexivity.
  - cbv zeta. destruct (last !! i) as [l|]; [|reflexivity].
    rewrite (IH _ (EncodeInt buf _)), (IH _ (EncodeInt [] _)).
    destruct (EncodeCoords_inner c (S i) xs [] _) as [[b l']| |];
      try reflexivity.
    rewrite (EncodeInt_app buf), <- app_assoc. reflexivity.
Qed.

Lemma EncodeCoords_loop_prefix coords : forall buf last,
  EncodeCoords_loop c coords buf last =
  match EncodeCoords_loop c coords [] last with
  | Ok b => Ok (buf ++ b)
  | Err e => Err e
  | Panic p => Panic p
  end.
Proof.
  induction coords as [|coord rest IH]; intros buf last;
    cbn [EncodeCoords_loop].
  - rewrite app_nil_r. reflexivity.
  - unbind. rewrite (EncodeCoords_inner_prefix coord 0 buf).
    destruct (EncodeCoords_inner c 0 coord [] last) as [[b l]| |];
      try reflexivity.
    rewrite (IH (buf ++ b)), (IH b).
    destruct (EncodeCoords_loop c rest [] l) as [b'| |]; try reflexivity.
    rewrite <- app_assoc. reflexivity.
Qed.

Lemma EncodeFlat_loop_prefix fcs : forall i buf last,
  EncodeFlat_loop c i fcs buf last =
  match EncodeFlat_loop c i fcs [] last with
  | Ok b => Ok (buf ++ b)
  | Err e => Err e
  | Panic p => Panic p
  end.
Proof.
  induction fcs as [|x xs IH]; intros i buf last; cbn [EncodeFlat_loop].
  - rewrite app_nil_r. reflexivity.
  - cbv zeta. destruct (last !! _) as [l|]; [|reflexivity].
    rewrite (IH _ (EncodeInt buf _)), (IH _ (EncodeInt [] _)).
    destruct (EncodeFlat_loop c (S i) xs [] _) as [b| |]; try reflexivity.
    rewrite (EncodeInt_app buf), <- app_assoc. reflexivity.
Qed.

End OneCoordinate.

(** X5. The coordinate encoders append as well: [EncodeCoord] returns the
    given buffer followed by what it writes into an empty one, and
    [EncodeCoords] and [EncodeFlatCoords] do so whenever they return a buffer,
    failing or panicking exactly as they do from an empty buffer. *)
Theorem coordinate_encoders_append {F : Type} `{Float64Ops F}
        (c : Codec F) (buf : list byte) :
  (forall coord, EncodeCoord c buf coord = buf ++ EncodeCoord c [] coord)
  /\ (forall coords,
         EncodeCoords c buf coords =
         match EncodeCoords c [] coords with
         | Ok b => Ok (buf ++ b)
         | Err e => Err e
         | Panic p => Panic p
         end)
  /\ (forall fcs,
         EncodeFlatCoords c buf fcs =
         match EncodeFlatCoords c [] fcs with
         | Ok b => Ok (buf ++ b)
         | Err e => Err e
         | Panic p => Panic p
         end).
Proof.
  split; [|split].
  - intros coord. rewrite !EncodeCoord_ints. reflexivity.
  - intros coords. unfold EncodeCoords. unbind.
    destruct (make 0 (Dim c)) as [last| |]; try reflexivity.
    apply EncodeCoords_loop_prefix.
  - intros fcs. unfold EncodeFlatCoords. unbind.
    destruct (Dim c =? 0); [reflexivity|].
    destruct (negb _); [reflexivity|].
    destruct (make 0 (Dim c)) as [last| |]; try reflexivity.
    apply EncodeFlat_loop_prefix.
Qed.

(** X6. Round trip of one coordinate in front of other data.  For a
    coordinate of [Dim] components whose scaled and rounded components are
    integers the signed codec carries, [DecodeCoord] on the bytes of
    [EncodeCoord] followed by any bytes returns each component as
    [float64(round(Scale * x)) / Scale], and exactly those bytes. *)
Theorem coordinate_round_trip {F : Type} `{Float64Ops F}
        (c : Codec F) (coord : list F) (rest : list byte)
        (Hlen : len coord = Dim c)
        (Hvalid : Forall valid_delta (scaled c coord)) :
  DecodeCoord c (EncodeCoord c [] coord ++ rest)
  = Ok (map (fun x => unscale c (round (f_mul (Scale c) x))) coord, rest).
Proof.
  rewrite EncodeCoord_ints, app_nil_l.
  rewrite DecodeCoord_ints by (unfold len in Hlen; lia).
  replace (Z.to_nat (Dim c)) with (length (scaled c coord))
    by (rewrite scaled_length; unfold len in Hlen; lia).
  rewrite DecodeInts_EncodeInts by exact Hvalid.
  unfold scaled. rewrite map_map. reflexivity.
Qed.

Lemma coordinate_round_trip_witness :
  len [38.5; -120.2]%float = Dim defaultCodec
  /\ Forall valid_delta (scaled defaultCodec [38.5; -120.2]%float)
  /\ DecodeCoord defaultCodec
       (EncodeCoord defaultCodec [] [38.5; -120.2]%float ++ small_steps)
     = Ok ([38.5; -120.2]%float, small_steps).
Proof.
  assert (Hl : len [38.5; -120.2]%float = Dim defaultCodec) by reflexivity.
  assert (Hv : Forall valid_delta (scaled defaultCodec [38.5; -120.2]%float)).
  { unfold scaled. cbn [map].
    repeat (apply Forall_cons_2;
            [vm_compute; repeat split; intro; discriminate|]).
    apply Forall_nil_2. }
  split; [exact Hl|]. split; [exact Hv|].
  rewrite (coordinate_round_trip defaultCodec _ small_steps Hl Hv).
  by_compute.
Defined.

(** X8. The first coordinate of a sequence is encoded as it stands:
    [EncodeCoords] on a one-coordinate sequence writes what [EncodeCoord]
    writes, for a coordinate of [Dim] components whose scaled and rounded
    components are [int]s. *)
Theorem first_coordinate_absolute {F : Type} `{Float64Ops F}
        (c : Codec F) (buf : list byte) (coord : list F)
        (Hlen : len coord = Dim c)
        (Hint : Forall is_int (scaled c coord)) :
  EncodeCoords c buf [coord] = Ok (EncodeCoord c buf coord).
Proof.
  unfold EncodeCoords. rewrite make_ok by (unfold len in Hlen; lia). unbind.
  rewrite EncodeCoords_loop_rows.
  - cbn [map delta_rows concat]. rewrite app_nil_r, EncodeCoord_ints.
    replace (Z.to_nat (Dim c)) with (length (scaled c coord))
      by (rewrite scaled_length; unfold len in Hlen; lia).
    rewrite zip_with_int_sub_zeros_int by exact Hint. reflexivity.
  - apply Forall_cons_2; [|apply Forall_nil_2].
    rewrite length_replicate. unfold len in Hlen. lia.
Qed.

Lemma first_coordinate_absolute_witness :
  len [38.5; -120.2]%float = Dim defaultCodec
  /\ Forall is_int (scaled defaultCodec [38.5; -120.2]%float)
  /\ EncodeCoords defaultCodec [] [[38.5; -120.2]%float]
     = Ok (EncodeCoord defaultCodec [] [38.5; -120.2]%float).
Proof.
  assert (Hl : len [38.5; -120.2]%float = Dim defaultCodec) by reflexivity.
  assert (Hi : Forall is_int (scaled defaultCodec [38.5; -120.2]%float)).
  { unfold scaled. cbn [map].
    repeat (apply Forall_cons_2;
            [vm_compute; repeat split; intro; discriminate|]).
    apply Forall_nil_2. }
  split; [exact Hl|]. split; [exact Hi|].
  exact (first_coordinate_absolute defaultCodec [] _ Hl Hi).
Defined.

(** X9. Delta compactness: a coordinate of [Dim] components repeated costs
    one byte ["?"] per component and repetition, after the encoding of the
    first occurrence. *)
Theorem repeated_coordinate_bytes {F : Type} `{Float64Ops F}
        (c : Codec F) (buf : list byte) (coord : list F) (k : nat)
        (Hlen : len coord = Dim c) :
  exists first,
    EncodeCoords c buf [coord] = Ok first
    /\ EncodeCoords c buf (replicate (S k) coord)
       = Ok (first ++ replicate (k * length coord) "?"%byte).
Proof.
  assert (Hd : 0 <= Dim c) by (unfold len in Hlen; lia).
  assert (Hl : length coord = Z.to_nat (Dim c)) by (unfold len in Hlen; lia).
  unfold EncodeCoords. rewrite make_ok by exact Hd. unbind.
  eexists. split.
  - apply EncodeCoords_loop_rows.
    apply Forall_cons_2; [|apply Forall_nil_2].
    rewrite length_replicate. exact Hl.
  - rewrite EncodeCoords_loop_rows.
    + cbn [replicate map delta_rows concat].
      rewrite app_nil_r, EncodeInts_app, app_assoc. f_equal.
      replace (map (scaled c) (replicate k coord))
        with (replicate k (scaled c coord))
        by (clear; induction k as [|k IH]; cbn [replicate map];
            [reflexivity | rewrite IH; reflexivity]).
      rewrite delta_rows_repeat, EncodeInts_zeros, scaled_length.
      reflexivity.
    + apply Forall_replicate. rewrite length_replicate. exact Hl.
Qed.

Lemma repeated_coordinate_bytes_witness :
  len [38.5; -120.2]%float = Dim defaultCodec
  /\ EncodeCoords defaultCodec [] (replicate 3 [38.5; -120.2]%float)
     = Ok (list_byte_of_string "_p~iF~ps|U????").
Proof.
  assert (Hl : len [38.5; -120.2]%float = Dim defaultCodec) by reflexivity.
  split; [exact Hl|].
  destruct (repeated_coordinate_bytes defaultCodec [] _ 2 Hl)
    as (first & Hf & Hr).
  rewrite Hr. assert (Hfirst : first = list_byte_of_string "_p~iF~ps|U").
  { assert (Hc : EncodeCoords defaultCodec [] [[38.5; -120.2]%float]
                 = Ok (list_byte_of_string "_p~iF~ps|U")) by by_compute.
    rewrite Hc in Hf. injection Hf as <-. reflexivity. }
  rewrite Hfirst. reflexivity.
Defined.

(** ** The flat layout *)

Section FlatLayout.

Context {F : Type} `{Float64Ops F}.
Variable c : Codec F.

(** [i % c.Dim] inside the [q]-th group of [Dim] components. *)
Lemma flat_index (q d : nat) :
  1 <= Dim c -> (d < Z.to_nat (Dim c))%nat ->
  Z.to_nat (Z.rem (Z.of_nat (q * Z.to_nat (Dim c) + d)) (Dim c)) = d.
Proof.
  intros Hd Hlt. rewrite Z.rem_mod_nonneg by lia.
  rewrite Nat2Z.inj_add, Nat2Z.inj_mul, Z2Nat.id by lia.
  rewrite (Z.add_comm (Z.of_nat q * Dim c)), Z.mod_add by lia.
  rewrite Z.mod_small by lia. lia.
Qed.

Lemma concat_length_uniform {A} n (ls : list (list A)) :
  Forall (fun l => length l = n) ls ->
  length (concat ls) = (length ls * n)%nat.
Proof.
  induction 1 as [|l ls Hl Hls IH]; [reflexivity|].
  cbn [concat length]. rewrite length_app, IH, Hl. lia.
Qed.

(** One group of [Dim] components, as [EncodeFlatCoords] goes through it. *)
Lemma EncodeFlat_loop_chunk coord : forall q done todo xs buf,
  1 <= Dim c ->
  (length done + length todo = Z.to_nat (Dim c))%nat ->
  length coord = length todo ->
  EncodeFlat_loop c (q * Z.to_nat (Dim c) + length done) (coord ++ xs) buf
                  (done ++ todo)
  = EncodeFlat_loop c (S q * Z.to_nat (Dim c)) xs
      (buf ++ EncodeInts (zip_with int_sub (scaled c coord) todo))
      (done ++ scaled c coord).
Proof.
  induction coord as [|x xs' IH]; intros q done todo xs buf Hd Hn Hl.
  - destruct todo; [|discriminate]. cbn [length] in Hn.
    cbn [app scaled map zip_with]. unfold EncodeInts. cbn [map concat].
    rewrite !app_nil_r.
    replace (q * Z.to_nat (Dim c) + length done)%nat
      with (S q * Z.to_nat (Dim c))%nat by lia.
    reflexivity.
  - destruct todo as [|l todo]; [discriminate|]. cbn [length] in Hn, Hl.
    cbn [app EncodeFlat_loop]. cbv zeta.
    rewrite flat_index by lia.
    rewrite list_lookup_middle by reflexivity.
    rewrite insert_app_r_alt by lia.
    replace (length done - length done)%nat with 0%nat by lia.
    cbn [insert list_insert].
    rewrite (cons_middle _ done todo), app_assoc.
    replace (S (q * Z.to_nat (Dim c) + length done))
      with (q * Z.to_nat (Dim c)
            + length (done ++ [round (f_mul (Scale c) x)]))%nat
      by (rewrite length_app; cbn [length]; lia).
    rewrite IH by (rewrite ?length_app; cbn [length]; lia).
    cbn [scaled map zip_with]. rewrite EncodeInts_cons, EncodeInt_app.
    rewrite <- !app_assoc. reflexivity.
Qed.

Lemma EncodeFlat_loop_concat coords : forall q buf last,
  1 <= Dim c -> length last = Z.to_nat (Dim c) ->
  Forall (fun coord => length coord = Z.to_nat (Dim c)) coords ->
  EncodeFlat_loop c (q * Z.to_nat (Dim c)) (concat coords) buf last
  = Ok (buf ++ EncodeInts (concat (delta_rows last (map (scaled c) coords)))).
Proof.
  induction coords as [|coord rest IH]; intros q buf last Hd Hlast Hall;
    cbn [concat map delta_rows].
  - cbn [EncodeFlat_loop]. unfold EncodeInts. cbn [map concat].
    rewrite app_nil_r. reflexivity.
  - apply Forall_cons_1 in Hall as [Hc Hrest].
    pose proof (EncodeFlat_loop_chunk coord q [] last (concat rest) buf Hd)
      as Hchunk.
    cbn [length app] in Hchunk. rewrite Nat.add_0_r in Hchunk.
    rewrite Hchunk by lia.
    rewrite IH by (rewrite ?scaled_length; assumption).
    rewrite EncodeInts_app, app_assoc. reflexivity.
Qed.

(** A list whose length is a multiple of [n] is a sequence of groups of
    [n]. *)
Lemma groups_of {A} (n k : nat) : forall l : list A,
  length l = (k * n)%nat ->
  exists ls, l = concat ls /\ Forall (fun g => length g = n) ls.
Proof.
  induction k as [|k IH]; intros l Hl.
  - exists []. destruct l; [|discriminate]. split; [reflexivity|constructor].
  - destruct (IH (drop n l)) as (ls & Hc & Hall).
    { rewrite length_drop. lia. }
    exists (take n l :: ls). split.
    + cbn [concat]. rewrite <- Hc, take_drop. reflexivity.
    + apply Forall_cons_2; [|exact Hall]. rewrite length_take. lia.
Qed.

Lemma flat_groups {A} (l : list A) :
  1 <= Dim c -> Z.rem (len l) (Dim c) = 0 ->
  exists ls, l = concat ls
             /\ Forall (fun g => length g = Z.to_nat (Dim c)) ls.
Proof.
  intros Hd Hrem. unfold len in Hrem.
  rewrite Z.rem_mod_nonneg in Hrem by lia.
  apply Z.mod_divide in Hrem; [|lia]. destruct Hrem as [k Hk].
  apply (groups_of (Z.to_nat (Dim c)) (Z.to_nat k)). nia.
Qed.

Lemma flat_length_rem {A} (ls : list (list A)) :
  1 <= Dim c -> Forall (fun g => length g = Z.to_nat (Dim c)) ls ->
  Z.rem (len (concat ls)) (Dim c) = 0.
Proof.
  intros Hd Hall. unfold len.
  rewrite (concat_length_uniform _ _ Hall), Nat2Z.inj_mul, Z2Nat.id by lia.
  apply Z.rem_mul. lia.
Qed.

Lemma EncodeFlatCoords_rows buf coords :
  1 <= Dim c ->
  Forall (fun coord => length coord = Z.to_nat (Dim c)) coords ->
  EncodeFlatCoords c buf (concat coords)
  = Ok (buf ++ EncodeInts
                 (concat (delta_rows (replicate (Z.to_nat (Dim c)) 0)
                                     (map (scaled c) coords)))).
Proof.
  intros Hd Hall. unfold EncodeFlatCoords.
  destruct (Dim c =? 0) eqn:E0; [apply Z.eqb_eq in E0; lia|].
  rewrite flat_length_rem by assumption. cbn [Z.eqb negb].
  rewrite make_ok by lia. unbind.
  apply (EncodeFlat_loop_concat coords 0);
    [exact Hd | apply length_replicate | exact Hall].
Qed.

End FlatLayout.

(** X10. The two encoders write the same bytes: for coordinates of [Dim]
    components each, [EncodeFlatCoords] on their concatenation returns what
    [EncodeCoords] returns on the sequence. *)
Theorem flat_encoder_agrees {F : Type} `{Float64Ops F}
        (c : Codec F) (buf : list byte) (coords : list (list F))
        (Hdim : 1 <= Dim c)
        (Hshape : Forall (fun coord => len coord = Dim c) coords) :
  EncodeFlatCoords c buf (concat coords) = EncodeCoords c buf coords.
Proof.
  assert (Hall : Forall (fun coord => length coord = Z.to_nat (Dim c)) coords).
  { eapply Forall_impl; [exact Hshape|]. cbv beta. unfold len. intros; lia. }
  rewrite EncodeFlatCoords_rows by assumption.
  unfold EncodeCoords. rewrite make_ok by lia. unbind.
  rewrite EncodeCoords_loop_rows; [reflexivity|].
  eapply Forall_impl; [exact Hall|]. cbv beta. intros coord Hc.
  rewrite length_replicate. exact Hc.
Qed.

Lemma flat_encoder_agrees_witness :
  1 <= Dim defaultCodec
  /\ Forall (fun coord => len coord = Dim defaultCodec) three_points
  /\ EncodeFlatCoords defaultCodec [] (concat three_points) = Ok published.
Proof.
  assert (Hd : 1 <= Dim defaultCodec) by by_compute.
  assert (Hs : Forall (fun coord => len coord = Dim defaultCodec) three_points).
  { repeat (apply Forall_cons_2; [reflexivity|]). apply Forall_nil_2. }
  split; [exact Hd|]. split; [exact Hs|].
  rewrite (flat_encoder_agrees defaultCodec [] three_points Hd Hs).
  by_compute.
Defined.

(** ** What the decoders return *)

Section DecoderResults.

Context {F : Type} `{Float64Ops F}.
Variable c : Codec F.

Lemma DecodeInts_not_panic n : forall buf p, DecodeInts n buf <> Panic p.
Proof.
  induction n as [|n IH]; intros buf p; cbn [DecodeInts]; [discriminate|].
  destruct (DecodeInt buf) as [[j b1]| |] eqn:E; [|discriminate|].
  - specialize (IH b1 p).
    destruct (DecodeInts n b1) as [[js b2]| |]; [discriminate..|].
    intros [= ->]. apply IH. reflexivity.
  - exfalso. eapply DecodeInt_not_panic. exact E.
Qed.

Lemma DecodeRows_not_panic fuel n : forall buf p,
  DecodeRows fuel n buf <> Some (Panic p).
Proof.
  induction fuel as [|fuel IH]; intros buf p; destruct buf as [|b tl];
    cbn [DecodeRows]; try discriminate.
  destruct (DecodeInts n (b :: tl)) as [[row b']| |] eqn:E; [|discriminate|].
  - specialize (IH b' p).
    destruct (DecodeRows fuel n b') as [[rows| |]|]; try discriminate.
    exact IH.
  - exfalso. eapply DecodeInts_not_panic. exact E.
Qed.

(** Every value read takes at least one byte. *)
Lemma DecodeRows_count fuel n : forall buf rows,
  DecodeRows fuel n buf = Some (Ok rows) ->
  (length rows * n <= length buf)%nat.
Proof.
  induction fuel as [|fuel IH]; intros buf rows; destruct buf as [|b tl];
    cbn [DecodeRows]; try discriminate.
  - intros [= <-]. cbn [length]. lia.
  - intros [= <-]. cbn [length]. lia.
  - destruct (DecodeInts n (b :: tl)) as [[row b']| |] eqn:E;
      try discriminate.
    destruct (DecodeRows fuel n b') as [[rows'| |]|] eqn:Er; try discriminate.
    intros [= <-]. apply IH in Er.
    apply DecodeInts_consumes in E. cbn [length] in *. lia.
Qed.

Lemma int_sums_shape n rows : forall last,
  length last = n -> Forall (fun row => length row = n) rows ->
  length (int_sums last rows) = length rows
  /\ Forall (fun row => length row = n) (int_sums last rows).
Proof.
  induction rows as [|row rest IH]; intros last Hlast Hall;
    cbn [int_sums length].
  - split; [reflexivity|constructor].
  - cbv zeta. apply Forall_cons_1 in Hall as [Hrow Hrest].
    assert (Hcur : length (zip_with int_add last row) = n)
      by (rewrite length_zip_with; lia).
    destruct (IH _ Hcur Hrest) as [Hl Hf].
    split; [cbn [length]; lia | apply Forall_cons_2; assumption].
Qed.

(** The two accumulations produce as many values. *)
Lemma sums_same_count rows : forall prev last,
  length prev = length last ->
  length (concat (float_sums c prev rows))
  = length (concat (int_sums last rows)).
Proof.
  induction rows as [|row rest IH]; intros prev last Hl;
    cbn [float_sums int_sums concat]; [reflexivity|].
  cbv zeta. rewrite !length_app. f_equal.
  - rewrite !length_zip_with, length_map. lia.
  - apply IH. rewrite !length_zip_with, length_map. lia.
Qed.

(** [DecodeCoords] in terms of the rows it reads. *)
Lemma DecodeCoords_view buf :
  0 <= Dim c ->
  DecodeCoords c buf =
  match DecodeInts (Z.to_nat (Dim c)) buf with
  | Ok (row, buf') =>
      match DecodeRows (length buf) (Z.to_nat (Dim c)) buf' with
      | Some (Ok rows) =>
          Some (Ok (map (unscale c) row
                      :: float_sums c (map (unscale c) row) rows, []))
      | Some (Err e) => Some (Err e)
      | Some (Panic p) => Some (Panic p)
      | None => None
      end
  | Err e => Some (Err e)
  | Panic p => Some (Panic p)
  end.
Proof.
  intros Hd. unfold DecodeCoords, DecodeCoords_fuel.
  rewrite DecodeCoord_ints by exact Hd.
  destruct (DecodeInts _ buf) as [[row buf']| |] eqn:Ei; try reflexivity.
  pose proof (DecodeInts_length _ _ _ _ Ei) as Hlen.
  pose proof (DecodeCoords_loop_rows c (length buf) buf' []
                (map (unscale c) row)) as Hloop.
  cbn [length app] in Hloop.
  rewrite Hloop; [reflexivity | exact Hd | rewrite length_map; exact Hlen].
Qed.

(** [DecodeFlatCoords] in terms of the rows it reads. *)
Lemma DecodeFlatCoords_view fcs buf :
  1 <= Dim c -> Z.rem (len fcs) (Dim c) = 0 ->
  DecodeFlatCoords c fcs buf =
  match DecodeRows (length buf) (Z.to_nat (Dim c)) buf with
  | Some (Ok rows) =>
      Some (Ok (fcs ++ map (unscale c)
                         (concat (int_sums (replicate (Z.to_nat (Dim c)) 0)
                                           rows)), []))
  | Some (Err e) => Some (Err e)
  | Some (Panic p) => Some (Panic p)
  | None => None
  end.
Proof.
  intros Hd Hrem. unfold DecodeFlatCoords, DecodeFlatCoords_fuel.
  destruct (Dim c =? 0) eqn:E0; [apply Z.eqb_eq in E0; lia|].
  rewrite Hrem. cbn [Z.eqb negb]. rewrite make_ok by lia.
  apply DecodeFlat_loop_rows. apply length_replicate.
Qed.

(** On a non-empty buffer the rows of [DecodeFlatCoords] are the first
    coordinate of [DecodeCoords] followed by its rows. *)
Lemma DecodeRows_first buf :
  1 <= Dim c -> buf <> [] ->
  DecodeRows (length buf) (Z.to_nat (Dim c)) buf =
  match DecodeInts (Z.to_nat (Dim c)) buf with
  | Ok (row, buf') =>
      match DecodeRows (length buf) (Z.to_nat (Dim c)) buf' with
      | Some (Ok rows) => Some (Ok (row :: rows))
      | other => other
      end
  | Err e => Some (Err e)
  | Panic p => Some (Panic p)
  end.
Proof.
  intros Hd Hne. destruct buf as [|b tl]; [congruence|].
  cbn [length]. rewrite DecodeRows_step by discriminate.
  destruct (DecodeInts _ (b :: tl)) as [[row buf']| |] eqn:Ei;
    try reflexivity.
  apply DecodeInts_consumes in Ei. cbn [length] in Ei.
  rewrite (DecodeRows_fuel _ (length tl) (S (length tl))) by lia.
  reflexivity.
Qed.

Lemma int_sums_first row rows :
  Forall is_int row ->
  int_sums (replicate (length row) 0) (row :: rows)
  = row :: int_sums row rows.
Proof.
  intros Hint. cbn [int_sums]. cbv zeta.
  rewrite zip_with_int_add_zeros by exact Hint. reflexivity.
Qed.

End DecoderResults.

(** X11. For a codec of dimension at least 1 the decoders never panic,
    whatever the bytes: they return values or an error. *)
Theorem decoders_never_panic {F : Type} `{Float64Ops F}
        (c : Codec F) (buf : list byte) (p : panic) (Hdim : 1 <= Dim c) :
  DecodeCoord c buf <> Panic p
  /\ DecodeCoords c buf <> Some (Panic p)
  /\ forall dest, DecodeFlatCoords c dest buf <> Some (Panic p).
Proof.
  split; [|split].
  - rewrite DecodeCoord_ints by lia.
    destruct (DecodeInts _ buf) as [[js rest]| |] eqn:E; try discriminate.
    exfalso. eapply DecodeInts_not_panic. exact E.
  - rewrite DecodeCoords_view by lia.
    destruct (DecodeInts _ buf) as [[row buf']| |] eqn:E; try discriminate.
    + destruct (DecodeRows _ _ buf') as [[rows| |]|] eqn:Er;
        try discriminate.
      exfalso. eapply DecodeRows_not_panic. exact Er.
    + exfalso. eapply DecodeInts_not_panic. exact E.
  - intros dest. destruct (Z.eq_dec (Z.rem (len dest) (Dim c)) 0) as [E|E].
    + rewrite DecodeFlatCoords_view by assumption.
      destruct (DecodeRows _ _ buf) as [[rows| |]|] eqn:Er; try discriminate.
      exfalso. eapply DecodeRows_not_panic. exact Er.
    + unfold DecodeFlatCoords, DecodeFlatCoords_fuel.
      destruct (Dim c =? 0) eqn:E0; [apply Z.eqb_eq in E0; lia|].
      apply Z.eqb_neq in E. rewrite E. discriminate.
Qed.

Lemma decoders_never_panic_witness :
  1 <= Dim defaultCodec
  /\ DecodeCoords defaultCodec wrap_steps <> Some (Panic IndexOutOfRange).
Proof.
  assert (Hd : 1 <= Dim defaultCodec) by by_compute.
  split; [exact Hd|].
  exact (proj1 (proj2 (decoders_never_panic defaultCodec wrap_steps
                         IndexOutOfRange Hd))).
Defined.

(** X12. What [DecodeCoords] returns on success: at least one coordinate,
    every coordinate of [Dim] components, the whole buffer consumed, and no
    more values than the buffer has bytes. *)
Theorem DecodeCoords_result_shape {F : Type} `{Float64Ops F}
        (c : Codec F) (buf : list byte) (coords : list (list F))
        (rest : list byte) (Hdim : 1 <= Dim c)
        (Hdec : DecodeCoords c buf = Some (Ok (coords, rest))) :
  coords <> []
  /\ Forall (fun coord => len coord = Dim c) coords
  /\ rest = []
  /\ Z.of_nat (length coords) * Dim c <= len buf.
Proof.
  rewrite DecodeCoords_view in Hdec by lia.
  destruct (DecodeInts _ buf) as [[row buf']| |] eqn:Ei; try discriminate.
  destruct (DecodeRows _ _ buf') as [[rows| |]|] eqn:Er; try discriminate.
  injection Hdec as <- <-.
  pose proof (DecodeInts_length _ _ _ _ Ei) as Hlen.
  pose proof (DecodeInts_consumes _ _ _ _ Ei) as Hcons.
  pose proof (DecodeRows_rows _ _ _ _ Er) as Hrows.
  pose proof (DecodeRows_count _ _ _ _ Er) as Hcount.
  assert (Hall : Forall (fun row => length row = Z.to_nat (Dim c)) rows).
  { eapply Forall_impl; [exact Hrows|]. cbv beta. intros r [Hr _]. exact Hr. }
  destruct (float_sums_shape c (Z.to_nat (Dim c)) rows (map (unscale c) row))
    as [Hl Hf]; [rewrite length_map; exact Hlen | exact Hall |].
  split; [discriminate|]. split; [|split; [reflexivity|]].
  - apply Forall_cons_2.
    + unfold len. rewrite length_map, Hlen. lia.
    + eapply Forall_impl; [exact Hf|]. cbv beta. unfold len. intros; lia.
  - unfold len. cbn [length]. rewrite Hl. nia.
Qed.

Lemma DecodeCoords_result_shape_witness :
  1 <= Dim defaultCodec
  /\ (exists coords, DecodeCoords defaultCodec published
                     = Some (Ok (coords, [])))
  /\ forall coords rest,
      DecodeCoords defaultCodec published = Some (Ok (coords, rest)) ->
      Forall (fun coord => len coord = Dim defaultCodec) coords.
Proof.
  assert (Hd : 1 <= Dim defaultCodec) by by_compute.
  split; [exact Hd|]. split.
  - exists three_points. by_compute.
  - intros coords rest Hdec.
    exact (proj1 (proj2 (DecodeCoords_result_shape defaultCodec published
                           coords rest Hd Hdec))).
Defined.

(** X13. [DecodeFlatCoords] appends: for a destination whose length is a
    multiple of [Dim] it returns the destination followed by what it decodes
    into an empty one, and fails as it does there.  What it decodes consumes
    the whole buffer, is a multiple of [Dim] long, and has no more values
    than the buffer has bytes. *)
Theorem DecodeFlatCoords_appends {F : Type} `{Float64Ops F}
        (c : Codec F) (dest : list F) (buf : list byte)
        (Hdim : 1 <= Dim c) (Hrem : Z.rem (len dest) (Dim c) = 0) :
  DecodeFlatCoords c dest buf =
  match DecodeFlatCoords c [] buf with
  | Some (Ok (flat, rest)) => Some (Ok (dest ++ flat, rest))
  | other => other
  end
  /\ forall flat rest,
      DecodeFlatCoords c [] buf = Some (Ok (flat, rest)) ->
      rest = [] /\ Z.rem (len flat) (Dim c) = 0 /\ len flat <= len buf.
Proof.
  assert (Hnil : Z.rem (len (@nil F)) (Dim c) = 0).
  { unfold len. cbn [length Z.of_nat]. apply Z.rem_0_l. lia. }
  rewrite (DecodeFlatCoords_view c dest buf Hdim Hrem).
  rewrite (DecodeFlatCoords_view c [] buf Hdim Hnil).
  destruct (DecodeRows _ _ buf) as [[rows| |]|] eqn:Er; cbn [app].
  - split; [reflexivity|]. intros flat rest [= <- <-].
    pose proof (DecodeRows_rows _ _ _ _ Er) as Hrows.
    pose proof (DecodeRows_count _ _ _ _ Er) as Hcount.
    assert (Hall : Forall (fun row => length row = Z.to_nat (Dim c)) rows).
    { eapply Forall_impl; [exact Hrows|]. cbv beta. intros r [Hr _].
      exact Hr. }
    destruct (int_sums_shape (Z.to_nat (Dim c)) rows
                (replicate (Z.to_nat (Dim c)) 0))
      as [Hl Hf]; [apply length_replicate | exact Hall |].
    split; [reflexivity|]. unfold len. rewrite length_map.
    rewrite (concat_length_uniform _ _ Hf), Hl. split.
    + rewrite Nat2Z.inj_mul, Z2Nat.id by lia. apply Z.rem_mul. lia.
    + lia.
  - split; [reflexivity|]. discriminate.
  - split; [reflexivity|]. discriminate.
  - split; [reflexivity|]. discriminate.
Qed.

Lemma DecodeFlatCoords_appends_witness :
  1 <= Dim defaultCodec
  /\ Z.rem (len [1; 2]%float) (Dim defaultCodec) = 0
  /\ DecodeFlatCoords defaultCodec [1; 2]%float published
     = Some (Ok ([1; 2]%float ++ concat three_points, [])).
Proof.
  assert (Hd : 1 <= Dim defaultCodec) by by_compute.
  assert (Hr : Z.rem (len [1; 2]%float) (Dim defaultCodec) = 0)
    by reflexivity.
  split; [exact Hd|]. split; [exact Hr|].
  rewrite (proj1 (DecodeFlatCoords_appends defaultCodec [1; 2]%float
                    published Hd Hr)).
  by_compute.
Defined.

(** X14. On a non-empty buffer the two decoders fail alike: [DecodeCoords]
    returns an error exactly when [DecodeFlatCoords] into an empty
    destination returns it. *)
Theorem decoders_fail_alike {F : Type} `{Float64Ops F}
        (c : Codec F) (buf : list byte) (e : error)
        (Hdim : 1 <= Dim c) (Hne : buf <> []) :
  DecodeCoords c buf = Some (Err e)
  <-> DecodeFlatCoords c [] buf = Some (Err e).
Proof.
  assert (Hnil : Z.rem (len (@nil F)) (Dim c) = 0).
  { unfold len. cbn [length Z.of_nat]. apply Z.rem_0_l. lia. }
  rewrite DecodeCoords_view by lia.
  rewrite (DecodeFlatCoords_view c [] buf Hdim Hnil).
  rewrite (DecodeRows_first c buf Hdim Hne).
  destruct (DecodeInts _ buf) as [[row buf']| |];
    [|split; intros; congruence..].
  destruct (DecodeRows _ _ buf') as [[rows| |]|];
    split; intros; congruence.
Qed.

Lemma decoders_fail_alike_witness :
  1 <= Dim defaultCodec
  /\ list_byte_of_string "_p~iF~ps|U_ulL" <> []
  /\ DecodeFlatCoords defaultCodec [] (list_byte_of_string "_p~iF~ps|U_ulL")
     = Some (Err errUnterminatedSequence).
Proof.
  assert (Hd : 1 <= Dim defaultCodec) by by_compute.
  assert (Hn : list_byte_of_string "_p~iF~ps|U_ulL" <> []) by by_compute.
  split; [exact Hd|]. split; [exact Hn|].
  apply (decoders_fail_alike defaultCodec _ errUnterminatedSequence Hd Hn).
  by_compute.
Defined.

(** X15. On any arithmetic the two decoders succeed alike: when one returns
    values so does the other, with the same first coordinate and as many
    values in all. *)
Theorem decoders_succeed_alike {F : Type} `{Float64Ops F}
        (c : Codec F) (buf : list byte) (Hdim : 1 <= Dim c)
        (Hne : buf <> []) :
  (forall coords rest,
      DecodeCoords c buf = Some (Ok (coords, rest)) ->
      exists first others tail,
        coords = first :: others
        /\ DecodeFlatCoords c [] buf = Some (Ok (first ++ tail, rest))
        /\ length tail = length (concat others))
  /\ (forall flat rest,
         DecodeFlatCoords c [] buf = Some (Ok (flat, rest)) ->
         exists first others tail,
           flat = first ++ tail
           /\ DecodeCoords c buf = Some (Ok (first :: others, rest))
           /\ length tail = length (concat others)).
Proof.
  assert (Hnil : Z.rem (len (@nil F)) (Dim c) = 0).
  { unfold len. cbn [length Z.of_nat]. apply Z.rem_0_l. lia. }
  rewrite DecodeCoords_view by lia.
  rewrite (DecodeFlatCoords_view c [] buf Hdim Hnil).
  rewrite (DecodeRows_first c buf Hdim Hne).
  destruct (DecodeInts _ buf) as [[row buf']| |] eqn:Ei;
    [|split; intros; discriminate..].
  pose proof (DecodeInts_length _ _ _ _ Ei) as Hlen.
  pose proof (DecodeInts_is_int _ _ _ _ Ei) as Hint.
  destruct (DecodeRows _ _ buf') as [[rows| |]|];
    [|split; intros; discriminate..].
  assert (Hflat : map (unscale c)
                    (concat (int_sums (replicate (Z.to_nat (Dim c)) 0)
                                      (row :: rows)))
                  = map (unscale c) row
                    ++ map (unscale c) (concat (int_sums row rows))).
  { rewrite <- Hlen, int_sums_first by exact Hint.
    cbn [concat]. apply map_app. }
  assert (Hcount : length (map (unscale c) (concat (int_sums row rows)))
                   = length (concat (float_sums c (map (unscale c) row)
                                                rows))).
  { rewrite length_map. symmetry. apply sums_same_count.
    apply length_map. }
  cbn [app]. rewrite Hflat.
  split.
  - intros coords rest [= <- <-]. eexists _, _, _.
    split; [reflexivity|]. split; [reflexivity|]. exact Hcount.
  - intros flat rest [= <- <-]. eexists _, _, _.
    split; [reflexivity|]. split; [reflexivity|]. exact Hcount.
Qed.

Lemma decoders_succeed_alike_witness :
  1 <= Dim defaultCodec /\ published <> []
  /\ exists tail,
      DecodeFlatCoords defaultCodec [] published
      = Some (Ok ([38.5; -120.2]%float ++ tail, []))
      /\ length tail = 4%nat.
Proof.
  assert (Hd : 1 <= Dim defaultCodec) by by_compute.
  assert (Hn : published <> []) by by_compute.
  split; [exact Hd|]. split; [exact Hn|].
  assert (Hdec : DecodeCoords defaultCodec published
                 = Some (Ok (three_points, []))) by by_compute.
  destruct (proj1 (decoders_succeed_alike defaultCodec published Hd Hn)
              three_points [] Hdec)
    as (first & others & tail & Hc & Hf & Hl).
  injection Hc as <- <-. exists tail. split; [exact Hf|exact Hl].
Defined.

(** ** The flat round trip *)

Section FlatRoundTrip.

Context {F : Type} `{Float64Ops F}.
Variable c : Codec F.

Lemma int_add_int_sub l r : is_int r -> int_add l (int_sub r l) = r.
Proof.
  intros Hr. unfold int_add, int_sub.
  destruct (to_int_eq_mod (r - l)) as [k Hk]. rewrite Hk.
  transitivity (to_int r); [|apply to_int_small; exact Hr].
  apply (to_int_congr _ _ k). lia.
Qed.

Lemma zip_with_int_add_int_sub row : forall last,
  length row = length last -> Forall is_int row ->
  zip_with int_add last (zip_with int_sub row last) = row.
Proof.
  induction row as [|r row IH]; intros last Hl Hint;
    destruct last as [|l last]; try discriminate; [reflexivity|].
  apply Forall_cons_1 in Hint as [Hr Hint]. cbn [length] in Hl.
  cbn [zip_with]. rewrite int_add_int_sub by exact Hr.
  rewrite IH by (assumption || lia). reflexivity.
Qed.

(** The running [int] sums of [DecodeFlatCoords] undo the deltas of the
    encoders. *)
Lemma int_sums_delta_rows n rows : forall last,
  length last = n ->
  Forall (fun row => length row = n /\ Forall is_int row) rows ->
  int_sums last (delta_rows last rows) = rows.
Proof.
  induction rows as [|row rest IH]; intros last Hl Hall;
    cbn [delta_rows int_sums]; [reflexivity|].
  apply Forall_cons_1 in Hall as [[Hrow Hint] Hrest]. cbv zeta.
  rewrite zip_with_int_add_int_sub by (assumption || lia).
  rewrite IH by assumption. reflexivity.
Qed.

Lemma flat_round_trip_rows coords dest :
  1 <= Dim c ->
  Forall (fun coord => length coord = Z.to_nat (Dim c)) coords ->
  Forall (fun coord => Forall small (scaled c coord)) coords ->
  Z.rem (len dest) (Dim c) = 0 ->
  exists bytes,
    EncodeFlatCoords c [] (concat coords) = Ok bytes
    /\ DecodeFlatCoords c dest bytes
       = Some (Ok (dest ++ map (unscale c) (scaled c (concat coords)), [])).
Proof.
  intros Hd Hshape Hsmall Hdest.
  set (n := Z.to_nat (Dim c)).
  assert (Hn : (1 <= n)%nat) by (unfold n; lia).
  set (rows := map (scaled c) coords).
  assert (Hrows : Forall (fun row => length row = n) rows).
  { unfold rows. apply Forall_map. eapply Forall_impl; [exact Hshape|].
    cbv beta. intros coord Hc. rewrite scaled_length. exact Hc. }
  assert (Hrsmall : Forall (Forall small) rows).
  { unfold rows. apply Forall_map. exact Hsmall. }
  assert (Hzeros : Forall small (replicate n 0)).
  { apply Forall_replicate. unfold small, max_scaled.
    change (2 ^ 62 - 1) with 4611686018427387903. lia. }
  set (deltas := delta_rows (replicate n 0) rows).
  assert (Hdl : Forall (fun row => length row = n) deltas).
  { unfold deltas.
    apply delta_rows_length; [apply length_replicate | exact Hrows]. }
  assert (Hdv : Forall (Forall valid_delta) deltas).
  { unfold deltas. apply delta_rows_valid; assumption. }
  exists (EncodeInts (concat deltas)). split.
  - rewrite (EncodeFlatCoords_rows c [] coords Hd Hshape). reflexivity.
  - rewrite (DecodeFlatCoords_view c dest _ Hd Hdest). fold n.
    rewrite (DecodeRows_EncodeInts n deltas _ Hn Hdl Hdv)
      by (apply (rows_bytes_length n); assumption).
    unfold deltas. rewrite (int_sums_delta_rows n).
    + unfold rows, scaled. rewrite <- concat_map. reflexivity.
    + apply length_replicate.
    + apply Forall_forall. intros row Hin. split.
      * exact (proj1 (Forall_forall _ _) Hrows row Hin).
      * eapply Forall_impl;
          [exact (proj1 (Forall_forall _ _) Hrsmall row Hin)|].
        exact small_is_int.
Qed.

Lemma flat_small_groups (ls : list (list F)) :
  Forall small (scaled c (concat ls)) ->
  Forall (fun coord => Forall small (scaled c coord)) ls.
Proof.
  induction ls as [|l ls IH]; intros Hs; [constructor|].
  cbn [concat] in Hs. unfold scaled in Hs. rewrite map_app in Hs.
  apply Forall_app in Hs as [Hl Hls].
  apply Forall_cons_2; [exact Hl | apply IH; exact Hls].
Qed.

End FlatRoundTrip.

(** X16. Round trip of the flat functions, on any arithmetic.  For a flat
    array of a multiple of [Dim] components whose scaled and rounded values
    lie within [2^62 - 1] of zero, [DecodeFlatCoords] on the bytes of
    [EncodeFlatCoords] appends to the destination exactly
    [float64(round(Scale * x)) / Scale] for each component [x], and consumes
    every byte: the integer accumulator adds no error of its own. *)
Theorem flat_round_trip {F : Type} `{Float64Ops F}
        (c : Codec F) (flat dest : list F)
        (Hdim : 1 <= Dim c)
        (Hflat : Z.rem (len flat) (Dim c) = 0)
        (Hdest : Z.rem (len dest) (Dim c) = 0)
        (Hsmall : Forall small (scaled c flat)) :
  exists bytes,
    EncodeFlatCoords c [] flat = Ok bytes
    /\ DecodeFlatCoords c dest bytes
       = Some (Ok (dest ++ map (fun x => unscale c (round (f_mul (Scale c) x)))
                               flat, [])).
Proof.
  destruct (flat_groups c flat Hdim Hflat) as (ls & -> & Hshape).
  destruct (flat_round_trip_rows c ls dest Hdim Hshape
              (flat_small_groups c ls Hsmall) Hdest) as (bytes & He & Hd).
  exists bytes. split; [exact He|]. rewrite Hd. unfold scaled.
  rewrite map_map. reflexivity.
Qed.

Lemma flat_round_trip_witness :
  1 <= Dim defaultCodec
  /\ Z.rem (len (concat three_points)) (Dim defaultCodec) = 0
  /\ Forall small (scaled defaultCodec (concat three_points))
  /\ exists bytes,
      EncodeFlatCoords defaultCodec [] (concat three_points) = Ok bytes
      /\ DecodeFlatCoords defaultCodec [] bytes
         = Some (Ok (concat three_points, [])).
Proof.
  assert (Hd : 1 <= Dim defaultCodec) by by_compute.
  assert (Hf : Z.rem (len (concat three_points)) (Dim defaultCodec) = 0)
    by reflexivity.
  assert (Hn : Z.rem (len (@nil float)) (Dim defaultCodec) = 0)
    by reflexivity.
  assert (Hs : Forall small (scaled defaultCodec (concat three_points))).
  { unfold scaled, three_points. cbn [concat app map].
    repeat (apply Forall_cons_2;
            [vm_compute; repeat split; intro; discriminate|]).
    apply Forall_nil_2. }
  split; [exact Hd|]. split; [exact Hf|]. split; [exact Hs|].
  destruct (flat_round_trip defaultCodec (concat three_points) [] Hd Hf Hn Hs)
    as (bytes & He & Hdec).
  exists bytes. split; [exact He|]. rewrite Hdec. by_compute.
Defined.

(** ** Bytes the decoders accept *)

Section AcceptedBytes.

Lemma terminals_app pre rest :
  terminals (pre ++ rest) = (terminals pre + terminals rest)%nat.
Proof.
  induction pre as [|b pre IH]; [reflexivity|].
  cbn [app terminals]. rewrite IH. lia.
Qed.

Lemma terminals_continuation cs :
  Forall (fun b => is_continuation b = true) cs -> terminals cs = 0%nat.
Proof.
  induction 1 as [|b cs Hb Hcs IH]; [reflexivity|].
  cbn [terminals]. rewrite IH.
  destruct (is_terminal b) eqn:Et; [|reflexivity].
  apply (proj2 (proj2 (byte_classes b))) in Et. congruence.
Qed.

Lemma continuation_not_invalid cs :
  Forall (fun b => is_continuation b = true) cs ->
  ~ Exists invalid_byte cs.
Proof.
  intros Hcs Hex. apply Exists_exists in Hex as (b & Hin & Hc & _).
  pose proof (proj1 (Forall_forall _ _) Hcs b Hin) as Hb. cbv beta in Hb.
  congruence.
Qed.

(** What a run of [DecodeUint] has gone through when it returns. *)
Lemma DecodeUint_loop_scan buf : forall u s,
  match DecodeUint_loop u s buf with
  | Ok (v, rest) =>
      exists cs t, buf = cs ++ t :: rest
                   /\ Forall (fun b => is_continuation b = true) cs
                   /\ is_terminal t = true
  | Err e =>
      (e = errUnterminatedSequence
       /\ Forall (fun b => is_continuation b = true) buf)
      \/ (e = errInvalidByte
          /\ exists cs b rest, buf = cs ++ b :: rest
                               /\ Forall (fun b => is_continuation b = true) cs
                               /\ invalid_byte b)
  | Panic _ => False
  end.
Proof.
  induction buf as [|b tl IH]; intros u s; cbn [DecodeUint_loop].
  - left. split; [reflexivity|constructor].
  - cbv zeta. destruct (byte_classes b) as (Ht & Hc & _). cbv zeta in Ht, Hc.
    rewrite Ht, Hc.
    destruct (is_terminal b) eqn:Et.
    + exists [], b. split; [reflexivity|]. split; [constructor|exact Et].
    + destruct (is_continuation b) eqn:Ec.
      * specialize (IH (uint_add u (uint_shl (uint_sub (byte_val b) 95) s))
                       (uint_add s 5)).
        destruct (DecodeUint_loop _ _ tl) as [[v rest]|e|p].
        -- destruct IH as (cs & t & -> & Hcs & Hterm).
           exists (b :: cs), t. split; [reflexivity|].
           split; [apply Forall_cons_2; assumption | exact Hterm].
        -- destruct IH as [[-> Hall]|[-> (cs & x & rest & -> & Hcs & Hx)]].
           ++ left. split; [reflexivity | apply Forall_cons_2; assumption].
           ++ right. split; [reflexivity|].
              exists (b :: cs), x, rest. split; [reflexivity|].
              split; [apply Forall_cons_2; assumption | exact Hx].
        -- exact IH.
      * right. split; [reflexivity|].
        exists [], b, tl. split; [reflexivity|].
        split; [constructor | split; assumption].
Qed.

Lemma DecodeInt_scan buf :
  match DecodeInt buf with
  | Ok (v, rest) =>
      exists cs t, buf = cs ++ t :: rest
                   /\ Forall (fun b => is_continuation b = true) cs
                   /\ is_terminal t = true
  | Err e =>
      (e = errUnterminatedSequence
       /\ Forall (fun b => is_continuation b = true) buf)
      \/ (e = errInvalidByte
          /\ exists cs b rest, buf = cs ++ b :: rest
                               /\ Forall (fun b => is_continuation b = true) cs
                               /\ invalid_byte b)
  | Panic _ => False
  end.
Proof.
  pose proof (DecodeUint_loop_scan buf 0 0) as Hs.
  unfold DecodeInt, DecodeUint.
  destruct (DecodeUint_loop 0 0 buf) as [[u rest]|e|p]; [|exact Hs..].
  destruct (Z.land u 1 =? 0); exact Hs.
Qed.

(** The bytes [DecodeInts] goes through hold one terminal byte for each
    value and no invalid byte; an error names what stopped it. *)
Lemma DecodeInts_scan n : forall buf,
  match DecodeInts n buf with
  | Ok (js, rest) =>
      exists pre, buf = pre ++ rest /\ terminals pre = n
                  /\ ~ Exists invalid_byte pre
  | Err e =>
      (e = errUnterminatedSequence /\ ~ Exists invalid_byte buf)
      \/ (e = errInvalidByte /\ Exists invalid_byte buf)
  | Panic _ => False
  end.
Proof.
  induction n as [|n IH]; intros buf; cbn [DecodeInts].
  - exists []. split; [reflexivity|]. split; [reflexivity|].
    intros Hex. inversion Hex.
  - pose proof (DecodeInt_scan buf) as Hs.
    destruct (DecodeInt buf) as [[j b1]|e|p]; [| |exact Hs].
    + destruct Hs as (cs & t & -> & Hcs & Ht).
      assert (Hrun : ~ Exists invalid_byte (cs ++ [t])).
      { intros Hex. apply Exists_app in Hex as [Hex|Hex].
        - exact (continuation_not_invalid cs Hcs Hex).
        - apply Exists_cons in Hex as [[_ Hx]|Hex]; [congruence|].
          inversion Hex. }
      specialize (IH b1).
      destruct (DecodeInts n b1) as [[js b2]|e|p]; [| |exact IH].
      * destruct IH as (pre & -> & Hpre & Hvalid).
        exists ((cs ++ [t]) ++ pre). split.
        { rewrite <- !app_assoc. reflexivity. }
        split.
        { rewrite !terminals_app, terminals_continuation by exact Hcs.
          cbn [terminals]. rewrite Ht, Hpre. lia. }
        intros Hex. apply Exists_app in Hex as [Hex|Hex]; tauto.
      * replace (cs ++ t :: b1) with ((cs ++ [t]) ++ b1)
          by (rewrite <- app_assoc; reflexivity).
        destruct IH as [[-> Hvalid]|[-> Hinv]].
        -- left. split; [reflexivity|]. intros Hex.
           apply Exists_app in Hex as [Hex|Hex]; tauto.
        -- right. split; [reflexivity|]. apply Exists_app. right. exact Hinv.
    + destruct Hs as [[-> Hall]|[-> (cs & x & rest & -> & Hcs & Hx)]].
      * left. split; [reflexivity|]. apply continuation_not_invalid.
        exact Hall.
      * right. split; [reflexivity|]. apply Exists_app. right.
        apply Exists_cons_hd. exact Hx.
Qed.

Lemma DecodeRows_scan fuel n : forall buf,
  match DecodeRows fuel n buf with
  | Some (Ok rows) =>
      terminals buf = (length rows * n)%nat /\ ~ Exists invalid_byte buf
  | Some (Err e) =>
      (e = errUnterminatedSequence /\ ~ Exists invalid_byte buf)
      \/ (e = errInvalidByte /\ Exists invalid_byte buf)
  | Some (Panic _) => False
  | None => True
  end.
Proof.
  induction fuel as [|fuel IH]; intros buf; destruct buf as [|b tl];
    cbn [DecodeRows]; try exact I.
  - split; [reflexivity|]. intros Hex. inversion Hex.
  - split; [reflexivity|]. intros Hex. inversion Hex.
  - pose proof (DecodeInts_scan n (b :: tl)) as Hs.
    destruct (DecodeInts n (b :: tl)) as [[row buf']|e|p];
      [|exact Hs..].
    destruct Hs as (pre & -> & Hpre & Hvalid).
    pose proof (DecodeInts_length n (pre ++ buf')) as Hlen.
    specialize (IH buf').
    destruct (DecodeRows fuel n buf') as [[rows|e|p]|]; [| | exact IH | exact I].
    + destruct IH as [Hcount Hrest]. split.
      * rewrite terminals_app, Hpre, Hcount. cbn [length]. lia.
      * intros Hex. apply Exists_app in Hex as [Hex|Hex]; tauto.
    + destruct IH as [[-> Hrest]|[-> Hinv]].
      * left. split; [reflexivity|]. intros Hex.
        apply Exists_app in Hex as [Hex|Hex]; tauto.
      * right. split; [reflexivity|]. apply Exists_app. right. exact Hinv.
Qed.

End AcceptedBytes.

Section Acceptance.

Context {F : Type} `{Float64Ops F}.
Variable c : Codec F.

Lemma float_sums_length rows : forall prev,
  length (float_sums c prev rows) = length rows.
Proof.
  induction rows as [|row rest IH]; intros prev; cbn [float_sums length];
    [reflexivity|].
  cbv zeta. rewrite IH. reflexivity.
Qed.

Lemma DecodeRows_total fuel n : forall buf,
  (1 <= n)%nat -> (length buf <= fuel)%nat -> DecodeRows fuel n buf <> None.
Proof.
  induction fuel as [|fuel IH]; intros buf Hn Hf; destruct buf as [|b tl];
    cbn [DecodeRows]; try discriminate.
  - cbn [length] in Hf. lia.
  - destruct (DecodeInts n (b :: tl)) as [[row buf']| |] eqn:Ei;
      try discriminate.
    apply DecodeInts_consumes in Ei. cbn [length] in *.
    specialize (IH buf' Hn ltac:(lia)).
    destruct (DecodeRows fuel n buf') as [[rows| |]|]; congruence.
Qed.

Lemma DecodeInts_short n : forall buf,
  DecodeInts n buf = Err errUnterminatedSequence ->
  (terminals buf < n)%nat.
Proof.
  induction n as [|n IH]; intros buf; cbn [DecodeInts]; [discriminate|].
  pose proof (DecodeInt_scan buf) as Hs.
  destruct (DecodeInt buf) as [[j b1]|e|p]; [| |discriminate].
  - destruct Hs as (cs & t & -> & Hcs & Ht). specialize (IH b1).
    destruct (DecodeInts n b1) as [[js b2]|e|p]; try discriminate.
    intros [= ->]. specialize (IH eq_refl).
    rewrite terminals_app, terminals_continuation by exact Hcs.
    cbn [terminals]. rewrite Ht. lia.
  - intros [= ->].
    destruct Hs as [[_ Hall]|[Hcontra _]]; [|discriminate].
    rewrite terminals_continuation by exact Hall. lia.
Qed.

Lemma DecodeInts_ends n : forall buf js rest,
  DecodeInts (S n) buf = Ok (js, rest) ->
  exists pre t, buf = (pre ++ [t]) ++ rest /\ is_terminal t = true.
Proof.
  induction n as [|n IH]; intros buf js rest.
  - cbn [DecodeInts]. pose proof (DecodeInt_scan buf) as Hs.
    destruct (DecodeInt buf) as [[j b1]|e|p]; try discriminate.
    destruct Hs as (cs & t & -> & _ & Ht). intros [= <- <-].
    exists cs, t. split; [rewrite <- app_assoc; reflexivity | exact Ht].
  - change (DecodeInts (S (S n)) buf)
      with (match DecodeInt buf with
            | Ok (j, buf1) =>
                match DecodeInts (S n) buf1 with
                | Ok (js, buf2) => Ok (j :: js, buf2)
                | Err e => Err e
                | Panic p => Panic p
                end
            | Err e => Err e
            | Panic p => Panic p
            end).
    pose proof (DecodeInt_scan buf) as Hs.
    destruct (DecodeInt buf) as [[j b1]|e|p]; try discriminate.
    destruct Hs as (cs & t & -> & _ & _).
    destruct (DecodeInts (S n) b1) as [[js' b2]|e|p] eqn:Ei;
      try discriminate.
    intros [= <- <-]. destruct (IH _ _ _ Ei) as (pre & t' & -> & Ht').
    exists (cs ++ t :: pre), t'. split; [|exact Ht'].
    rewrite <- !app_assoc. reflexivity.
Qed.

Lemma terminals_none_last buf :
  buf <> [] -> terminals buf = 0%nat ->
  exists pre b, buf = pre ++ [b] /\ is_terminal b = false.
Proof.
  intros Hne Hz. destruct (exists_last Hne) as (pre & b & ->).
  exists pre, b. split; [reflexivity|].
  rewrite terminals_app in Hz. cbn [terminals] in Hz.
  destruct (is_terminal b); [lia | reflexivity].
Qed.

(** A buffer the decoding loops go through to its end: no invalid byte, a
    terminal byte last, and a multiple of [n] values. *)
Lemma DecodeRows_accepted fuel n : forall buf rows,
  (1 <= n)%nat -> DecodeRows fuel n buf = Some (Ok rows) ->
  buf = [] \/ exists pre t, buf = pre ++ [t] /\ is_terminal t = true.
Proof.
  induction fuel as [|fuel IH]; intros buf rows Hn; destruct buf as [|b tl];
    cbn [DecodeRows]; try discriminate; try (intros _; left; reflexivity).
  destruct n as [|n]; [lia|].
  destruct (DecodeInts (S n) (b :: tl)) as [[row buf']| |] eqn:Ei;
    try discriminate.
  destruct (DecodeInts_ends _ _ _ _ Ei) as (pre & t & -> & Ht).
  destruct (DecodeRows fuel (S n) buf') as [[rows'| |]|] eqn:Er;
    try discriminate.
  intros _. right. destruct (IH _ _ Hn Er) as [->|(pre' & t' & -> & Ht')].
  - exists pre, t. rewrite app_nil_r. split; [reflexivity|exact Ht].
  - exists ((pre ++ [t]) ++ pre'), t'. rewrite <- !app_assoc.
    split; [reflexivity|exact Ht'].
Qed.

Lemma DecodeRows_rejected fuel n : forall buf,
  (1 <= n)%nat ->
  DecodeRows fuel n buf = Some (Err errUnterminatedSequence) ->
  (terminals buf mod n <> 0)%nat
  \/ exists pre b, buf = pre ++ [b] /\ is_terminal b = false.
Proof.
  induction fuel as [|fuel IH]; intros buf Hn; destruct buf as [|b tl];
    cbn [DecodeRows]; try discriminate.
  pose proof (DecodeInts_scan n (b :: tl)) as Hs.
  destruct (DecodeInts n (b :: tl)) as [[row buf']|e|p] eqn:Ei;
    try discriminate.
  - destruct Hs as (pre & Hbuf & Hpre & _). rewrite Hbuf.
    destruct (DecodeRows fuel n buf') as [[rows'| |]|] eqn:Er;
      try discriminate.
    intros [= ->]. destruct (IH _ Hn Er) as [Hmod|(pre' & b' & -> & Hb')].
    + left. rewrite terminals_app, Hpre.
      replace (n + terminals buf')%nat with (terminals buf' + 1 * n)%nat
        by lia.
      rewrite Nat.Div0.mod_add. exact Hmod.
    + right. exists (pre ++ pre'), b'. rewrite <- app_assoc.
      split; [reflexivity|exact Hb'].
  - intros [= ->]. apply DecodeInts_short in Ei.
    destruct (terminals (b :: tl)) as [|k] eqn:Ek.
    + right. apply terminals_none_last; [discriminate|exact Ek].
    + left. rewrite Nat.mod_small by lia. lia.
Qed.

(** The three outcomes of the decoding loops, told apart by the bytes. *)
Lemma DecodeRows_outcomes n buf :
  (1 <= n)%nat ->
  (Exists invalid_byte buf
   /\ DecodeRows (length buf) n buf = Some (Err errInvalidByte))
  \/ (~ Exists invalid_byte buf
      /\ ((terminals buf mod n <> 0)%nat
          \/ exists pre b, buf = pre ++ [b] /\ is_terminal b = false)
      /\ DecodeRows (length buf) n buf = Some (Err errUnterminatedSequence))
  \/ (~ Exists invalid_byte buf
      /\ (buf = [] \/ exists pre t, buf = pre ++ [t] /\ is_terminal t = true)
      /\ exists rows, DecodeRows (length buf) n buf = Some (Ok rows)
                      /\ terminals buf = (length rows * n)%nat).
Proof.
  intros Hn.
  pose proof (DecodeRows_scan (length buf) n buf) as Hs.
  pose proof (DecodeRows_total (length buf) n buf Hn (le_n _)) as Ht.
  destruct (DecodeRows (length buf) n buf) as [[rows|e|p]|] eqn:Er;
    [| |destruct Hs|congruence].
  - right. right. destruct Hs as [Hcount Hvalid].
    split; [exact Hvalid|]. split.
    + exact (DecodeRows_accepted _ _ _ _ Hn Er).
    + exists rows. split; [reflexivity|exact Hcount].
  - destruct Hs as [[-> Hvalid]|[-> Hinv]].
    + right. left. split; [exact Hvalid|]. split; [|reflexivity].
      exact (DecodeRows_rejected _ _ _ Hn Er).
    + left. split; [exact Hinv|reflexivity].
Qed.

(** The two cases of [DecodeRows_outcomes] without an invalid byte exclude
    each other. *)
Lemma rejected_not_accepted n buf (rows : list (list Z)) :
  (terminals buf mod n <> 0)%nat
  \/ (exists pre b, buf = pre ++ [b] /\ is_terminal b = false) ->
  buf = [] \/ (exists pre t, buf = pre ++ [t] /\ is_terminal t = true) ->
  terminals buf = (length rows * n)%nat -> False.
Proof.
  intros [Hmod|(pre & b & Hb & Hnt)] Hacc Hcount.
  - rewrite Hcount, Nat.Div0.mod_mul in Hmod. congruence.
  - destruct Hacc as [->|(pre' & t & Ht & Hterm)].
    + destruct pre; discriminate.
    + rewrite Hb in Ht. apply app_inj_tail in Ht as [_ ->]. congruence.
Qed.

(** [DecodeCoords] on a non-empty buffer, through [DecodeRows]. *)
Lemma DecodeCoords_rows_outcome buf :
  1 <= Dim c -> buf <> [] ->
  match DecodeRows (length buf) (Z.to_nat (Dim c)) buf with
  | Some (Ok rows) =>
      exists coords, DecodeCoords c buf = Some (Ok (coords, []))
                     /\ length coords = length rows
  | Some (Err e) => DecodeCoords c buf = Some (Err e)
  | Some (Panic p) => DecodeCoords c buf = Some (Panic p)
  | None => DecodeCoords c buf = None
  end.
Proof.
  intros Hd Hne. rewrite DecodeCoords_view by lia.
  rewrite (DecodeRows_first c buf Hd Hne).
  destruct (DecodeInts _ buf) as [[row buf']| |]; try reflexivity.
  destruct (DecodeRows _ _ buf') as [[rows| |]|]; try reflexivity.
  eexists. split; [reflexivity|]. cbn [length].
  rewrite float_sums_length. reflexivity.
Qed.

Lemma DecodeCoords_empty : 1 <= Dim c ->
  DecodeCoords c [] = Some (Err errUnterminatedSequence).
Proof.
  intros Hd. rewrite DecodeCoords_view by lia.
  destruct (Z.to_nat (Dim c)) as [|n] eqn:En; [lia|]. reflexivity.
Qed.

Lemma DecodeFlatCoords_rows_outcome dest buf :
  1 <= Dim c -> Z.rem (len dest) (Dim c) = 0 ->
  match DecodeRows (length buf) (Z.to_nat (Dim c)) buf with
  | Some (Ok rows) =>
      exists flat, DecodeFlatCoords c dest buf = Some (Ok (dest ++ flat, []))
                   /\ length flat = (length rows * Z.to_nat (Dim c))%nat
  | Some (Err e) => DecodeFlatCoords c dest buf = Some (Err e)
  | Some (Panic p) => DecodeFlatCoords c dest buf = Some (Panic p)
  | None => DecodeFlatCoords c dest buf = None
  end.
Proof.
  intros Hd Hrem. rewrite (DecodeFlatCoords_view c dest buf Hd Hrem).
  destruct (DecodeRows _ _ buf) as [[rows| |]|] eqn:Er; try reflexivity.
  eexists. split; [reflexivity|]. rewrite length_map.
  pose proof (DecodeRows_rows _ _ _ _ Er) as Hrows.
  assert (Hall : Forall (fun row => length row = Z.to_nat (Dim c)) rows).
  { eapply Forall_impl; [exact Hrows|]. cbv beta. intros r [Hr _]. exact Hr. }
  destruct (int_sums_shape (Z.to_nat (Dim c)) rows
              (replicate (Z.to_nat (Dim c)) 0))
    as [Hl Hf]; [apply length_replicate | exact Hall |].
  rewrite (concat_length_uniform _ _ Hf), Hl. reflexivity.
Qed.

End Acceptance.

Section Outcomes.

Context {F : Type} `{Float64Ops F}.
Variable c : Codec F.

Lemma rem_terminals (t : nat) :
  1 <= Dim c ->
  Z.rem (Z.of_nat t) (Dim c) = 0 <-> (t mod Z.to_nat (Dim c) = 0)%nat.
Proof.
  intros Hd. rewrite Z.rem_mod_nonneg by lia.
  rewrite <- (Z2Nat.id (Dim c)) at 1 by lia.
  rewrite <- Nat2Z.inj_mod. lia.
Qed.

Lemma cut_short_not_whole buf :
  1 <= Dim c -> cut_short (Dim c) buf ->
  Z.rem (Z.of_nat (terminals buf)) (Dim c) = 0 ->
  buf = [] \/ ends_terminal buf -> False.
Proof.
  intros Hd [Hmod|(pre & b & Hb & Hnt)] Hrem Hacc; [congruence|].
  destruct Hacc as [->|(pre' & t & Ht & Hterm)].
  - destruct pre; discriminate.
  - rewrite Hb in Ht. apply app_inj_tail in Ht as [_ ->]. congruence.
Qed.

Lemma DecodeFlatCoords_outcomes dest buf :
  1 <= Dim c -> Z.rem (len dest) (Dim c) = 0 ->
  (Exists invalid_byte buf
   /\ DecodeFlatCoords c dest buf = Some (Err errInvalidByte))
  \/ (~ Exists invalid_byte buf /\ cut_short (Dim c) buf
      /\ DecodeFlatCoords c dest buf = Some (Err errUnterminatedSequence))
  \/ (~ Exists invalid_byte buf
      /\ (buf = [] \/ ends_terminal buf)
      /\ Z.rem (Z.of_nat (terminals buf)) (Dim c) = 0
      /\ exists flat,
          DecodeFlatCoords c dest buf = Some (Ok (dest ++ flat, []))
          /\ length flat = terminals buf).
Proof.
  intros Hd Hrem.
  assert (Hn : (1 <= Z.to_nat (Dim c))%nat) by lia.
  pose proof (DecodeFlatCoords_rows_outcome c dest buf Hd Hrem) as Hout.
  destruct (DecodeRows_outcomes (Z.to_nat (Dim c)) buf Hn)
    as [(Hinv & Hr)|[(Hv & Hcut & Hr)|(Hv & Hend & rows & Hr & Hcount)]];
    rewrite Hr in Hout.
  - left. split; assumption.
  - right. left. split; [exact Hv|]. split; [|exact Hout].
    destruct Hcut as [Hmod|Hlast]; [left|right; exact Hlast].
    rewrite rem_terminals by exact Hd. exact Hmod.
  - right. right. split; [exact Hv|]. split; [exact Hend|]. split.
    + apply rem_terminals; [exact Hd|]. rewrite Hcount.
      apply Nat.Div0.mod_mul.
    + destruct Hout as (flat & Hdec & Hlen). exists flat.
      split; [exact Hdec|]. lia.
Qed.

Lemma DecodeCoords_outcomes buf :
  1 <= Dim c ->
  (Exists invalid_byte buf
   /\ DecodeCoords c buf = Some (Err errInvalidByte))
  \/ (~ Exists invalid_byte buf /\ (buf = [] \/ cut_short (Dim c) buf)
      /\ DecodeCoords c buf = Some (Err errUnterminatedSequence))
  \/ (~ Exists invalid_byte buf
      /\ ends_terminal buf
      /\ Z.rem (Z.of_nat (terminals buf)) (Dim c) = 0
      /\ exists coords,
          DecodeCoords c buf = Some (Ok (coords, []))
          /\ Z.of_nat (length coords) * Dim c = Z.of_nat (terminals buf)).
Proof.
  intros Hd.
  assert (Hn : (1 <= Z.to_nat (Dim c))%nat) by lia.
  destruct buf as [|b tl].
  { right. left. split; [intros Hex; inversion Hex|].
    split; [left; reflexivity | apply DecodeCoords_empty; exact Hd]. }
  pose proof (DecodeCoords_rows_outcome c (b :: tl) Hd ltac:(discriminate))
    as Hout.
  destruct (DecodeRows_outcomes (Z.to_nat (Dim c)) (b :: tl) Hn)
    as [(Hinv & Hr)|[(Hv & Hcut & Hr)|(Hv & Hend & rows & Hr & Hcount)]];
    rewrite Hr in Hout.
  - left. split; assumption.
  - right. left. split; [exact Hv|]. split; [right|exact Hout].
    destruct Hcut as [Hmod|Hlast]; [left|right; exact Hlast].
    rewrite rem_terminals by exact Hd. exact Hmod.
  - right. right. split; [exact Hv|]. split.
    + destruct Hend as [Hnil|Hend]; [discriminate|exact Hend].
    + split.
      * apply rem_terminals; [exact Hd|]. rewrite Hcount.
        apply Nat.Div0.mod_mul.
      * destruct Hout as (coords & Hdec & Hlen). exists coords.
        split; [exact Hdec|]. rewrite Hcount, Hlen. lia.
Qed.

End Outcomes.

(** X19. The errors of the decoders, for a codec of dimension at least 1:
    the error is [errInvalidByte] exactly when the buffer holds a byte
    outside the two ranges of [DecodeUint], wherever it stands, and any
    other error is [errUnterminatedSequence]. *)
Theorem decoder_error_kinds {F : Type} `{Float64Ops F}
        (c : Codec F) (buf : list byte) (Hdim : 1 <= Dim c) :
  (DecodeCoords c buf = Some (Err errInvalidByte)
   <-> Exists invalid_byte buf)
  /\ (forall e, DecodeCoords c buf = Some (Err e) ->
                e = errInvalidByte \/ e = errUnterminatedSequence)
  /\ (forall dest,
         Z.rem (len dest) (Dim c) = 0 ->
         (DecodeFlatCoords c dest buf = Some (Err errInvalidByte)
          <-> Exists invalid_byte buf)
         /\ (forall e, DecodeFlatCoords c dest buf = Some (Err e) ->
                       e = errInvalidByte \/ e = errUnterminatedSequence)).
Proof.
  split; [|split].
  - destruct (DecodeCoords_outcomes c buf Hdim)
      as [(Hinv & Hr)|[(Hv & _ & Hr)|(Hv & _ & _ & coords & Hr & _)]];
      rewrite Hr; split; intros; try congruence; tauto.
  - intros e.
    destruct (DecodeCoords_outcomes c buf Hdim)
      as [(Hinv & Hr)|[(Hv & _ & Hr)|(Hv & _ & _ & coords & Hr & _)]];
      rewrite Hr; intros [= <-]; tauto.
  - intros dest Hrem. split.
    + destruct (DecodeFlatCoords_outcomes c dest buf Hdim Hrem)
        as [(Hinv & Hr)|[(Hv & _ & Hr)|(Hv & _ & _ & flat & Hr & _)]];
        rewrite Hr; split; intros; try congruence; tauto.
    + intros e.
      destruct (DecodeFlatCoords_outcomes c dest buf Hdim Hrem)
        as [(Hinv & Hr)|[(Hv & _ & Hr)|(Hv & _ & _ & flat & Hr & _)]];
        rewrite Hr; intros [= <-]; tauto.
Qed.

Lemma decoder_error_kinds_witness :
  1 <= Dim defaultCodec
  /\ DecodeCoords defaultCodec (list_byte_of_string " _p~iF~ps|U")
     = Some (Err errInvalidByte).
Proof.
  assert (Hd : 1 <= Dim defaultCodec) by by_compute.
  split; [exact Hd|].
  apply (proj1 (decoder_error_kinds defaultCodec _ Hd)).
  apply Exists_cons_hd. split; reflexivity.
Defined.

(** X20. The decoders return one value for each terminal byte of the
    buffer: [DecodeCoords] returns [terminals / Dim] coordinates, and
    [DecodeFlatCoords] appends [terminals] components to the destination. *)
Theorem decoded_value_count {F : Type} `{Float64Ops F}
        (c : Codec F) (buf : list byte) (Hdim : 1 <= Dim c) :
  (forall coords rest,
      DecodeCoords c buf = Some (Ok (coords, rest)) ->
      Z.of_nat (length coords) * Dim c = Z.of_nat (terminals buf))
  /\ (forall dest flat rest,
         Z.rem (len dest) (Dim c) = 0 ->
         DecodeFlatCoords c dest buf = Some (Ok (flat, rest)) ->
         len flat = len dest + Z.of_nat (terminals buf)).
Proof.
  split.
  - intros coords rest.
    destruct (DecodeCoords_outcomes c buf Hdim)
      as [(Hinv & Hr)|[(Hv & _ & Hr)|(Hv & _ & _ & coords' & Hr & Hc)]];
      rewrite Hr; try discriminate.
    intros [= <- <-]. exact Hc.
  - intros dest flat rest Hrem.
    destruct (DecodeFlatCoords_outcomes c dest buf Hdim Hrem)
      as [(Hinv & Hr)|[(Hv & _ & Hr)|(Hv & _ & _ & flat' & Hr & Hl)]];
      rewrite Hr; try discriminate.
    intros [= <- <-]. unfold len. rewrite length_app. lia.
Qed.

Lemma decoded_value_count_witness :
  1 <= Dim defaultCodec
  /\ Z.of_nat (length three_points) * Dim defaultCodec
     = Z.of_nat (terminals published).
Proof.
  assert (Hd : 1 <= Dim defaultCodec) by by_compute.
  split; [exact Hd|].
  apply (proj1 (decoded_value_count defaultCodec published Hd)
           three_points []).
  by_compute.
Defined.

(** X21. Which buffers the decoders accept, for a codec of dimension at
    least 1.  [DecodeCoords] returns coordinates exactly when no byte is
    invalid, the last byte is a terminal byte, and the number of terminal
    bytes is a multiple of [Dim]; [DecodeFlatCoords], into a destination of
    a multiple of [Dim] components, accepts the empty buffer as well. *)
Theorem decoders_accept {F : Type} `{Float64Ops F}
        (c : Codec F) (buf : list byte) (Hdim : 1 <= Dim c) :
  ((exists coords, DecodeCoords c buf = Some (Ok (coords, [])))
   <-> ~ Exists invalid_byte buf
       /\ (exists pre t, buf = pre ++ [t] /\ is_terminal t = true)
       /\ Z.rem (Z.of_nat (terminals buf)) (Dim c) = 0)
  /\ (forall dest,
         Z.rem (len dest) (Dim c) = 0 ->
         (exists flat, DecodeFlatCoords c dest buf = Some (Ok (flat, [])))
         <-> ~ Exists invalid_byte buf
             /\ (buf = []
                 \/ exists pre t, buf = pre ++ [t] /\ is_terminal t = true)
             /\ Z.rem (Z.of_nat (terminals buf)) (Dim c) = 0).
Proof.
  split.
  - destruct (DecodeCoords_outcomes c buf Hdim)
      as [(Hinv & Hr)|[(Hv & Hcut & Hr)|(Hv & He & Hm & coords & Hr & _)]];
      rewrite Hr.
    + split; [intros [coords Hc]; discriminate | tauto].
    + split; [intros [coords Hc]; discriminate|].
      intros (_ & Hend & Hrem). exfalso.
      destruct Hcut as [->|Hcut].
      * destruct Hend as (pre & t & Hnil & _). destruct pre; discriminate.
      * apply (cut_short_not_whole c buf Hdim Hcut Hrem). right. exact Hend.
    + split; [intros _|intros _; exists coords; reflexivity].
      split; [exact Hv|]. split; [exact He|exact Hm].
  - intros dest Hrem.
    destruct (DecodeFlatCoords_outcomes c dest buf Hdim Hrem)
      as [(Hinv & Hr)|[(Hv & Hcut & Hr)|(Hv & He & Hm & flat & Hr & _)]];
      rewrite Hr.
    + split; [intros [flat Hc]; discriminate | tauto].
    + split; [intros [flat Hc]; discriminate|].
      intros (_ & Hend & Hrem'). exfalso.
      exact (cut_short_not_whole c buf Hdim Hcut Hrem' Hend).
    + split; [intros _|intros _; eexists; reflexivity].
      split; [exact Hv|]. split; [exact He|exact Hm].
Qed.

Lemma decoders_accept_witness :
  1 <= Dim defaultCodec
  /\ ~ Exists invalid_byte published
  /\ Z.rem (Z.of_nat (terminals published)) (Dim defaultCodec) = 0.
Proof.
  assert (Hd : 1 <= Dim defaultCodec) by by_compute.
  split; [exact Hd|].
  assert (Hdec : exists coords,
             DecodeCoords defaultCodec published = Some (Ok (coords, []))).
  { exists three_points. by_compute. }
  destruct (proj1 (proj1 (decoders_accept defaultCodec published Hd)) Hdec)
    as (Hv & _ & Hm).
  split; [exact Hv|exact Hm].
Defined.

(** ** Size of the encodings *)

Section EncodedSize.

Lemma EncodeInt_size v :
  (1 <= length (EncodeInt [] v) <= 13)%nat.
Proof.
  assert (Hu : is_uint (zigzag v)).
  { unfold zigzag. destruct (v <? 0); apply to_uint_range. }
  destruct (EncodeUint_bytes (zigzag v) Hu) as (cs & t & E & _ & _ & Hl).
  unfold EncodeInt. rewrite E, length_app. cbn [length]. lia.
Qed.

Lemma EncodeInts_size js :
  (length js <= length (EncodeInts js) <= 13 * length js)%nat.
Proof.
  induction js as [|j js IH]; [cbn; lia|].
  rewrite EncodeInts_cons, length_app. cbn [length].
  pose proof (EncodeInt_size j). lia.
Qed.

Lemma small_valid_delta e : small e -> valid_delta e.
Proof.
  intros He. destruct (int_sub_small e 0 He) as [_ Hv].
  - unfold small, max_scaled. change (2 ^ 62 - 1) with 4611686018427387903.
    lia.
  - rewrite Z.sub_0_r in Hv. exact Hv.
Qed.

End EncodedSize.

(** X22. Every value costs between 1 and 13 bytes.  [EncodeCoord] writes
    between [len(coord)] and [13 * len(coord)] bytes, and [EncodeFlatCoords],
    for a codec of dimension at least 1 and a flat array of a multiple of
    [Dim] components, returns a buffer of between [len(flat)] and
    [13 * len(flat)] bytes. *)
Theorem encoded_size {F : Type} `{Float64Ops F}
        (c : Codec F) (flat : list F)
        (Hdim : 1 <= Dim c) (Hflat : Z.rem (len flat) (Dim c) = 0) :
  (forall coord,
      len coord <= len (EncodeCoord c [] coord) <= 13 * len coord)
  /\ exists bytes,
      EncodeFlatCoords c [] flat = Ok bytes
      /\ len flat <= len bytes <= 13 * len flat.
Proof.
  split.
  - intros coord. rewrite EncodeCoord_ints, app_nil_l. unfold len.
    pose proof (EncodeInts_size (scaled c coord)) as Hs.
    rewrite scaled_length in Hs. lia.
  - destruct (flat_groups c flat Hdim Hflat) as (ls & -> & Hshape).
    rewrite (EncodeFlatCoords_rows c [] ls Hdim Hshape), app_nil_l.
    eexists. split; [reflexivity|].
    set (deltas := delta_rows (replicate (Z.to_nat (Dim c)) 0)
                              (map (scaled c) ls)).
    pose proof (EncodeInts_size (concat deltas)) as Hs.
    assert (Hdl : Forall (fun row => length row = Z.to_nat (Dim c)) deltas).
    { unfold deltas. apply (delta_rows_length (Z.to_nat (Dim c)));
        [apply length_replicate|].
      apply Forall_map. eapply Forall_impl; [exact Hshape|]. cbv beta.
      intros coord Hc. rewrite scaled_length. exact Hc. }
    rewrite (concat_length_uniform _ _ Hdl) in Hs. unfold deltas in Hs.
    rewrite delta_rows_count, length_map in Hs.
    unfold len. rewrite (concat_length_uniform _ _ Hshape).
    fold deltas in Hs |- *.
    generalize dependent (length ls * Z.to_nat (Dim c))%nat.
    intros m Hs. lia.
Qed.

Lemma encoded_size_witness :
  1 <= Dim defaultCodec
  /\ Z.rem (len (concat three_points)) (Dim defaultCodec) = 0
  /\ exists bytes,
      EncodeFlatCoords defaultCodec [] (concat three_points) = Ok bytes
      /\ len bytes <= 78.
Proof.
  assert (Hd : 1 <= Dim defaultCodec) by by_compute.
  assert (Hf : Z.rem (len (concat three_points)) (Dim defaultCodec) = 0)
    by reflexivity.
  split; [exact Hd|]. split; [exact Hf|].
  destruct (proj2 (encoded_size defaultCodec (concat three_points) Hd Hf))
    as (bytes & He & _ & Hle).
  exists bytes. split; [exact He|]. exact Hle.
Defined.

(** X23. The package-level functions, which use the default codec on
    binary64.  For a non-empty sequence of two-component coordinates whose
    scaled and rounded components lie within [2^62 - 1] of zero,
    [DecodeCoords] on the bytes of [EncodeCoords] returns as many
    coordinates, of two components each, and consumes every byte; and
    [DecodeCoord] on the bytes of [EncodeCoord], whatever follows them,
    returns each component as [float64(round(1e5 * x)) / 1e5]. *)
Theorem package_round_trip (coords : list (list float))
        (Hne : coords <> [])
        (Hshape : Forall (fun coord => len coord = 2) coords)
        (Hsmall : Forall (fun coord => Forall small (scaled defaultCodec coord))
                         coords) :
  (exists bytes coords',
      Package.EncodeCoords coords = Ok bytes
      /\ Package.DecodeCoords bytes = Some (Ok (coords', []))
      /\ length coords' = length coords
      /\ Forall (fun coord' => len coord' = 2) coords')
  /\ Forall (fun coord =>
               forall rest,
                 Package.DecodeCoord (Package.EncodeCoord coord ++ rest)
                 = Ok (map (fun x => unscale defaultCodec
                                       (round (f_mul (Scale defaultCodec) x)))
                           coord, rest))
            coords.
Proof.
  split.
  - apply (sequence_round_trip_shape defaultCodec coords);
      [by_compute | exact Hne | exact Hshape | exact Hsmall].
  - apply Forall_forall. intros coord Hin rest.
    pose proof (proj1 (Forall_forall _ _) Hshape coord Hin) as Hlen.
    pose proof (proj1 (Forall_forall _ _) Hsmall coord Hin) as Hs.
    cbv beta in Hlen, Hs. unfold Package.DecodeCoord, Package.EncodeCoord.
    rewrite EncodeCoord_ints, app_nil_l.
    rewrite DecodeCoord_ints by by_compute.
    replace (Z.to_nat (Dim defaultCodec)) with (length (scaled defaultCodec coord))
      by (rewrite scaled_length; unfold len in Hlen; cbn [Dim defaultCodec]; lia).
    rewrite DecodeInts_EncodeInts
      by (eapply Forall_impl; [exact Hs | exact small_valid_delta]).
    unfold scaled. rewrite map_map. reflexivity.
Qed.

Lemma package_round_trip_witness :
  two_points <> []
  /\ Forall (fun coord => len coord = 2) two_points
  /\ Forall (fun coord => Forall small (scaled defaultCodec coord)) two_points
  /\ exists bytes coords',
      Package.EncodeCoords two_points = Ok bytes
      /\ Package.DecodeCoords bytes = Some (Ok (coords', []))
      /\ length coords' = length two_points.
Proof.
  assert (Hn : two_points <> []) by by_compute.
  assert (Hl : Forall (fun coord => len coord = 2) two_points).
  { repeat (apply Forall_cons_2; [reflexivity|]). apply Forall_nil_2. }
  assert (Hs : Forall (fun coord => Forall small (scaled defaultCodec coord))
                      two_points).
  { repeat (apply Forall_cons_2;
            [unfold scaled; cbn [map];
             repeat (apply Forall_cons_2;
                     [vm_compute; repeat split; intro; discriminate|]);
             apply Forall_nil_2|]).
    apply Forall_nil_2. }
  split; [exact Hn|]. split; [exact Hl|]. split; [exact Hs|].
  destruct (proj1 (package_round_trip two_points Hn Hl Hs))
    as (bytes & coords' & He & Hd & Hc & _).
  exists bytes, coords'. split; [exact He|]. split; [exact Hd|exact Hc].
Defined.

(** * The claims on float64 arithmetic *)

(** ** The zigzag decoder at the largest [uint] *)

(** C4, at the one input where the code and the claim part.  The largest
    [uint] is odd, and it is what [EncodeInt] hands [EncodeUint] for the
    smallest [int].  The claim's [- ((u + 1) >> 1)] is the smallest [int]
    there, an [int] like any other; [DecodeInt] adds 1 in [uint], gets 0, and
    returns 0. *)
Theorem DecodeInt_odd_branch_wraps :
  is_uint (uint_modulus - 1)
  /\ Z.odd (uint_modulus - 1) = true
  /\ EncodeInt [] min_int = EncodeUint [] (uint_modulus - 1)
  /\ DecodeUint (EncodeUint [] (uint_modulus - 1))
     = Ok (uint_modulus - 1, [])
  /\ - Z.shiftr (uint_modulus - 1 + 1) 1 = min_int
  /\ is_int min_int
  /\ DecodeInt (EncodeUint [] (uint_modulus - 1)) = Ok (0, []).
Proof.
  split; [rewrite uint_modulus_eq; unfold is_uint; rewrite uint_modulus_eq;
          lia|].
  split; [reflexivity|]. split; [by_compute|]. split; [by_compute|].
  split; [reflexivity|].
  split; [unfold is_int; rewrite min_int_eq, max_int_eq; lia|].
  by_compute.
Qed.

(** ** Round trip of a sequence *)

Section SequenceValues.

Context {F : Type} `{Float64Ops F}.
Variable c : Codec F.

(** What [DecodeCoords] returns for the bytes of [EncodeCoords]: the first
    coordinate unscaled, and the running sums in [float64] of the unscaled
    deltas after it. *)
Lemma sequence_round_trip_rows first rest :
  1 <= Dim c ->
  Forall (fun coord => len coord = Dim c) (first :: rest) ->
  Forall (fun coord => Forall small (scaled c coord)) (first :: rest) ->
  exists bytes,
    EncodeCoords c [] (first :: rest) = Ok bytes
    /\ DecodeCoords c bytes =
       Some (Ok (map (unscale c) (scaled c first)
                   :: float_sums c (map (unscale c) (scaled c first))
                        (delta_rows (scaled c first) (map (scaled c) rest)),
                 [])).
Proof.
  intros Hd Hshape Hsmall.
  set (n := Z.to_nat (Dim c)).
  assert (Hzeros : Forall small (replicate n 0)).
  { apply Forall_replicate. unfold small, max_scaled.
    change (2 ^ 62 - 1) with 4611686018427387903. lia. }
  assert (Hv : Forall (Forall valid_delta)
                 (delta_rows (replicate n 0) (map (scaled c) (first :: rest)))).
  { apply delta_rows_valid; [exact Hzeros|]. apply Forall_map. exact Hsmall. }
  assert (Hfirst : zip_with int_sub (scaled c first) (replicate n 0)
                   = scaled c first).
  { apply Forall_cons_1 in Hshape as [Hlen _].
    apply Forall_cons_1 in Hsmall as [Hs _].
    replace n with (length (scaled c first))
      by (rewrite scaled_length; unfold len, n in *; lia).
    apply zip_with_int_sub_zeros. exact Hs. }
  cbn [map delta_rows] in Hv. rewrite Hfirst in Hv.
  apply (DecodeCoords_EncodeCoords_rows c (first :: rest) (scaled c first)
           (delta_rows (scaled c first) (map (scaled c) rest)) Hd Hshape);
    [|exact Hv].
  cbn [map delta_rows]. fold n. rewrite Hfirst. reflexivity.
Qed.

End SequenceValues.

(** C1, as the code has it.  For a codec with [Dim >= 1] and a non-empty
    sequence whose coordinates have [Dim] components each, every
    [round (Scale * x)] within [2^62 - 1] of zero: [EncodeCoords] from an
    empty buffer returns bytes on which [DecodeCoords] succeeds with an empty
    remainder and a sequence of the same length, of [Dim] components per
    coordinate.  Its first coordinate is [float64(round(Scale * x)) / Scale]
    for each component [x] of the first coordinate encoded, and every later
    coordinate is the sum in [float64] of the coordinate decoded before it
    and [float64(d) / Scale], [d] being the difference of the rounded scaled
    components of the two coordinates encoded. *)
Theorem sequence_round_trip_values {F : Type} `{Float64Ops F}
        (c : Codec F) (first : list F) (rest : list (list F))
        (Hdim : 1 <= Dim c)
        (Hshape : Forall (fun coord => len coord = Dim c) (first :: rest))
        (Hsmall : Forall (fun coord => Forall small (scaled c coord))
                         (first :: rest)) :
  exists bytes seq',
    EncodeCoords c [] (first :: rest) = Ok bytes
    /\ DecodeCoords c bytes = Some (Ok (seq', []))
    /\ length seq' = length (first :: rest)
    /\ Forall (fun coord' => len coord' = Dim c) seq'
    /\ seq' = map (fun x => unscale c (round (f_mul (Scale c) x))) first
              :: float_sums c
                   (map (fun x => unscale c (round (f_mul (Scale c) x))) first)
                   (delta_rows (scaled c first) (map (scaled c) rest)).
Proof.
  destruct (sequence_round_trip_rows c first rest Hdim Hshape Hsmall)
    as (bytes & Henc & Hdec).
  assert (Hrows : Forall (fun row => length row = Z.to_nat (Dim c))
                         (map (scaled c) (first :: rest))).
  { apply Forall_map. eapply Forall_impl; [exact Hshape|].
    cbv beta. intros x Hx. rewrite scaled_length. unfold len in Hx. lia. }
  cbn [map] in Hrows. apply Forall_cons_1 in Hrows as [Hfirst Hrest].
  destruct (float_sums_shape c (Z.to_nat (Dim c))
              (delta_rows (scaled c first) (map (scaled c) rest))
              (map (unscale c) (scaled c first)))
    as [Hl Hf].
  { rewrite length_map. exact Hfirst. }
  { apply (delta_rows_length (Z.to_nat (Dim c))); assumption. }
  assert (Hmap : map (unscale c) (scaled c first)
                 = map (fun x => unscale c (round (f_mul (Scale c) x))) first)
    by (unfold scaled; apply map_map).
  rewrite Hmap in Hdec, Hl, Hf.
  exists bytes. eexists. split; [exact Henc|]. split; [exact Hdec|].
  split; [|split].
  - cbn [length]. rewrite Hl, delta_rows_count, length_map. reflexivity.
  - apply Forall_cons_2.
    + unfold len. rewrite <- Hmap, length_map, Hfirst. lia.
    + eapply Forall_impl; [exact Hf|]. cbv beta. intros x Hx.
      unfold len. rewrite Hx. lia.
  - reflexivity.
Qed.

Lemma sequence_round_trip_values_witness :
  1 <= Dim defaultCodec
  /\ Forall (fun coord => len coord = Dim defaultCodec) two_points
  /\ Forall (fun coord => Forall small (scaled defaultCodec coord)) two_points
  /\ exists bytes,
      EncodeCoords defaultCodec [] two_points = Ok bytes
      /\ DecodeCoords defaultCodec bytes = Some (Ok (two_points, [])).
Proof.
  assert (Hd : 1 <= Dim defaultCodec) by by_compute.
  assert (Hl : Forall (fun coord => len coord = Dim defaultCodec) two_points).
  { repeat (apply Forall_cons_2; [reflexivity|]). apply Forall_nil_2. }
  assert (Hs : Forall (fun coord => Forall small (scaled defaultCodec coord))
                      two_points).
  { repeat (apply Forall_cons_2;
            [unfold scaled; cbn [map];
             repeat (apply Forall_cons_2;
                     [vm_compute; repeat split; intro; discriminate|]);
             apply Forall_nil_2|]).
    apply Forall_nil_2. }
  split; [exact Hd|]. split; [exact Hl|]. split; [exact Hs|].
  destruct (sequence_round_trip_values defaultCodec _ _ Hd Hl Hs)
    as (bytes & seq' & He & Hdec & _ & _ & Hseq).
  exists bytes. split; [exact He|]. rewrite Hdec, Hseq. by_compute.
Defined.

(** C1 as the specification states it fails on binary64.  The 400
    coordinates of [far_points] are numbers of five decimals, which the
    encoder scales to the integers [10^14 + k] without loss; [DecodeCoords]
    returns 400 coordinates for their encoding, and not all of them are
    within [1 / (2 * Scale)] of the ones encoded: the running sums have
    rounded 399 times.  One coordinate is enough next to a tie:
    [38.500005] comes back as [38.50001], further than [1 / (2 * Scale)]
    from the binary64 value encoded. *)
Lemma sequence_round_trip_exceeds_bound :
  Binary64.to_Q (Scale defaultCodec) = Some (inject_Z 100000)
  /\ (far_points <> []
      /\ Forall (fun coord => len coord = Dim defaultCodec) far_points
      /\ map (scaled defaultCodec) far_points = far_scaled
      /\ EncodeCoords defaultCodec [] far_points = Ok far_bytes
      /\ DecodeCoords defaultCodec far_bytes = Some (Ok (far_decoded, []))
      /\ length far_decoded = length far_points
      /\ all2 (all2 (Binary64.within default_bound)) far_decoded far_points
         = false)
  /\ (EncodeCoords defaultCodec [] near_tie
      = Ok (list_byte_of_string "ap~iF?")
      /\ DecodeCoords defaultCodec (list_byte_of_string "ap~iF?")
         = Some (Ok ([[38.50001; 0]]%float, []))
      /\ all2 (all2 (Binary64.within default_bound))
              [[38.50001; 0]]%float near_tie = false).
Proof.
  split; [by_compute|]. split.
  - split; [by_compute|]. split.
    + unfold far_points. apply Forall_map. apply Forall_forall.
      intros k _. reflexivity.
    + split; [by_compute|]. split; [by_compute|]. split; [by_compute|].
      split; by_compute.
  - split; [by_compute|]. split; by_compute.
Qed.

(** ** The two accumulations *)

(** C6, as the code has it.  For a codec with [Dim >= 1], on every buffer on
    which [DecodeCoords] succeeds [DecodeFlatCoords] with an empty destination
    succeeds too, with the same remainder and as many values, from the same
    integers: a first row and the rows of deltas after it, of [Dim] integers
    each.  Both return the first row unscaled; after it [DecodeCoords]
    returns the running sums in [float64] of the unscaled deltas, and
    [DecodeFlatCoords] the running sums in [int] of the deltas, unscaled. *)
Theorem accumulators_same_deltas {F : Type} `{Float64Ops F}
        (c : Codec F) (buf : list byte)
        (coords : list (list F)) (rest : list byte)
        (Hdim : 1 <= Dim c)
        (Hdec : DecodeCoords c buf = Some (Ok (coords, rest))) :
  exists first deltas flat,
    length first = Z.to_nat (Dim c)
    /\ Forall (fun row => length row = Z.to_nat (Dim c)) deltas
    /\ coords = map (unscale c) first
                :: float_sums c (map (unscale c) first) deltas
    /\ flat = map (unscale c) first
              ++ map (unscale c) (concat (int_sums first deltas))
    /\ DecodeFlatCoords c [] buf = Some (Ok (flat, rest))
    /\ length (concat coords) = length flat.
Proof.
  assert (Hne : buf <> []).
  { intros ->. rewrite DecodeCoords_empty in Hdec by exact Hdim.
    discriminate. }
  assert (Hnil : Z.rem (len (@nil F)) (Dim c) = 0).
  { unfold len. cbn [length Z.of_nat]. apply Z.rem_0_l. lia. }
  rewrite DecodeCoords_view in Hdec by lia.
  rewrite (DecodeFlatCoords_view c [] buf Hdim Hnil).
  rewrite (DecodeRows_first c buf Hdim Hne).
  destruct (DecodeInts _ buf) as [[row buf']| |] eqn:Ei; try discriminate.
  pose proof (DecodeInts_length _ _ _ _ Ei) as Hlen.
  pose proof (DecodeInts_is_int _ _ _ _ Ei) as Hint.
  destruct (DecodeRows _ _ buf') as [[rows| |]|] eqn:Er; try discriminate.
  injection Hdec as <- <-.
  pose proof (DecodeRows_rows _ _ _ _ Er) as Hrows.
  exists row, rows. eexists. split; [exact Hlen|]. split.
  { eapply Forall_impl; [exact Hrows|]. cbv beta. intros r [Hr _]. exact Hr. }
  split; [reflexivity|]. split; [reflexivity|]. split.
  - cbn [app]. rewrite <- Hlen, int_sums_first by exact Hint.
    cbn [concat]. rewrite map_app. reflexivity.
  - cbn [concat]. rewrite !length_app, !length_map. f_equal.
    apply sums_same_count. apply length_map.
Qed.

Lemma accumulators_same_deltas_witness :
  1 <= Dim defaultCodec
  /\ DecodeCoords defaultCodec published = Some (Ok (three_points, []))
  /\ exists flat,
      DecodeFlatCoords defaultCodec [] published = Some (Ok (flat, []))
      /\ length flat = 6%nat.
Proof.
  assert (Hd : 1 <= Dim defaultCodec) by by_compute.
  assert (Hdec : DecodeCoords defaultCodec published
                 = Some (Ok (three_points, []))) by by_compute.
  split; [exact Hd|]. split; [exact Hdec|].
  destruct (accumulators_same_deltas defaultCodec published three_points []
              Hd Hdec) as (first & deltas & flat & _ & _ & _ & _ & Hf & Hl).
  exists flat. split; [exact Hf|]. rewrite <- Hl. reflexivity.
Defined.

(** The difference of the two accumulations on binary64 is not bounded by
    one unit in the last place.  On [far_bytes] the last first component of
    [DecodeCoords] is more than 40 units of [2^-23], the spacing of binary64
    at [10^9], from the one of [DecodeFlatCoords]; and where the [int]
    accumulator wraps, on the deltas [max_int] and [1], [DecodeCoords] holds
    a positive value and [DecodeFlatCoords] a negative one. *)
Lemma accumulators_drift_binary64 :
  (DecodeCoords defaultCodec far_bytes = Some (Ok (far_decoded, []))
   /\ DecodeFlatCoords defaultCodec [] far_bytes = Some (Ok (far_flat, []))
   /\ Binary64.within (40 # 8388608)
                      (nth 798 (concat far_decoded) 0%float)
                      (nth 798 far_flat 0%float) = false)
  /\ exists coords flat,
      DecodeCoords defaultCodec wrap_steps = Some (Ok (coords, []))
      /\ DecodeFlatCoords defaultCodec [] wrap_steps = Some (Ok (flat, []))
      /\ PrimFloat.ltb 0%float (nth 2 (concat coords) 0%float) = true
      /\ PrimFloat.ltb (nth 2 flat 0%float) 0%float = true.
Proof.
  split; [split; [by_compute|]; split; by_compute|].
  exists [[92233720368547.766; 0]; [92233720368547.766; 0]]%float,
         [92233720368547.766; 0; -92233720368547.766; 0]%float.
  split; [by_compute|]. split; [by_compute|]. split; by_compute.
Qed.
